(** * A convolutional LSTM cell (img_optim/conv_lstm_cell.py)

    The cell of [conv_lstm_cell.py] is embedded over a small model of the
    part of PyTorch it calls.  Tensor elements are real numbers (rounding
    of floating point is outside the model).  A tensor value is a shape, a
    device and an element function; tensor objects live in a store and the
    program handles references to them, so that every operator of the
    source allocates a new object and nothing is shared by accident.
    Of gradient tracking the model keeps the flag [requires_grad] of every
    tensor: what a factory function or [Parameter] sets it to and how the
    operators pass it on; gradients themselves are outside the model.

    The preprocessing script [pytorch_prednet/process_kitti.py] is embedded
    in the module [Kitti] further down. *)

From Stdlib Require Import String Ascii Reals Lra Lia Bool Arith List.
From Stdlib Require Import ZArith.
From Stdlib Require Floats Uint63.
Import ListNotations.

Set Implicit Arguments.

(** ** Exceptions and results *)

(** The exceptions the modelled PyTorch operators raise. *)
Inductive exn : Type :=
| DeviceError     (* "Expected all tensors to be on the same device" *)
| ShapeError      (* sizes that do not broadcast, wrong rank or channel count *)
| DanglingRef.    (* a reference that names no object of the store *)

Inductive result (A : Type) : Type :=
| Ok (a : A)
| Err (e : exn).

Arguments Ok {A} a.
Arguments Err {A} e.

(** ** Tensor values *)

Inductive Device : Type :=
| cpu
| cuda (index : nat).

Definition device_eqb (a b : Device) : bool :=
  match a, b with
  | cpu, cpu => true
  | cuda i, cuda j => i =? j
  | _, _ => false
  end.

(** [requires_grad] is the flag autograd keeps for a tensor: a factory
    function or [Parameter] sets it, and the result of an operator requires
    gradients when one of its operands does. *)
Record tensor : Type := mkTensor {
  shape : list nat;
  device : Device;
  data : list nat -> R;
  requires_grad : bool
}.

(** [idx] is a position of a tensor of shape [s]. *)
Definition in_shape (s idx : list nat) : Prop := Forall2 lt idx s.

(** [torch.equal]: same shape and the same element at every position. *)
Definition tensor_equal (a b : tensor) : Prop :=
  shape a = shape b /\ forall idx, in_shape (shape a) idx -> data a idx = data b idx.

Module Torch.

(** *** Broadcasting *)

Definition broadcast_dim (a b : nat) : result nat :=
  if a =? b then Ok a
  else if a =? 1 then Ok b
  else if b =? 1 then Ok a
  else Err ShapeError.

(** Shapes are aligned at their last dimension: both lists are reversed. *)
Fixpoint broadcast_rev (a b : list nat) : result (list nat) :=
  match a, b with
  | [], _ => Ok b
  | _, [] => Ok a
  | x :: a', y :: b' =>
      match broadcast_dim x y with
      | Err e => Err e
      | Ok d =>
          match broadcast_rev a' b' with
          | Err e => Err e
          | Ok r => Ok (d :: r)
          end
      end
  end.

Definition broadcast_shapes (a b : list nat) : result (list nat) :=
  match broadcast_rev (rev a) (rev b) with
  | Ok r => Ok (rev r)
  | Err e => Err e
  end.

(** The position of an operand of shape [s] that is read for position
    [idx] of the broadcast result: leading dimensions the operand lacks are
    dropped and a dimension of size 1 is read at 0 (lists reversed). *)
Fixpoint expand_rev (s idx : list nat) : list nat :=
  match s, idx with
  | d :: s', i :: idx' => (if d =? 1 then 0 else i) :: expand_rev s' idx'
  | _, _ => []
  end.

Definition bidx (s idx : list nat) : list nat :=
  rev (expand_rev (rev s) (rev idx)).

(** *** Devices of the operands of a binary operator

    The first operand that is not on the CPU fixes the device; a 0-dim CPU
    tensor may join operands of another device; anything else raises. *)
Definition is_scalar (t : tensor) : bool :=
  match shape t with [] => true | _ => false end.

Definition common_device (a b : tensor) : result Device :=
  match device a, device b with
  | cpu, cpu => Ok cpu
  | cuda i, cuda j => if i =? j then Ok (cuda i) else Err DeviceError
  | cuda i, cpu => if is_scalar b then Ok (cuda i) else Err DeviceError
  | cpu, cuda j => if is_scalar a then Ok (cuda j) else Err DeviceError
  end.

(** *** Elementwise operators *)

Definition binop (f : R -> R -> R) (a b : tensor) : result tensor :=
  match common_device a b with
  | Err e => Err e
  | Ok d =>
      match broadcast_shapes (shape a) (shape b) with
      | Err e => Err e
      | Ok s =>
          Ok {| shape := s;
                device := d;
                data := fun idx =>
                  f (data a (bidx (shape a) idx)) (data b (bidx (shape b) idx));
                requires_grad := requires_grad a || requires_grad b |}
      end
  end.

Definition add : tensor -> tensor -> result tensor := binop Rplus.
Definition sub : tensor -> tensor -> result tensor := binop Rminus.
Definition mul : tensor -> tensor -> result tensor := binop Rmult.
Definition minimum : tensor -> tensor -> result tensor := binop Rmin.
Definition maximum : tensor -> tensor -> result tensor := binop Rmax.

(** An operator applied to every element, such as [torch.tanh] or the
    product with a Python number. *)
Definition map (f : R -> R) (a : tensor) : tensor :=
  {| shape := shape a; device := device a; data := fun idx => f (data a idx);
     requires_grad := requires_grad a |}.

(** A tensor filled with [x]; as the factory functions make it when they
    are not asked otherwise, it does not require gradients. *)
Definition full (s : list nat) (d : Device) (x : R) : tensor :=
  {| shape := s; device := d; data := fun _ => x; requires_grad := false |}.

(** [torch.ones(s, requires_grad=g)] and [torch.zeros(s, requires_grad=g)]:
    on the CPU, the default device. *)
Definition ones (s : list nat) (g : bool) : tensor :=
  {| shape := s; device := cpu; data := fun _ => 1%R; requires_grad := g |}.

Definition zeros (s : list nat) (g : bool) : tensor :=
  {| shape := s; device := cpu; data := fun _ => 0%R; requires_grad := g |}.

(** [Parameter(data, requires_grad)]: the elements of [data] under the flag
    [requires_grad], the constructor's own argument (True when the call
    leaves it out); the flag of [data] is not read. *)
Definition Parameter_new (t : tensor) (requires_grad : bool) : tensor :=
  {| shape := shape t; device := device t; data := data t;
     requires_grad := requires_grad |}.

Definition to (d : Device) (a : tensor) : tensor :=
  {| shape := shape a; device := d; data := data a;
     requires_grad := requires_grad a |}.

(** *** Two-dimensional convolution *)

(** Sum of [f 0 .. f (n-1)]. *)
Definition sum_upto (n : nat) (f : nat -> R) : R :=
  fold_right (fun k acc => (f k + acc)%R) 0%R (seq 0 n).

(** The input read through its zero padding: row [a] and column [b] of the
    padded image of plane [n], [c]. *)
Definition padded (input : tensor) (H W ph pw : nat) (n c a b : nat) : R :=
  if (ph <=? a) && (a <? ph + H) && (pw <=? b) && (b <? pw + W)
  then data input [n; c; a - ph; b - pw]
  else 0%R.

Definition conv2d_val (input weight : tensor) (bias : option tensor)
           (stride padding : nat * nat) (idx : list nat) : R :=
  match idx, shape input, shape weight with
  | [n; co; y; x], [_; _; H; W], [_; Ci; kh; kw] =>
      ((match bias with Some b => data b [co] | None => 0 end) +
       sum_upto Ci (fun ci =>
         sum_upto kh (fun ky =>
           sum_upto kw (fun kx =>
             data weight [co; ci; ky; kx] *
             padded input H W (fst padding) (snd padding) n ci
                    (y * fst stride + ky) (x * snd stride + kx)))))%R
  | _, _, _ => 0%R
  end.

Definition bias_ok (bias : option tensor) (Co : nat) (d : Device) : result unit :=
  match bias with
  | None => Ok tt
  | Some b =>
      if negb (device_eqb (device b) d) then Err DeviceError
      else match shape b with
           | [n] => if n =? Co then Ok tt else Err ShapeError
           | _ => Err ShapeError
           end
  end.

(** [F.conv2d] with dilation 1 and one group, on a batched input. *)
Definition conv2d (input weight : tensor) (bias : option tensor)
           (stride padding : nat * nat) : result tensor :=
  match shape input, shape weight with
  | [N; C; H; W], [Co; Ci; kh; kw] =>
      if negb (device_eqb (device input) (device weight)) then Err DeviceError
      else match bias_ok bias Co (device input) with
           | Err e => Err e
           | Ok _ =>
               if negb (C =? Ci) then Err ShapeError
               else if (fst stride =? 0) || (snd stride =? 0) then Err ShapeError
               else if (H + 2 * fst padding <? kh) || (W + 2 * snd padding <? kw)
               then Err ShapeError
               else Ok {| shape := [N; Co;
                                    (H + 2 * fst padding - kh) / fst stride + 1;
                                    (W + 2 * snd padding - kw) / snd stride + 1];
                          device := device input;
                          data := conv2d_val input weight bias stride padding;
                          requires_grad :=
                            requires_grad input || requires_grad weight ||
                            match bias with
                            | Some b => requires_grad b
                            | None => false
                            end |}
           end
  | _, _ => Err ShapeError
  end.

End Torch.

(** ** Tensor objects: the store

    A Python tensor is an object; the program holds references.  The store
    lists the objects in allocation order, so a new object gets the next
    index and an object that exists keeps its index for ever. *)

Definition ref : Type := nat.
Definition store : Type := list tensor.

Definition M (A : Type) : Type := store -> result (A * store).

Definition ret {A : Type} (a : A) : M A := fun s => Ok (a, s).

Definition bind {A B : Type} (m : M A) (k : A -> M B) : M B :=
  fun s =>
    match m s with
    | Ok (a, s') => k a s'
    | Err e => Err e
    end.

Notation "x <- m ;; k" := (bind m (fun x => k))
  (at level 61, m at next level, right associativity).

Definition raise_or {A : Type} (r : result A) : M A :=
  fun s => match r with Ok a => Ok (a, s) | Err e => Err e end.

Definition read (r : ref) : M tensor :=
  fun s => match nth_error s r with Some v => Ok (v, s) | None => Err DanglingRef end.

Definition read_opt (r : option ref) : M (option tensor) :=
  match r with
  | None => ret None
  | Some r' => v <- read r' ;; ret (Some v)
  end.

Definition alloc (v : tensor) : M ref :=
  fun s => Ok (length s, s ++ [v]).

(** Assignment to the object behind a reference (only [Module.cuda] below
    assigns; no operator of the cell does). *)
Fixpoint update (s : store) (r : ref) (v : tensor) : store :=
  match s, r with
  | [], _ => []
  | _ :: s', 0 => v :: s'
  | x :: s', S r' => x :: update s' r' v
  end.

Definition assign (r : ref) (v : tensor) : M unit :=
  fun s => match nth_error s r with
           | Some _ => Ok (tt, update s r v)
           | None => Err DanglingRef
           end.

(** *** The operators of the source, on references *)

Definition lift2 (op : tensor -> tensor -> result tensor) (a b : ref) : M ref :=
  va <- read a ;; vb <- read b ;; v <- raise_or (op va vb) ;; alloc v.

Definition lift1 (op : tensor -> tensor) (a : ref) : M ref :=
  va <- read a ;; alloc (op va).

(** [a + b], [a - b], [a * b] on tensors. *)
Definition tensor_add : ref -> ref -> M ref := lift2 Torch.add.
Definition tensor_sub : ref -> ref -> M ref := lift2 Torch.sub.
Definition tensor_mul : ref -> ref -> M ref := lift2 Torch.mul.
(** [torch.min(a, b)], [torch.max(a, b)]: elementwise, of two tensors. *)
Definition torch_min : ref -> ref -> M ref := lift2 Torch.minimum.
Definition torch_max : ref -> ref -> M ref := lift2 Torch.maximum.
(** [a * x], [a + x] with a Python number [x]. *)
Definition tensor_mul_scalar (a : ref) (x : R) : M ref :=
  lift1 (Torch.map (fun e => (e * x)%R)) a.
Definition tensor_add_scalar (a : ref) (x : R) : M ref :=
  lift1 (Torch.map (fun e => (e + x)%R)) a.
Definition torch_tanh : ref -> M ref := lift1 (Torch.map tanh).
(** [torch.tensor(x)]: a 0-dim tensor on the CPU. *)
Definition torch_tensor (x : R) : M ref := alloc (Torch.full [] cpu x).
Definition torch_zeros (s : list nat) (d : Device) : M ref := alloc (Torch.full s d 0%R).
(** [register_parameter(name, Parameter(t))]: the parameter is a new
    object; [Parameter] is called with one argument, so that its
    [requires_grad] is the default, True. *)
Definition register_parameter (t : tensor) : M ref := alloc (Torch.Parameter_new t true).

(** [a.cuda()]: the tensor itself when it is on the current CUDA device
    (device 0) already, a copy there otherwise. *)
Definition tensor_cuda (a : ref) : M ref :=
  va <- read a ;;
  if device_eqb (device va) (cuda 0) then ret a else alloc (Torch.to (cuda 0) va).

(** ** torch.nn.Conv2d *)

Module nn.

Record Conv2d : Type := mkConv2d {
  in_channels : nat;
  out_channels : nat;
  kernel_size : nat * nat;
  stride : nat * nat;
  padding : nat * nat;
  weight : ref;
  bias : option ref
}.

(** The values a convolution starts from: PyTorch draws them at random. *)
Record conv_init : Type := mkInit {
  init_weight : list nat -> R;
  init_bias : list nat -> R
}.

(** [nn.Conv2d(in_channels, out_channels, kernel_size, stride, padding, bias=...)]:
    the weight and the bias are parameters. *)
Definition Conv2d_new (cin cout : nat) (k : nat * nat) (st : nat) (pad : nat * nat)
           (with_bias : bool) (init : conv_init) : M Conv2d :=
  w <- alloc (mkTensor [cout; cin; fst k; snd k] cpu (init_weight init) true) ;;
  b <- (if with_bias
        then r <- alloc (mkTensor [cout] cpu (init_bias init) true) ;; ret (Some r)
        else ret None) ;;
  ret {| in_channels := cin; out_channels := cout; kernel_size := k;
         stride := (st, st); padding := pad; weight := w; bias := b |}.

(** Calling the module on an input. *)
Definition Conv2d_call (self : Conv2d) (input : ref) : M ref :=
  x <- read input ;;
  w <- read (weight self) ;;
  b <- read_opt (bias self) ;;
  v <- raise_or (Torch.conv2d x w b (stride self) (padding self)) ;;
  alloc v.

End nn.

(** ** hard_sigmoid *)

Definition hard_sigmoid (input : ref) : M ref :=
  l0 <- torch_tensor 0%R ;;
  lower <- tensor_cuda l0 ;;
  u0 <- torch_tensor 1%R ;;
  upper <- tensor_cuda u0 ;;
  t1 <- tensor_mul_scalar input 0.2%R ;;
  t2 <- tensor_add_scalar t1 0.5%R ;;
  t3 <- torch_min t2 upper ;;
  torch_max t3 lower.

(** ** ConvLSTMCell *)

Record ConvLSTMCell : Type := mkCell {
  gating_mode : string;
  peephole : bool;
  tied_bias : bool;
  input_size : nat * nat;
  input_dim : nat;
  hidden_dim : nat;
  kernel_size : nat * nat;
  padding : nat * nat;
  Wxi : nn.Conv2d; Whi : nn.Conv2d;
  Wxf : nn.Conv2d; Whf : nn.Conv2d;
  Wxo : nn.Conv2d; Who : nn.Conv2d;
  Wxc : nn.Conv2d; Whc : nn.Conv2d;
  Wci : ref; Wcf : ref; Wco : ref;
  bi : ref; bf : ref; bc : ref; bo : ref
}.

(** ['x' in kern_n]. *)
Fixpoint contains (c : ascii) (s : string) : bool :=
  match s with
  | EmptyString => false
  | String a rest => Ascii.eqb a c || contains c rest
  end.

(** The constructor.  The three loops of the source, over [kern_names],
    [peep_names] and [tied_bias_names], are written out, one line for each
    name, in the order of the lists.  [rng] stands for the random initial
    values of the eight convolutions, by kernel name.  [Parameter(t)] wraps
    the tensor it is given; the model keeps one object for the wrapper and
    the tensor.  The flags [peephole] and [tied_bias] are passed as
    [requires_grad] to [torch.ones] and [torch.zeros], not to [Parameter].
    Sizes are natural numbers and the kernel size is a pair: the errors
    PyTorch raises for a negative size, and line 76 for a kernel size that
    is not iterable, are not part of the model. *)
Definition __init__ (input_size : nat * nat) (input_dim hidden_dim : nat)
           (kernel_size : nat * nat) (gating_mode : string)
           (peephole tied_bias : bool) (rng : string -> nn.conv_init)
  : M ConvLSTMCell :=
  let padding := (fst kernel_size / 2, snd kernel_size / 2) in
  let new_kernel (kern_n : string) : M nn.Conv2d :=
    if contains "x"%char kern_n
    then nn.Conv2d_new input_dim hidden_dim kernel_size 1 padding
                       (negb tied_bias) (rng kern_n)
    else nn.Conv2d_new hidden_dim hidden_dim kernel_size 1 padding
                       (negb tied_bias) (rng kern_n) in
  let new_peep : M ref :=
    register_parameter
      (Torch.ones [hidden_dim; fst input_size; snd input_size] peephole) in
  let new_tied_bias : M ref :=
    register_parameter (Torch.zeros [hidden_dim; 1; 1] tied_bias) in
  Wxi <- new_kernel "Wxi"%string ;;
  Whi <- new_kernel "Whi"%string ;;
  Wxf <- new_kernel "Wxf"%string ;;
  Whf <- new_kernel "Whf"%string ;;
  Wxo <- new_kernel "Wxo"%string ;;
  Who <- new_kernel "Who"%string ;;
  Wxc <- new_kernel "Wxc"%string ;;
  Whc <- new_kernel "Whc"%string ;;
  Wci <- new_peep ;;
  Wcf <- new_peep ;;
  Wco <- new_peep ;;
  bi <- new_tied_bias ;;
  bf <- new_tied_bias ;;
  bc <- new_tied_bias ;;
  bo <- new_tied_bias ;;
  ret {| gating_mode := gating_mode; peephole := peephole; tied_bias := tied_bias;
         input_size := input_size; input_dim := input_dim;
         hidden_dim := hidden_dim; kernel_size := kernel_size;
         padding := padding;
         Wxi := Wxi; Whi := Whi; Wxf := Wxf; Whf := Whf;
         Wxo := Wxo; Who := Who; Wxc := Wxc; Whc := Whc;
         Wci := Wci; Wcf := Wcf; Wco := Wco;
         bi := bi; bf := bf; bc := bc; bo := bo |}.

Definition forward (self : ConvLSTMCell) (input_tensor : ref)
           (prev_state : ref * ref) : M (ref * ref) :=
  let Xt := input_tensor in
  let '(Htm1, Ctm1) := prev_state in
  (* i = hard_sigmoid(Wxi(Xt) + Whi(Htm1) + Wci * Ctm1 + bi) *)
  i1 <- nn.Conv2d_call (Wxi self) Xt ;;
  i2 <- nn.Conv2d_call (Whi self) Htm1 ;;
  i3 <- tensor_add i1 i2 ;;
  i4 <- tensor_mul (Wci self) Ctm1 ;;
  i5 <- tensor_add i3 i4 ;;
  i6 <- tensor_add i5 (bi self) ;;
  i <- hard_sigmoid i6 ;;
  (* f = hard_sigmoid(Wxf(Xt) + Whf(Htm1) + Wcf * Ctm1 + bf) *)
  f1 <- nn.Conv2d_call (Wxf self) Xt ;;
  f2 <- nn.Conv2d_call (Whf self) Htm1 ;;
  f3 <- tensor_add f1 f2 ;;
  f4 <- tensor_mul (Wcf self) Ctm1 ;;
  f5 <- tensor_add f3 f4 ;;
  f6 <- tensor_add f5 (bf self) ;;
  f <- hard_sigmoid f6 ;;
  if String.eqb (gating_mode self) "mul" then
    (* Ct_ = torch.tanh(Wxc(Xt) + Whc(Htm1) + bc) *)
    c1 <- nn.Conv2d_call (Wxc self) Xt ;;
    c2 <- nn.Conv2d_call (Whc self) Htm1 ;;
    c3 <- tensor_add c1 c2 ;;
    c4 <- tensor_add c3 (bc self) ;;
    Ct_ <- torch_tanh c4 ;;
    (* Ct = f * Ctm1 + i * Ct_ *)
    d1 <- tensor_mul f Ctm1 ;;
    d2 <- tensor_mul i Ct_ ;;
    Ct <- tensor_add d1 d2 ;;
    (* o = hard_sigmoid(Wxo(Xt) + Who(Htm1) + Wco * Ct + bo) *)
    o1 <- nn.Conv2d_call (Wxo self) Xt ;;
    o2 <- nn.Conv2d_call (Who self) Htm1 ;;
    o3 <- tensor_add o1 o2 ;;
    o4 <- tensor_mul (Wco self) Ct ;;
    o5 <- tensor_add o3 o4 ;;
    o6 <- tensor_add o5 (bo self) ;;
    o <- hard_sigmoid o6 ;;
    (* Ht = o * torch.tanh(Ct) *)
    h1 <- torch_tanh Ct ;;
    Ht <- tensor_mul o h1 ;;
    ret (Ht, Ct)
  else
    (* Ct_ = hard_sigmoid(Wxc(Xt) + Whc(Htm1) + bc) *)
    c1 <- nn.Conv2d_call (Wxc self) Xt ;;
    c2 <- nn.Conv2d_call (Whc self) Htm1 ;;
    c3 <- tensor_add c1 c2 ;;
    c4 <- tensor_add c3 (bc self) ;;
    Ct_ <- hard_sigmoid c4 ;;
    (* Ct = f * Ctm1 + Ct_ - i *)
    d1 <- tensor_mul f Ctm1 ;;
    d2 <- tensor_add d1 Ct_ ;;
    Ct <- tensor_sub d2 i ;;
    (* o = hard_sigmoid(Wxo(Xt) + Who(Htm1) + Wco * Ct + bo) *)
    o1 <- nn.Conv2d_call (Wxo self) Xt ;;
    o2 <- nn.Conv2d_call (Who self) Htm1 ;;
    o3 <- tensor_add o1 o2 ;;
    o4 <- tensor_mul (Wco self) Ct ;;
    o5 <- tensor_add o3 o4 ;;
    o6 <- tensor_add o5 (bo self) ;;
    o <- hard_sigmoid o6 ;;
    (* Ht = hard_sigmoid(Ct) - o *)
    h1 <- hard_sigmoid Ct ;;
    Ht <- tensor_sub h1 o ;;
    ret (Ht, Ct).

Definition init_hidden (self : ConvLSTMCell) (batch_size : nat) : M (ref * ref) :=
  wxi <- read (nn.weight (Wxi self)) ;;
  let device_ := device wxi in
  let '(h, w) := input_size self in
  H0 <- torch_zeros [batch_size; hidden_dim self; h; w] device_ ;;
  C0 <- torch_zeros [batch_size; hidden_dim self; h; w] device_ ;;
  ret (H0, C0).

(** *** Module.cuda()

    [nn.Module.cuda] moves every parameter of the module to the current
    CUDA device, in place: the parameter objects stay, their device
    changes.  The cell's own code never calls it; its users do. *)

Definition conv_parameters (c : nn.Conv2d) : list ref :=
  nn.weight c :: match nn.bias c with Some b => [b] | None => [] end.

Definition parameters (self : ConvLSTMCell) : list ref :=
  conv_parameters (Wxi self) ++ conv_parameters (Whi self) ++
  conv_parameters (Wxf self) ++ conv_parameters (Whf self) ++
  conv_parameters (Wxo self) ++ conv_parameters (Who self) ++
  conv_parameters (Wxc self) ++ conv_parameters (Whc self) ++
  [Wci self; Wcf self; Wco self; bi self; bf self; bc self; bo self].

Fixpoint move_all (d : Device) (rs : list ref) : M unit :=
  match rs with
  | [] => ret tt
  | r :: rest => v <- read r ;; _ <- assign r (Torch.to d v) ;; move_all d rest
  end.

Definition Module_cuda (self : ConvLSTMCell) : M ConvLSTMCell :=
  _ <- move_all (cuda 0) (parameters self) ;; ret self.

(** ** Reading the store in statements *)

(** The object behind a reference (an empty scalar for a reference that
    names nothing; every statement below bounds the references it reads). *)
Definition val (s : store) (r : ref) : tensor := nth r s (Torch.full [] cpu 0%R).

(** [r] names a tensor of shape [sh] on device [d]. *)
Definition tens (s : store) (r : ref) (sh : list nat) (d : Device) : Prop :=
  r < length s /\ shape (val s r) = sh /\ device (val s r) = d.

(** [r] names a 4-D tensor of shape [B; C; H; W] on [d] whose element at
    [n; c; y; x] is [g n c y x]. *)
Definition holds4 (s : store) (r : ref) (B C H W : nat) (d : Device)
           (g : nat -> nat -> nat -> nat -> R) : Prop :=
  tens s r [B; C; H; W] d /\
  forall n c y x, n < B -> c < C -> y < H -> x < W ->
    data (val s r) [n; c; y; x] = g n c y x.

(** The store only grew from [s] to [s']: every object of [s] is in [s'],
    unchanged and under the same reference. *)
Definition ext (s s' : store) : Prop := exists l, s' = s ++ l.

(** A convolution as the constructor allocates it, its parameters on [d]. *)
Definition conv_ok (s : store) (cv : nn.Conv2d) (cin cout : nat) (k : nat * nat)
           (d : Device) : Prop :=
  nn.stride cv = (1, 1) /\
  nn.padding cv = (fst k / 2, snd k / 2) /\
  tens s (nn.weight cv) [cout; cin; fst k; snd k] d /\
  match nn.bias cv with
  | Some b => tens s b [cout] d
  | None => True
  end.

(** A cell whose parameters have the shapes [__init__] gives them and are
    all on device [d]; their values are arbitrary (training changes them). *)
Record cell_ok (s : store) (self : ConvLSTMCell) (d : Device) : Prop := mkCellOk {
  ok_Wxi : conv_ok s (Wxi self) (input_dim self) (hidden_dim self) (kernel_size self) d;
  ok_Whi : conv_ok s (Whi self) (hidden_dim self) (hidden_dim self) (kernel_size self) d;
  ok_Wxf : conv_ok s (Wxf self) (input_dim self) (hidden_dim self) (kernel_size self) d;
  ok_Whf : conv_ok s (Whf self) (hidden_dim self) (hidden_dim self) (kernel_size self) d;
  ok_Wxo : conv_ok s (Wxo self) (input_dim self) (hidden_dim self) (kernel_size self) d;
  ok_Who : conv_ok s (Who self) (hidden_dim self) (hidden_dim self) (kernel_size self) d;
  ok_Wxc : conv_ok s (Wxc self) (input_dim self) (hidden_dim self) (kernel_size self) d;
  ok_Whc : conv_ok s (Whc self) (hidden_dim self) (hidden_dim self) (kernel_size self) d;
  ok_Wci : tens s (Wci self) [hidden_dim self; fst (input_size self); snd (input_size self)] d;
  ok_Wcf : tens s (Wcf self) [hidden_dim self; fst (input_size self); snd (input_size self)] d;
  ok_Wco : tens s (Wco self) [hidden_dim self; fst (input_size self); snd (input_size self)] d;
  ok_bi : tens s (bi self) [hidden_dim self; 1; 1] d;
  ok_bf : tens s (bf self) [hidden_dim self; 1; 1] d;
  ok_bc : tens s (bc self) [hidden_dim self; 1; 1] d;
  ok_bo : tens s (bo self) [hidden_dim self; 1; 1] d
}.

(** A valid configuration: odd kernel sizes and a non-empty image. *)
Definition valid_config (self : ConvLSTMCell) : Prop :=
  Nat.odd (fst (kernel_size self)) = true /\
  Nat.odd (snd (kernel_size self)) = true /\
  1 <= fst (input_size self) /\ 1 <= snd (input_size self).

(** The size a convolution of stride 1 with padding [k // 2] gives a side of
    size [h], for a kernel side [k]. *)
Definition conv_side (h k : nat) : nat := (h + 2 * (k / 2) - k) / 1 + 1.

(** The shape contract: an input frame and a state for batch size [B]. *)
Definition frame_ok (s : store) (self : ConvLSTMCell) (B : nat) (d : Device)
           (Xt : ref) : Prop :=
  tens s Xt [B; input_dim self; fst (input_size self); snd (input_size self)] d.

Definition state_ok (s : store) (self : ConvLSTMCell) (B : nat) (d : Device)
           (st : ref * ref) : Prop :=
  tens s (fst st) [B; hidden_dim self; fst (input_size self); snd (input_size self)] d /\
  tens s (snd st) [B; hidden_dim self; fst (input_size self); snd (input_size self)] d.

(** ** The equations of the specification, element by element

    These definitions follow the words of the specification; the theorems
    compare them with what [forward] leaves in the store. *)

Module Spec.

(** [clamp(v, lo, hi)]. *)
Definition clamp (v lo hi : R) : R := Rmin (Rmax v lo) hi.

Definition boundedSigmoid (x : R) : R := clamp (x * 0.2 + 0.5) 0 1.

Section Equations.

Variable s : store.
Variable self : ConvLSTMCell.
Variables Xt Htm1 Ctm1 : ref.

(** One element of the convolution [cv] of the tensor at [x]. *)
Definition Conv (cv : nn.Conv2d) (x : ref) (n c y x' : nat) : R :=
  Torch.conv2d_val (val s x) (val s (nn.weight cv))
                   (option_map (val s) (nn.bias cv))
                   (nn.stride cv) (nn.padding cv) [n; c; y; x'].

(** A peephole tensor and a tied bias, broadcast over the batch (and, for
    the bias, over the image). *)
Definition peep (w : ref) (c y x : nat) : R := data (val s w) [c; y; x].
Definition tied (b : ref) (c : nat) : R := data (val s b) [c; 0; 0].
Definition prev_cell (n c y x : nat) : R := data (val s Ctm1) [n; c; y; x].

Definition gate_i (n c y x : nat) : R :=
  boundedSigmoid (Conv (Wxi self) Xt n c y x + Conv (Whi self) Htm1 n c y x
                  + peep (Wci self) c y x * prev_cell n c y x + tied (bi self) c).

Definition gate_f (n c y x : nat) : R :=
  boundedSigmoid (Conv (Wxf self) Xt n c y x + Conv (Whf self) Htm1 n c y x
                  + peep (Wcf self) c y x * prev_cell n c y x + tied (bf self) c).

(** The argument of the candidate's activation. *)
Definition cand_pre (n c y x : nat) : R :=
  Conv (Wxc self) Xt n c y x + Conv (Whc self) Htm1 n c y x + tied (bc self) c.

(** The output gate, given the new cell state [Ct]. *)
Definition gate_o (Ct : nat -> nat -> nat -> nat -> R) (n c y x : nat) : R :=
  boundedSigmoid (Conv (Wxo self) Xt n c y x + Conv (Who self) Htm1 n c y x
                  + peep (Wco self) c y x * Ct n c y x + tied (bo self) c).

(** Multiplicative mode. *)
Definition Ct_mul (n c y x : nat) : R :=
  gate_f n c y x * prev_cell n c y x + gate_i n c y x * tanh (cand_pre n c y x).

Definition Ht_mul (n c y x : nat) : R :=
  gate_o Ct_mul n c y x * tanh (Ct_mul n c y x).

(** Subtractive mode. *)
Definition Ct_sub (n c y x : nat) : R :=
  gate_f n c y x * prev_cell n c y x + boundedSigmoid (cand_pre n c y x)
  - gate_i n c y x.

Definition Ht_sub (n c y x : nat) : R :=
  boundedSigmoid (Ct_sub n c y x) - gate_o Ct_sub n c y x.

End Equations.

End Spec.

(** ** Running a computation: weakest preconditions *)

(** [m] returns from [s], with a result and a store that satisfy [Q]. *)
Definition wp {A : Type} (m : M A) (s : store) (Q : A -> store -> Prop) : Prop :=
  exists a s', m s = Ok (a, s') /\ Q a s'.

(** What a step that computes a 4-D tensor leaves: a grown store and a new
    object with the stated elements. *)
Definition post4 (s : store) (B C H W : nat) (d : Device)
           (g : nat -> nat -> nat -> nat -> R) (r : ref) (s' : store) : Prop :=
  ext s s' /\ length s <= r /\ holds4 s' r B C H W d g.

(** What [hard_sigmoid] can take: an input on the CUDA device its bounds
    are moved to, or a 0-dim CPU tensor (which may join CUDA operands). *)
Definition hs_input_ok (v : tensor) : Prop :=
  device v = cuda 0 \/ (device v = cpu /\ shape v = []).

(** What a run of [forward] leaves: a grown store and two new objects, the
    hidden state with elements [gH] and the cell state with elements [gC]. *)
Definition run_post (s : store) (self : ConvLSTMCell) (B : nat)
           (gH gC : nat -> nat -> nat -> nat -> R) (r : ref * ref) (s' : store) : Prop :=
  ext s s' /\ length s <= fst r /\ length s <= snd r /\
  holds4 s' (fst r) B (hidden_dim self) (fst (input_size self)) (snd (input_size self))
         (cuda 0) gH /\
  holds4 s' (snd r) B (hidden_dim self) (fst (input_size self)) (snd (input_size self))
         (cuda 0) gC.

(** ** A smallest cell, for concrete runs

    One input channel, one hidden channel, a 1x1 image, 1x1 kernels, all
    convolution weights and biases 0, batch size 1 and an input frame whose
    only element is 1. *)

Definition zero_init : string -> nn.conv_init :=
  fun _ => nn.mkInit (fun _ => 0%R) (fun _ => 0%R).

(** The script of the module's [__main__] block: draw a frame for batch
    size [B], build the cell, optionally move both to the GPU, take the
    initial state from [init_hidden].  [frame] holds the elements that
    [torch.rand] draws. *)
Definition session (input_size : nat * nat) (input_dim hidden_dim : nat)
           (kernel_size : nat * nat) (gating_mode : string) (peephole tied_bias : bool)
           (rng : string -> nn.conv_init) (gpu : bool) (B : nat) (frame : list nat -> R)
  : M (ConvLSTMCell * ref * (ref * ref)) :=
  x <- alloc (mkTensor [B; input_dim; fst input_size; snd input_size]
                       (if gpu then cuda 0 else cpu) frame false) ;;
  model <- __init__ input_size input_dim hidden_dim kernel_size gating_mode
                    peephole tied_bias rng ;;
  model <- (if gpu then Module_cuda model else ret model) ;;
  st <- init_hidden model B ;;
  ret (model, x, st).

(** The smallest session: every size 1, the frame's only element 1. *)
Definition demo_setup (mode : string) (gpu : bool)
  : M (ConvLSTMCell * ref * (ref * ref)) :=
  session (1, 1) 1 1 (1, 1) mode false false zero_init gpu 1 (fun _ => 1%R).

(** What the smallest session leaves when it starts from the empty store:
    the frame at 0, the parameters at 1 to 23 in the order the constructor
    allocates them, the state at 24 and 25. *)
Definition demo_frame : ref := 0.
Definition demo_H : ref := 24.
Definition demo_C : ref := 25.

Definition demo_conv (w b : ref) : nn.Conv2d :=
  nn.mkConv2d 1 1 (1, 1) (1, 1) (0, 0) w (Some b).

Definition demo_cell (mode : string) : ConvLSTMCell :=
  {| gating_mode := mode; peephole := false; tied_bias := false;
     input_size := (1, 1); input_dim := 1; hidden_dim := 1;
     kernel_size := (1, 1); padding := (0, 0);
     Wxi := demo_conv 1 2; Whi := demo_conv 3 4;
     Wxf := demo_conv 5 6; Whf := demo_conv 7 8;
     Wxo := demo_conv 9 10; Who := demo_conv 11 12;
     Wxc := demo_conv 13 14; Whc := demo_conv 15 16;
     Wci := 17; Wcf := 18; Wco := 19;
     bi := 20; bf := 21; bc := 22; bo := 23 |}.

Definition demo_store (d : Device) : store :=
  let w := mkTensor [1; 1; 1; 1] d (fun _ => 0%R) true in
  let b := mkTensor [1] d (fun _ => 0%R) true in
  let p := mkTensor [1; 1; 1] d (fun _ => 1%R) true in
  let t := mkTensor [1; 1; 1] d (fun _ => 0%R) true in
  [mkTensor [1; 1; 1; 1] d (fun _ => 1%R) false;
   w; b; w; b; w; b; w; b; w; b; w; b; w; b; w; b;
   p; p; p; t; t; t; t;
   mkTensor [1; 1; 1; 1] d (fun _ => 0%R) false;
   mkTensor [1; 1; 1; 1] d (fun _ => 0%R) false].

(** The store and the state of the smallest session on the GPU. *)
Definition demo_gpu : store := demo_store (cuda 0).
Definition demo_state : ref * ref := (demo_H, demo_C).

(** The same cell with another gating-mode string. *)
Definition with_gating_mode (m : string) (c : ConvLSTMCell) : ConvLSTMCell :=
  {| gating_mode := m; peephole := peephole c; tied_bias := tied_bias c;
     input_size := input_size c; input_dim := input_dim c;
     hidden_dim := hidden_dim c; kernel_size := kernel_size c;
     padding := padding c;
     Wxi := Wxi c; Whi := Whi c; Wxf := Wxf c; Whf := Whf c;
     Wxo := Wxo c; Who := Who c; Wxc := Wxc c; Whc := Whc c;
     Wci := Wci c; Wcf := Wcf c; Wco := Wco c;
     bi := bi c; bf := bf c; bc := bc c; bo := bo c |}.

(** The same cell with another peephole flag. *)
Definition with_peephole (b : bool) (c : ConvLSTMCell) : ConvLSTMCell :=
  {| gating_mode := gating_mode c; peephole := b; tied_bias := tied_bias c;
     input_size := input_size c; input_dim := input_dim c;
     hidden_dim := hidden_dim c; kernel_size := kernel_size c;
     padding := padding c;
     Wxi := Wxi c; Whi := Whi c; Wxf := Wxf c; Whf := Whf c;
     Wxo := Wxo c; Who := Who c; Wxc := Wxc c; Whc := Whc c;
     Wci := Wci c; Wcf := Wcf c; Wco := Wco c;
     bi := bi c; bf := bf c; bc := bc c; bo := bo c |}.

(** Two convolutions with the same stride, padding, weight and bias. *)
Definition conv_same (s1 : store) (c1 : nn.Conv2d) (s2 : store) (c2 : nn.Conv2d) : Prop :=
  nn.stride c1 = nn.stride c2 /\ nn.padding c1 = nn.padding c2 /\
  val s1 (nn.weight c1) = val s2 (nn.weight c2) /\
  option_map (val s1) (nn.bias c1) = option_map (val s2) (nn.bias c2).

(** Two cells, each in its store, that agree on everything but the
    peephole flag (which the record below leaves out) and the peephole
    tensors (see [peepholes_one]). *)
Record same_but_peephole (s1 : store) (c1 : ConvLSTMCell)
       (s2 : store) (c2 : ConvLSTMCell) : Prop := mkSame {
  same_mode : gating_mode c1 = gating_mode c2;
  same_tied_bias : tied_bias c1 = tied_bias c2;
  same_input_size : input_size c1 = input_size c2;
  same_input_dim : input_dim c1 = input_dim c2;
  same_hidden_dim : hidden_dim c1 = hidden_dim c2;
  same_kernel_size : kernel_size c1 = kernel_size c2;
  same_Wxi : conv_same s1 (Wxi c1) s2 (Wxi c2);
  same_Whi : conv_same s1 (Whi c1) s2 (Whi c2);
  same_Wxf : conv_same s1 (Wxf c1) s2 (Wxf c2);
  same_Whf : conv_same s1 (Whf c1) s2 (Whf c2);
  same_Wxo : conv_same s1 (Wxo c1) s2 (Wxo c2);
  same_Who : conv_same s1 (Who c1) s2 (Who c2);
  same_Wxc : conv_same s1 (Wxc c1) s2 (Wxc c2);
  same_Whc : conv_same s1 (Whc c1) s2 (Whc c2);
  same_bi : val s1 (bi c1) = val s2 (bi c2);
  same_bf : val s1 (bf c1) = val s2 (bf c2);
  same_bc : val s1 (bc c1) = val s2 (bc c2);
  same_bo : val s1 (bo c1) = val s2 (bo c2)
}.

(** All three peephole tensors hold the constant 1. *)
Definition peepholes_one (s : store) (c : ConvLSTMCell) : Prop :=
  forall k y x, k < hidden_dim c -> y < fst (input_size c) -> x < snd (input_size c) ->
    Spec.peep s (Wci c) k y x = 1%R /\
    Spec.peep s (Wcf c) k y x = 1%R /\
    Spec.peep s (Wco c) k y x = 1%R.

(** The object at [r] is [v]. *)
Definition stored (s : store) (r : ref) (v : tensor) : Prop :=
  r < length s /\ val s r = v.

(** What the constructor leaves: a grown store and a cell with the given
    configuration, parameters of the shapes of [cell_ok] on the CPU,
    peephole tensors of ones and tied biases of zeros. *)
Definition init_post (s : store) (isz : nat * nat) (idim hdim : nat) (k : nat * nat)
           (mode : string) (peep tb : bool) (c : ConvLSTMCell) (s' : store) : Prop :=
  ext s s' /\ cell_ok s' c cpu /\
  gating_mode c = mode /\ peephole c = peep /\ tied_bias c = tb /\
  input_size c = isz /\ input_dim c = idim /\ hidden_dim c = hdim /\
  kernel_size c = k /\ padding c = (fst k / 2, snd k / 2) /\
  (forall ch y x,
      Spec.peep s' (Wci c) ch y x = 1%R /\
      Spec.peep s' (Wcf c) ch y x = 1%R /\
      Spec.peep s' (Wco c) ch y x = 1%R) /\
  (forall ch,
      Spec.tied s' (bi c) ch = 0%R /\ Spec.tied s' (bf c) ch = 0%R /\
      Spec.tied s' (bc c) ch = 0%R /\ Spec.tied s' (bo c) ch = 0%R).

(** What [Module.cuda] leaves of [s]: the objects at [rs] on device [d],
    everything else as it was. *)
Definition moved (d : Device) (rs : list ref) (s s' : store) : Prop :=
  length s' = length s /\
  (forall p, In p rs -> val s' p = Torch.to d (val s p)) /\
  (forall p, ~ In p rs -> val s' p = val s p).

(** What [session] leaves: a cell, a frame and a state that meet the
    contract of [forward] on device [d]. *)
Definition ready (isz : nat * nat) (idim hdim : nat) (k : nat * nat) (mode : string)
           (peep : bool) (B : nat) (d : Device)
           (r : ConvLSTMCell * ref * (ref * ref)) (s' : store) : Prop :=
  let '(model, x, st) := r in
  cell_ok s' model d /\ frame_ok s' model B d x /\ state_ok s' model B d st /\
  gating_mode model = mode /\ peephole model = peep /\
  input_size model = isz /\ input_dim model = idim /\ hidden_dim model = hdim /\
  kernel_size model = k /\ peepholes_one s' model.

(** The eight convolutions of a cell. *)
Definition convolutions (c : ConvLSTMCell) : list nn.Conv2d :=
  [Wxi c; Whi c; Wxf c; Whf c; Wxo c; Who c; Wxc c; Whc c].

(** A cell whose biases are all zero: the tied biases, as the constructor
    leaves them, and the bias of every convolution that has one. *)
Definition zero_biases (s : store) (self : ConvLSTMCell) : Prop :=
  (forall cv b c, In cv (convolutions self) -> nn.bias cv = Some b ->
                  c < hidden_dim self -> data (val s b) [c] = 0%R) /\
  (forall c, c < hidden_dim self ->
             Spec.tied s (bi self) c = 0%R /\ Spec.tied s (bf self) c = 0%R /\
             Spec.tied s (bc self) c = 0%R /\ Spec.tied s (bo self) c = 0%R).

(** The elements of a 4-D tensor of zeros. *)
Definition zero4 : nat -> nat -> nat -> nat -> R := fun _ _ _ _ => 0%R.

(** The smallest cell on the GPU with a frame of zeros at 26. *)
Definition demo_rest : store := demo_gpu ++ [Torch.full [1; 1; 1; 1] (cuda 0) 0%R].
Definition demo_zero_frame : ref := 26.

(** ** Further definitions for the properties beyond the claims *)

(** The number of elements of a tensor, and of a list of tensors. *)
Definition numel (t : tensor) : nat := fold_right Nat.mul 1 (shape t).
Definition total_numel (l : list tensor) : nat :=
  fold_right (fun t acc => numel t + acc) 0 l.

(** Two sizes of one dimension that do not broadcast: different, and
    neither of them 1. *)
Definition clash (a b : nat) : Prop := a <> b /\ a <> 1 /\ b <> 1.

(** [y'] lies in the window of half-width [p] around [y]. *)
Definition near (p y y' : nat) : Prop := y <= y' + p /\ y' <= y + p.

(** The cell run over a sequence of frames: each call of [forward] starts
    from the state the call before returned. *)
Fixpoint forward_steps (self : ConvLSTMCell) (frames : list ref) (state : ref * ref)
  : M (ref * ref) :=
  match frames with
  | [] => ret state
  | Xt :: rest => state' <- forward self Xt state ;; forward_steps self rest state'
  end.

(** Every element of the cell state at [r] is at most [m] in size. *)
Definition cell_within (s : store) (self : ConvLSTMCell) (B : nat) (r : ref) (m : R)
  : Prop :=
  forall n c y x, n < B -> c < hidden_dim self ->
    y < fst (input_size self) -> x < snd (input_size self) ->
    (Rabs (data (val s r) [n; c; y; x]) <= m)%R.

(** The smallest cell on the GPU with more objects in the store: a frame
    with two channels, a frame on the CPU, and a frame and a state for
    batch sizes 2 and 3. *)
Definition demo_more : store :=
  demo_gpu ++
  [Torch.full [1; 2; 1; 1] (cuda 0) 1%R;     (* 26: two channels *)
   Torch.full [1; 1; 1; 1] cpu 1%R;          (* 27: on the CPU *)
   Torch.full [2; 1; 1; 1] (cuda 0) 1%R;     (* 28: a frame, batch size 2 *)
   Torch.full [2; 1; 1; 1] (cuda 0) 0%R;     (* 29, 30: a state, batch size 2 *)
   Torch.full [2; 1; 1; 1] (cuda 0) 0%R;
   Torch.full [3; 1; 1; 1] (cuda 0) 0%R;     (* 31, 32: a state, batch size 3 *)
   Torch.full [3; 1; 1; 1] (cuda 0) 0%R].

(** A cell with a 1x3 image and 1x1 kernels (weights 0, as in the smallest
    cell), with its state at 24 and 25, a frame of ones at 0 and, at 26, a
    frame that differs from it in the last column only. *)
Definition wide_cell : ConvLSTMCell :=
  {| gating_mode := "mul"; peephole := false; tied_bias := false;
     input_size := (1, 3); input_dim := 1; hidden_dim := 1;
     kernel_size := (1, 1); padding := (0, 0);
     Wxi := demo_conv 1 2; Whi := demo_conv 3 4;
     Wxf := demo_conv 5 6; Whf := demo_conv 7 8;
     Wxo := demo_conv 9 10; Who := demo_conv 11 12;
     Wxc := demo_conv 13 14; Whc := demo_conv 15 16;
     Wci := 17; Wcf := 18; Wco := 19;
     bi := 20; bf := 21; bc := 22; bo := 23 |}.

Definition wide_store : store :=
  let w := mkTensor [1; 1; 1; 1] (cuda 0) (fun _ => 0%R) true in
  let b := mkTensor [1] (cuda 0) (fun _ => 0%R) true in
  let p := mkTensor [1; 1; 3] (cuda 0) (fun _ => 1%R) true in
  let t := mkTensor [1; 1; 1] (cuda 0) (fun _ => 0%R) true in
  [mkTensor [1; 1; 1; 3] (cuda 0) (fun _ => 1%R) false;
   w; b; w; b; w; b; w; b; w; b; w; b; w; b; w; b;
   p; p; p; t; t; t; t;
   mkTensor [1; 1; 1; 3] (cuda 0) (fun _ => 0%R) false;
   mkTensor [1; 1; 1; 3] (cuda 0) (fun _ => 0%R) false;
   mkTensor [1; 1; 1; 3] (cuda 0)
            (fun idx => match idx with [_; _; _; 2] => 5%R | _ => 1%R end) false].

(** * KITTI preprocessing (pytorch_prednet/process_kitti.py)

    The script reads a directory tree, loads every image of every
    recording, resizes and crops it and writes one array and one list of
    sources for each split.  The file system, [imageio.imread] and
    [cv2.resize] are parameters of the model ([Env]); the arithmetic, the
    slicing, the loops and the exception handling are the script's. *)

Module Kitti.

(** The exceptions that matter to the script: the two it catches, the one
    its own arithmetic can raise, and whatever else a library raises. *)
Inductive pyexn : Type :=
| IndexError
| ValueError
| ZeroDivisionError
| LibraryError (name : string).

Inductive outcome (A : Type) : Type :=
| Returned (a : A)
| Raised (e : pyexn).

Arguments Returned {A} a.
Arguments Raised {A} e.

(** An image as [imread] returns it: an array of shape (rows, cols) or
    (rows, cols, channels).  Pixel values are integers; their cast to
    [uint8] on assignment is not modelled. *)
Record image : Type := mkImage {
  rows : nat;
  cols : nat;
  channels : option nat;
  px : nat -> nat -> nat -> Z
}.

Definition im_shape (im : image) : list nat :=
  rows im :: cols im :: match channels im with Some c => [c] | None => [] end.

(** What the script takes from its surroundings. *)
Record Env : Type := mkEnv {
  (** [kitti_settings.DATA_DIR]. *)
  DATA_DIR : string;
  (** [list(os.walk(dir, topdown=False))[-1]]: the names of the
      sub-directories and of the files of [dir], which the bottom-up walk
      yields last; [None] when the walk yields nothing (no such directory),
      where the index [-1] raises IndexError. *)
  walk_last : string -> option (list string * list string);
  (** [imageio.imread]. *)
  imread : string -> outcome image;
  (** [cv2.resize(im, (width, height))]. *)
  cv2_resize : image -> Z * nat -> outcome image
}.

(** [cv2.resize] returns an image of the size it is asked for. *)
Definition resize_ok (env : Env) : Prop :=
  forall im w h,
    1 <= rows im -> 1 <= cols im -> (1 <= w)%Z -> 1 <= h ->
    exists im', cv2_resize env im (w, h) = Returned im' /\
                rows im' = h /\ Z.of_nat (cols im') = w.

(** ** Module constants *)

Definition desired_im_sz : nat * nat := (128, 160).
Definition categories : list string := ["city"; "residential"; "road"]%string.

Definition recording : Type := (string * string)%type.

Definition val_recordings : list recording :=
  [("city", "2011_09_26_drive_0005_sync")]%string.
Definition test_recordings : list recording :=
  [("city", "2011_09_26_drive_0104_sync");
   ("residential", "2011_09_26_drive_0079_sync");
   ("road", "2011_09_26_drive_0070_sync")]%string.

(** ** Python and numpy operations the script uses *)

(** [os.path.join] (POSIX). *)
Definition ends_with_slash (s : string) : bool :=
  match String.get (String.length s - 1) s with
  | Some c => Ascii.eqb c "/"
  | None => false
  end.

Definition join2 (path b : string) : string :=
  if String.prefix "/" b then b
  else if (String.eqb path "" || ends_with_slash path)%bool then (path ++ b)%string
  else (path ++ "/" ++ b)%string.

Definition path_join (a : string) (p : list string) : string := fold_left join2 p a.

(** [(c, f) in l] for a list of pairs of strings. *)
Definition rec_eqb (a b : recording) : bool :=
  (String.eqb (fst a) (fst b) && String.eqb (snd a) (snd b))%bool.
Definition rec_in (r : recording) (l : list recording) : bool := existsb (rec_eqb r) l.

(** [sorted] on strings. *)
Fixpoint insert_sorted (x : string) (l : list string) : list string :=
  match l with
  | [] => [x]
  | y :: l' => if String.leb x y then x :: l else y :: insert_sorted x l'
  end.
Definition sorted (l : list string) : list string := fold_right insert_sorted [] l.

(** Integers as floats, and [int(np.round(x))]: round half to even. *)
Definition float_of_nat (n : nat) : PrimFloat.float :=
  PrimFloat.of_uint63 (Uint63.of_Z (Z.of_nat n)).

Definition int_round (x : PrimFloat.float) : option Z :=
  match FloatOps.Prim2SF x with
  | SpecFloat.S754_zero _ => Some 0%Z
  | SpecFloat.S754_finite sgn m e =>
      let mag :=
        if (0 <=? e)%Z then (Z.pos m * 2 ^ e)%Z
        else
          let k := (- e)%Z in
          let q := (Z.pos m / 2 ^ k)%Z in
          let r := (Z.pos m mod 2 ^ k)%Z in
          let half := (2 ^ (k - 1))%Z in
          if ((half <? r)%Z || ((r =? half)%Z && Z.odd q))%bool then (q + 1)%Z else q in
      Some (if sgn then (- mag)%Z else mag)
  | _ => None
  end.

(** The bounds of a slice [a[start:stop]] of an axis of length [len]. *)
Definition slice_bound (len i : Z) : Z :=
  if (i <? 0)%Z then Z.max (i + len) 0 else Z.min i len.

(** [im[:, start:stop]]. *)
Definition slice_cols (im : image) (start stop : Z) : image :=
  let len := Z.of_nat (cols im) in
  let a := slice_bound len start in
  let b := slice_bound len stop in
  {| rows := rows im;
     cols := Z.to_nat (b - a);
     channels := channels im;
     px := fun y x c => px im y (Z.to_nat a + x) c |}.

(** ** process_im *)

Definition process_im (env : Env) (im : image) (desired_sz : nat * nat)
  : outcome image :=
  (* target_ds = float(desired_sz[0])/im.shape[0] *)
  if rows im =? 0 then Raised ZeroDivisionError
  else
    let target_ds := PrimFloat.div (float_of_nat (fst desired_sz))
                                   (float_of_nat (rows im)) in
    (* im = cv2.resize(im, (int(np.round(target_ds * im.shape[1])), desired_sz[0])) *)
    match int_round (PrimFloat.mul target_ds (float_of_nat (cols im))) with
    | None => Raised (LibraryError "OverflowError")
    | Some w =>
        match cv2_resize env im (w, fst desired_sz) with
        | Raised e => Raised e
        | Returned im1 =>
            (* d = int((im.shape[1] - desired_sz[1]) / 2) *)
            let d := Z.quot (Z.of_nat (cols im1) - Z.of_nat (snd desired_sz)) 2 in
            (* im = im[:, d:d+desired_sz[1]] *)
            Returned (slice_cols im1 d (d + Z.of_nat (snd desired_sz)))
        end
    end.

(** The width [process_im] asks [cv2.resize] for. *)
Definition scaled_width (im : image) (desired_sz : nat * nat) : option Z :=
  int_round (PrimFloat.mul (PrimFloat.div (float_of_nat (fst desired_sz))
                                          (float_of_nat (rows im)))
                           (float_of_nat (cols im))).

(** ** process_data *)

(** The first loop: the recordings on disk that are neither validation nor
    test recordings are training recordings. *)
Fixpoint assign_train (env : Env) (not_train : list recording) (cs : list string)
         (train : list recording) : outcome (list recording) :=
  match cs with
  | [] => Returned train
  | c :: cs' =>
      let c_dir := path_join (DATA_DIR env) ["raw"; c ++ "/"]%string in
      match walk_last env c_dir with
      | None => Raised IndexError
      | Some (folders, _) =>
          assign_train env not_train cs'
            (train ++ map (pair c)
                          (filter (fun f => negb (rec_in (c, f) not_train)) folders))
      end
  end.

Definition im_dir_of (env : Env) (r : recording) : string :=
  let '(category, folder) := r in
  path_join (DATA_DIR env)
            ["raw/"; category; folder; String.substring 0 10 folder; folder;
             "image_03/data/"]%string.

Definition source_of (r : recording) : string :=
  let '(category, folder) := r in (category ++ "-" ++ folder)%string.

(** The loop over the recordings of a split: the image files and, for each
    of them, the recording it came from.  A recording whose image directory
    is missing is skipped ([except IndexError]). *)
Fixpoint list_images (env : Env) (recs : list recording)
         (im_list source_list : list string) : list string * list string :=
  match recs with
  | [] => (im_list, source_list)
  | r :: recs' =>
      let im_dir := im_dir_of env r in
      match walk_last env im_dir with
      | None => list_images env recs' im_list source_list
      | Some (_, files) =>
          list_images env recs'
            (im_list ++ map (String.append im_dir) (sorted files))
            (source_list ++ repeat (source_of r) (length files))
      end
  end.

(** [X[i] = v] for a row of shape [dst]: [v] is broadcast to the row, or
    ValueError is raised when its shape does not broadcast. *)
Fixpoint broadcastable_rev (src dst : list nat) : bool :=
  match src, dst with
  | [], _ => true
  | _ :: _, [] => false
  | a :: src', b :: dst' => ((a =? b) || (a =? 1)) && broadcastable_rev src' dst'
  end.

Definition broadcastable (src dst : list nat) : bool :=
  broadcastable_rev (rev src) (rev dst).

Definition row_shape : list nat := [fst desired_im_sz; snd desired_im_sz; 3].

Definition sel (d i : nat) : nat := if d =? 1 then 0 else i.

Definition as_row (v : image) : option image :=
  if broadcastable (im_shape v) row_shape
  then Some {| rows := fst desired_im_sz; cols := snd desired_im_sz; channels := Some 3;
               px := match channels v with
                     | Some ch => fun y x c => px v (sel (rows v) y) (sel (cols v) x) (sel ch c)
                     | None => fun y x c => px v (sel (rows v) x) (sel (cols v) c) 0
                     end |}
  else None.

Definition zero_row : image :=
  {| rows := fst desired_im_sz; cols := snd desired_im_sz; channels := Some 3;
     px := fun _ _ _ => 0%Z |}.

Fixpoint set_nth (A : Type) (i : nat) (x : A) (l : list A) : list A :=
  match l, i with
  | [], _ => []
  | _ :: l', 0 => x :: l'
  | y :: l', S i' => y :: set_nth i' x l'
  end.

(** The loop over the image files: [X[i]] is filled and [i] recorded for
    every file that loads and fits; a ValueError skips the file, any other
    exception ends the script. *)
Fixpoint fill (env : Env) (i : nat) (files : list string) (X : list image)
         (indices : list nat) : outcome (list image * list nat) :=
  match files with
  | [] => Returned (X, indices)
  | im_file :: files' =>
      match imread env im_file with
      | Raised ValueError => fill env (S i) files' X indices
      | Raised e => Raised e
      | Returned im =>
          match process_im env im desired_im_sz with
          | Raised ValueError => fill env (S i) files' X indices
          | Raised e => Raised e
          | Returned v =>
              match as_row v with
              | None => fill env (S i) files' X indices
              | Some row => fill env (S i) files' (set_nth i row X) (indices ++ [i])
              end
          end
      end
  end.

(** What the body of the loop over the splits computes for one split: the
    array and the two lists, after the selection by [indices]. *)
Definition collect (env : Env) (recs : list recording)
  : outcome (list image * list string * list string) :=
  let '(im_list, source_list) := list_images env recs [] [] in
  match fill env 0 im_list (repeat zero_row (length im_list)) [] with
  | Raised e => Raised e
  | Returned (X, indices) =>
      Returned (map (fun i => nth i X zero_row) indices,
                map (fun i => nth i im_list ""%string) indices,
                map (fun i => nth i source_list ""%string) indices)
  end.

(** A call of [hkl.dump]. *)
Inductive dump : Type :=
| dump_array (X : list image) (path : string)
| dump_sources (sources : list string) (path : string).

Fixpoint dump_splits (env : Env) (splits : list (string * list recording))
  : list dump * option pyexn :=
  match splits with
  | [] => ([], None)
  | (split, recs) :: rest =>
      match collect env recs with
      | Raised e => ([], Some e)
      | Returned (X, _, source_list) =>
          let '(dumps, e) := dump_splits env rest in
          (dump_array X (path_join (DATA_DIR env) ["X_" ++ split ++ ".hkl"]%string)
           :: dump_sources source_list
                (path_join (DATA_DIR env) ["sources_" ++ split ++ ".hkl"]%string)
           :: dumps, e)
      end
  end.

(** The files written, in order, and the exception that ended the script,
    if one did. *)
Definition process_data (env : Env) : list dump * option pyexn :=
  let not_train := (val_recordings ++ test_recordings)%list in
  match assign_train env not_train categories [] with
  | Raised e => ([], Some e)
  | Returned train =>
      dump_splits env [("train", train); ("test", test_recordings);
                       ("val", val_recordings)]%string
  end.

(** The directory of a category, as the first loop of [process_data] builds it. *)
Definition category_dir (env : Env) (c : string) : string :=
  path_join (DATA_DIR env) ["raw"; c ++ "/"]%string.

(** [file] lies in the image directory of a recording of [recs] and
    [source] is the label of that recording. *)
Definition from_recording (env : Env) (recs : list recording) (file source : string)
  : Prop :=
  exists r, In r recs /\ source = source_of r /\
            String.prefix (im_dir_of env r) file = true.

(** [file] loads, is processed and fits a row of the array, and [row] is
    what the array then holds. *)
Definition row_of (env : Env) (file : string) (row : image) : Prop :=
  exists im v, imread env file = Returned im /\
               process_im env im desired_im_sz = Returned v /\
               as_row v = Some row.

(** The invariant of the second loop, at index [i] of the files [all]:
    every recorded index is below [i] and the array holds the row of its
    file. *)
Definition filled (env : Env) (all : list string) (i : nat) (X : list image)
           (indices : list nat) : Prop :=
  length X = length all /\
  Forall (fun j => j < i /\ row_of env (nth j all ""%string) (nth j X zero_row)) indices.

(** The two files written for a split. *)
Definition split_files (env : Env) (w : string * (list image * list string))
  : list dump :=
  let '(split, (X, sources)) := w in
  [dump_array X (path_join (DATA_DIR env) ["X_" ++ split ++ ".hkl"]%string);
   dump_sources sources (path_join (DATA_DIR env) ["sources_" ++ split ++ ".hkl"]%string)].

(** ** A small data directory, for concrete runs

    One recording on disk besides the validation recording of the script,
    with two image files; every file loads as a grey 375 x 1242 x 3 image
    (the size of a KITTI frame); resizing takes the nearest pixel. *)

Definition demo_resize (im : image) (size : Z * nat) : outcome image :=
  let '(w, h) := size in
  if ((1 <=? w)%Z && (1 <=? h) && (1 <=? rows im) && (1 <=? cols im))%bool
  then Returned {| rows := h; cols := Z.to_nat w; channels := channels im;
                   px := fun y x c =>
                           px im (y * rows im / h) (x * cols im / Z.to_nat w) c |}
  else Raised (LibraryError "cv2.error").

Definition demo_image (r c : nat) : image :=
  {| rows := r; cols := c; channels := Some 3; px := fun _ _ _ => 128%Z |}.

Definition demo_recording : recording := ("city", "2011_09_26_drive_0001_sync")%string.

Definition demo_env : Env :=
  {| DATA_DIR := "data";
     walk_last := fun dir =>
       if String.eqb dir "data/raw/city/"
       then Some (["2011_09_26_drive_0005_sync"; "2011_09_26_drive_0001_sync"], [])%string
       else if String.eqb dir "data/raw/residential/" then Some ([], [])
       else if String.eqb dir "data/raw/road/" then Some ([], [])
       else if String.eqb dir
            "data/raw/city/2011_09_26_drive_0001_sync/2011_09_26/2011_09_26_drive_0001_sync/image_03/data/"
       then Some ([], ["0000000001.png"; "0000000000.png"])%string
       else None;
     imread := fun _ => Returned (demo_image 375 1242);
     cv2_resize := demo_resize |}.

(** A data directory that does not exist. *)
Definition empty_env : Env :=
  {| DATA_DIR := "data"; walk_last := fun _ => None;
     imread := fun _ => Raised (LibraryError "FileNotFoundError");
     cv2_resize := demo_resize |}.

End Kitti.

(** * Proofs *)

(** ** The store *)

Lemma ext_refl (s : store) : ext s s.
Proof. exists []. now rewrite app_nil_r. Qed.

Lemma ext_trans (s1 s2 s3 : store) : ext s1 s2 -> ext s2 s3 -> ext s1 s3.
Proof. intros [l1 ->] [l2 ->]. exists (l1 ++ l2). now rewrite app_assoc. Qed.

Lemma ext_app (s l : store) : ext s (s ++ l).
Proof. now exists l. Qed.

Lemma ext_length (s s' : store) : ext s s' -> length s <= length s'.
Proof. intros [l ->]. rewrite length_app. lia. Qed.

Lemma val_ext (s s' : store) (r : ref) : ext s s' -> r < length s -> val s' r = val s r.
Proof. intros [l ->] Hr. unfold val. now apply app_nth1. Qed.

Lemma val_new (s : store) (v : tensor) : val (s ++ [v]) (length s) = v.
Proof. unfold val. rewrite app_nth2, Nat.sub_diag by lia. reflexivity. Qed.

Lemma nth_error_val (s : store) (r : ref) : r < length s -> nth_error s r = Some (val s r).
Proof. intros Hr. unfold val. now apply nth_error_nth'. Qed.

Lemma tens_ext (s s' : store) (r : ref) (sh : list nat) (d : Device) :
  ext s s' -> tens s r sh d -> tens s' r sh d.
Proof.
  intros He (Hr & Hs & Hd). pose proof (ext_length He).
  unfold tens. rewrite (val_ext He Hr). repeat split; auto; lia.
Qed.

Lemma holds4_ext (s s' : store) (r : ref) B C H W d g :
  ext s s' -> holds4 s r B C H W d g -> holds4 s' r B C H W d g.
Proof.
  intros He [Ht Hg]. split; [now apply (tens_ext He)|].
  destruct Ht as (Hr & _). rewrite (val_ext He Hr). exact Hg.
Qed.

Lemma tens_new (s : store) (v : tensor) :
  tens (s ++ [v]) (length s) (shape v) (device v).
Proof.
  unfold tens. rewrite val_new, length_app. simpl. repeat split; lia.
Qed.

Lemma length_snoc (s : store) (v : tensor) : length (s ++ [v]) = S (length s).
Proof. rewrite length_app. simpl. lia. Qed.

Lemma val_old (s : store) (v : tensor) (r : ref) : r < length s -> val (s ++ [v]) r = val s r.
Proof. intros H. apply val_ext; [apply ext_app | exact H]. Qed.

Lemma val_new2 (s : store) (z1 z2 : tensor) :
  val (s ++ [z1; z2]) (length s) = z1 /\ val (s ++ [z1; z2]) (S (length s)) = z2.
Proof.
  split.
  - rewrite (@val_ext (s ++ [z1]) (s ++ [z1; z2]) (length s)).
    + apply val_new.
    + exists [z2]. now rewrite <- app_assoc.
    + rewrite length_snoc. lia.
  - replace (s ++ [z1; z2]) with ((s ++ [z1]) ++ [z2]) by now rewrite <- app_assoc.
    rewrite <- (length_snoc s z1). apply val_new.
Qed.

Lemma conv_ok_ext (s s' : store) (cv : nn.Conv2d) (cin cout : nat) (k : nat * nat)
      (d : Device) :
  ext s s' -> conv_ok s cv cin cout k d -> conv_ok s' cv cin cout k d.
Proof.
  intros He (Hst & Hp & Hw & Hb).
  split; [exact Hst|]. split; [exact Hp|]. split; [exact (tens_ext He Hw)|].
  destruct (nn.bias cv); [exact (tens_ext He Hb) | exact I].
Qed.

Lemma cell_ok_ext (s s' : store) (self : ConvLSTMCell) (d : Device) :
  ext s s' -> cell_ok s self d -> cell_ok s' self d.
Proof.
  intros He [].
  constructor; first [ now apply (conv_ok_ext He) | now apply (tens_ext He) ].
Qed.

Lemma stored_ext (s s' : store) (r : ref) (v : tensor) :
  ext s s' -> stored s r v -> stored s' r v.
Proof.
  intros He [Hr Hv]. pose proof (ext_length He). split; [lia|].
  now rewrite (val_ext He Hr).
Qed.

Lemma stored_new (s : store) (v : tensor) : stored (s ++ [v]) (length s) v.
Proof. split; [rewrite length_snoc; lia | apply val_new]. Qed.

Lemma stored_tens (s : store) (r : ref) (v : tensor) :
  stored s r v -> tens s r (shape v) (device v).
Proof. intros [Hr Hv]. unfold tens. now rewrite Hv. Qed.

Lemma update_length (s : store) (r : ref) (v : tensor) :
  length (update s r v) = length s.
Proof.
  revert r. induction s as [|x s IH]; intros r; [reflexivity|].
  destruct r; simpl; [reflexivity | now rewrite IH].
Qed.

Lemma val_update_same (s : store) (r : ref) (v : tensor) :
  r < length s -> val (update s r v) r = v.
Proof.
  revert r. induction s as [|x s IH]; intros r Hr; [simpl in Hr; lia|].
  destruct r; [reflexivity|]. simpl in *. apply IH. lia.
Qed.

Lemma val_update_other (s : store) (r p : ref) (v : tensor) :
  p <> r -> val (update s r v) p = val s p.
Proof.
  revert r p. induction s as [|x s IH]; intros r p Hp; [reflexivity|].
  destruct r, p; try reflexivity; try congruence.
  simpl. apply IH. congruence.
Qed.

(** ** Running a computation

    Weakest preconditions of the monad and of the primitive steps, for
    runs that return; inversion, for what a returned run did; and the
    propagation of an exception. *)

Lemma wp_ret (A : Type) (a : A) (s : store) (Q : A -> store -> Prop) :
  Q a s -> wp (ret a) s Q.
Proof. intros HQ. now exists a, s. Qed.

Lemma wp_bind (A B : Type) (m : M A) (k : A -> M B) (s : store) (Q : B -> store -> Prop) :
  wp m s (fun a s' => wp (k a) s' Q) -> wp (bind m k) s Q.
Proof.
  intros (a & s1 & Hm & b & s2 & Hk & HQ).
  exists b, s2. unfold bind. now rewrite Hm.
Qed.

Lemma wp_conseq (A : Type) (m : M A) (s : store) (Q Q' : A -> store -> Prop) :
  wp m s Q -> (forall a s', Q a s' -> Q' a s') -> wp m s Q'.
Proof. intros (a & s' & Hm & HQ) Himp. exists a, s'. auto. Qed.

Lemma wp_alloc (v : tensor) (s : store) (Q : ref -> store -> Prop) :
  Q (length s) (s ++ [v]) -> wp (alloc v) s Q.
Proof. intros HQ. now exists (length s), (s ++ [v]). Qed.

Lemma wp_read (r : ref) (s : store) (Q : tensor -> store -> Prop) :
  r < length s -> Q (val s r) s -> wp (read r) s Q.
Proof.
  intros Hr HQ. exists (val s r), s. split; [|exact HQ].
  unfold read. now rewrite (nth_error_val s Hr).
Qed.

Lemma wp_raise_or (A : Type) (r : result A) (a : A) (s : store) (Q : A -> store -> Prop) :
  r = Ok a -> Q a s -> wp (raise_or r) s Q.
Proof. intros -> HQ. now exists a, s. Qed.

Lemma wp_lift2 (op : tensor -> tensor -> result tensor) (a b : ref) (v : tensor)
      (s : store) (Q : ref -> store -> Prop) :
  a < length s -> b < length s -> op (val s a) (val s b) = Ok v ->
  Q (length s) (s ++ [v]) -> wp (lift2 op a b) s Q.
Proof.
  intros Ha Hb Hop HQ. unfold lift2.
  apply wp_bind, wp_read; [exact Ha|].
  apply wp_bind, wp_read; [exact Hb|].
  apply wp_bind. eapply wp_raise_or; [exact Hop|].
  now apply wp_alloc.
Qed.

Lemma wp_lift1 (op : tensor -> tensor) (a : ref) (s : store) (Q : ref -> store -> Prop) :
  a < length s -> Q (length s) (s ++ [op (val s a)]) -> wp (lift1 op a) s Q.
Proof.
  intros Ha HQ. unfold lift1.
  apply wp_bind, wp_read; [exact Ha|]. now apply wp_alloc.
Qed.

Lemma wp_cuda_copy (a : ref) (s : store) (Q : ref -> store -> Prop) :
  a < length s -> device (val s a) = cpu ->
  Q (length s) (s ++ [Torch.to (cuda 0) (val s a)]) -> wp (tensor_cuda a) s Q.
Proof.
  intros Ha Hd HQ. unfold tensor_cuda.
  apply wp_bind, wp_read; [exact Ha|]. rewrite Hd. simpl.
  now apply wp_alloc.
Qed.

Lemma bind_fails (A B : Type) (m : M A) (k : A -> M B) (s : store)
      (Q : A -> store -> Prop) (e : exn) :
  wp m s Q -> (forall a s', Q a s' -> k a s' = Err e) -> bind m k s = Err e.
Proof.
  intros (a & s' & Hm & HQ) Hk. unfold bind. rewrite Hm. now apply Hk.
Qed.

Lemma run_alloc (v : tensor) (s : store) :
  wp (alloc v) s (fun r s' => r = length s /\ s' = s ++ [v]).
Proof. apply wp_alloc. auto. Qed.

Lemma run_cuda_copy (a : ref) (s : store) :
  a < length s -> device (val s a) = cpu ->
  wp (tensor_cuda a) s
     (fun r s' => r = length s /\ s' = s ++ [Torch.to (cuda 0) (val s a)]).
Proof. intros Ha Hd. apply wp_cuda_copy; auto. Qed.

Lemma run_lift1 (op : tensor -> tensor) (a : ref) (s : store) :
  a < length s ->
  wp (lift1 op a) s (fun r s' => r = length s /\ s' = s ++ [op (val s a)]).
Proof. intros Ha. apply wp_lift1; auto. Qed.

Lemma bind_inv (A B : Type) (m : M A) (k : A -> M B) (s : store) (b : B) (s2 : store) :
  bind m k s = Ok (b, s2) ->
  exists a s1, m s = Ok (a, s1) /\ k a s1 = Ok (b, s2).
Proof.
  unfold bind. destruct (m s) as [[a s1]|e]; [|discriminate].
  intros H. now exists a, s1.
Qed.

Lemma read_inv (r : ref) (s : store) (v : tensor) (s' : store) :
  read r s = Ok (v, s') -> s' = s /\ r < length s /\ v = val s r.
Proof.
  unfold read. destruct (nth_error s r) as [x|] eqn:E; [|discriminate].
  intros H. injection H as <- <-.
  assert (Hr : r < length s) by (apply nth_error_Some; congruence).
  rewrite (nth_error_val s Hr) in E. injection E as <-. auto.
Qed.

Lemma raise_or_inv (A : Type) (r : result A) (s : store) (a : A) (s' : store) :
  raise_or r s = Ok (a, s') -> s' = s /\ r = Ok a.
Proof. unfold raise_or. destruct r; [|discriminate]. intros H. now injection H as <- <-. Qed.

(** ** Arithmetic of odd kernels *)

Lemma odd_half (k : nat) : Nat.odd k = true -> k = 2 * (k / 2) + 1.
Proof.
  intros H. apply Nat.odd_spec in H. destruct H as [m ->].
  replace ((2 * m + 1) / 2) with m; [reflexivity|].
  apply (Nat.div_unique (2 * m + 1) 2 m 1); lia.
Qed.

Lemma same_padding (h k : nat) :
  Nat.odd k = true -> 1 <= h ->
  (h + 2 * (k / 2) <? k) = false /\ (h + 2 * (k / 2) - k) / 1 + 1 = h.
Proof.
  intros Hk Hh. pose proof (odd_half k Hk) as E.
  split; [apply Nat.ltb_ge; lia | rewrite Nat.div_1_r; lia].
Qed.

Lemma conv_side_even (h k : nat) : Nat.even k = true -> conv_side h k = S h.
Proof.
  intros Hk. apply Nat.even_spec in Hk. destruct Hk as [m ->].
  unfold conv_side. rewrite Nat.div_1_r.
  replace (2 * m / 2) with m by (apply (Nat.div_unique (2 * m) 2 m 0); lia).
  lia.
Qed.

Lemma padded_fits (h k : nat) : 1 <= h -> (h + 2 * (k / 2) <? k) = false.
Proof.
  intros Hh. apply Nat.ltb_ge.
  pose proof (Nat.div_mod_eq k 2). pose proof (Nat.mod_upper_bound k 2). lia.
Qed.

(** ** Broadcasting and devices *)

Lemma sel_in (d i : nat) : i < d -> (if d =? 1 then 0 else i) = i.
Proof. intros H. destruct (d =? 1) eqn:E; [apply Nat.eqb_eq in E; lia | reflexivity]. Qed.

Lemma broadcast_dim_same (a : nat) : Torch.broadcast_dim a a = Ok a.
Proof. unfold Torch.broadcast_dim. now rewrite Nat.eqb_refl. Qed.

Lemma broadcast_dim_one (a : nat) : Torch.broadcast_dim a 1 = Ok a.
Proof.
  unfold Torch.broadcast_dim. destruct (a =? 1) eqn:E; [|reflexivity].
  apply Nat.eqb_eq in E. now subst.
Qed.

Lemma expand_rev_id (s idx : list nat) :
  Forall2 lt idx s -> Torch.expand_rev s idx = idx.
Proof.
  induction 1 as [|i d idx s Hi _ IH]; simpl; [reflexivity|].
  now rewrite IH, (sel_in Hi).
Qed.

Lemma Forall2_rev_lt (l l' : list nat) : Forall2 lt l l' -> Forall2 lt (rev l) (rev l').
Proof.
  induction 1; simpl; [constructor|]. apply Forall2_app; auto.
Qed.

Lemma bidx_same (s idx : list nat) : in_shape s idx -> Torch.bidx s idx = idx.
Proof.
  intros H. unfold Torch.bidx.
  rewrite (expand_rev_id (Forall2_rev_lt H)). apply rev_involutive.
Qed.

Lemma bidx_scalar (idx : list nat) : Torch.bidx [] idx = [].
Proof. reflexivity. Qed.

Lemma broadcast_rev_same (s : list nat) : Torch.broadcast_rev s s = Ok s.
Proof.
  induction s as [|d s IH]; simpl; [reflexivity|].
  now rewrite broadcast_dim_same, IH.
Qed.

Lemma broadcast_shapes_same (s : list nat) : Torch.broadcast_shapes s s = Ok s.
Proof.
  unfold Torch.broadcast_shapes. now rewrite broadcast_rev_same, rev_involutive.
Qed.

Lemma broadcast_rev_nil (s : list nat) : Torch.broadcast_rev s [] = Ok s.
Proof. now destruct s. Qed.

Lemma broadcast_shapes_scalar (s : list nat) : Torch.broadcast_shapes s [] = Ok s.
Proof.
  unfold Torch.broadcast_shapes. simpl.
  now rewrite broadcast_rev_nil, rev_involutive.
Qed.

Lemma common_device_same (a b : tensor) (d : Device) :
  device a = d -> device b = d -> Torch.common_device a b = Ok d.
Proof.
  intros Ha Hb. unfold Torch.common_device. rewrite Ha, Hb.
  destruct d; [reflexivity|]. now rewrite Nat.eqb_refl.
Qed.

Lemma common_device_cpu_scalar (a b : tensor) (j : nat) :
  device a = cpu -> shape a = [] -> device b = cuda j ->
  Torch.common_device a b = Ok (cuda j).
Proof.
  intros Ha Hs Hb. unfold Torch.common_device, Torch.is_scalar.
  now rewrite Ha, Hb, Hs.
Qed.

(** ** Elementwise operators on values *)

Lemma binop_same (f : R -> R -> R) (a b : tensor) (s : list nat) (d : Device) :
  shape a = s -> shape b = s -> device a = d -> device b = d ->
  exists v, Torch.binop f a b = Ok v /\ shape v = s /\ device v = d /\
            forall idx, in_shape s idx -> data v idx = f (data a idx) (data b idx).
Proof.
  intros Ha Hb Da Db. unfold Torch.binop.
  rewrite (common_device_same _ _ Da Db), Ha, Hb, broadcast_shapes_same.
  eexists. split; [reflexivity|]. simpl. repeat split.
  intros idx Hidx. now rewrite (bidx_same Hidx).
Qed.

Lemma binop_scalar (f : R -> R -> R) (a b : tensor) (d : Device) :
  shape b = [] -> Torch.common_device a b = Ok d ->
  exists v, Torch.binop f a b = Ok v /\ shape v = shape a /\ device v = d /\
            forall idx, in_shape (shape a) idx -> data v idx = f (data a idx) (data b []).
Proof.
  intros Hb Hd. unfold Torch.binop.
  rewrite Hd, Hb, broadcast_shapes_scalar.
  eexists. split; [reflexivity|]. simpl. repeat split.
  intros idx Hidx. now rewrite (bidx_same Hidx).
Qed.

(** A peephole tensor [C; H; W] against a state [B; C; H; W]. *)
Lemma binop_peep (f : R -> R -> R) (w c : tensor) (B C H W : nat) (d : Device) :
  shape w = [C; H; W] -> shape c = [B; C; H; W] -> device w = d -> device c = d ->
  exists v, Torch.binop f w c = Ok v /\ shape v = [B; C; H; W] /\ device v = d /\
            forall n k y x, n < B -> k < C -> y < H -> x < W ->
              data v [n; k; y; x] = f (data w [k; y; x]) (data c [n; k; y; x]).
Proof.
  intros Hw Hc Dw Dc. unfold Torch.binop.
  rewrite (common_device_same _ _ Dw Dc), Hw, Hc.
  unfold Torch.broadcast_shapes. simpl. rewrite !broadcast_dim_same. simpl.
  eexists. split; [reflexivity|]. simpl. repeat split.
  intros n k y x Hn Hk Hy Hx. unfold Torch.bidx. simpl.
  now rewrite (sel_in Hn), (sel_in Hk), (sel_in Hy), (sel_in Hx).
Qed.

(** A state [B; C; H; W] against a tied bias [C; 1; 1]. *)
Lemma binop_tied (f : R -> R -> R) (a b : tensor) (B C H W : nat) (d : Device) :
  shape a = [B; C; H; W] -> shape b = [C; 1; 1] -> device a = d -> device b = d ->
  exists v, Torch.binop f a b = Ok v /\ shape v = [B; C; H; W] /\ device v = d /\
            forall n k y x, n < B -> k < C -> y < H -> x < W ->
              data v [n; k; y; x] = f (data a [n; k; y; x]) (data b [k; 0; 0]).
Proof.
  intros Ha Hb Da Db. unfold Torch.binop.
  rewrite (common_device_same _ _ Da Db), Ha, Hb.
  unfold Torch.broadcast_shapes. simpl.
  rewrite !broadcast_dim_one, broadcast_dim_same. simpl.
  eexists. split; [reflexivity|]. simpl. repeat split.
  intros n k y x Hn Hk Hy Hx. unfold Torch.bidx. simpl.
  now rewrite (sel_in Hn), (sel_in Hk), (sel_in Hy), (sel_in Hx).
Qed.

(** ** hard_sigmoid *)

Lemma clamp_max_min (v : R) : Rmax (Rmin v 1) 0 = Spec.clamp v 0 1.
Proof.
  unfold Spec.clamp, Rmax, Rmin. repeat destruct Rle_dec; lra.
Qed.

Lemma hard_sigmoid_run (a : ref) (s : store) :
  a < length s -> hs_input_ok (val s a) ->
  wp (hard_sigmoid a) s (fun r s' =>
    ext s s' /\ length s <= r < length s' /\
    shape (val s' r) = shape (val s a) /\ device (val s' r) = cuda 0 /\
    forall idx, in_shape (shape (val s a)) idx ->
      data (val s' r) idx = Rmax (Rmin (data (val s a) idx * 0.2 + 0.5) 1) 0).
Proof.
  intros Ha Hok. unfold hard_sigmoid.
  apply wp_bind, wp_alloc.
  set (s1 := s ++ [Torch.full [] cpu 0%R]).
  assert (L1 : length s1 = S (length s)) by apply length_snoc.
  apply wp_bind, wp_cuda_copy; [lia | unfold s1; now rewrite val_new |].
  unfold s1 at 3. rewrite val_new.
  set (s2 := s1 ++ _).
  assert (L2 : length s2 = S (length s1)) by apply length_snoc.
  apply wp_bind, wp_alloc.
  set (s3 := s2 ++ _).
  assert (L3 : length s3 = S (length s2)) by apply length_snoc.
  apply wp_bind, wp_cuda_copy; [lia | unfold s3; now rewrite val_new |].
  unfold s3 at 3. rewrite val_new.
  set (s4 := s3 ++ _).
  assert (L4 : length s4 = S (length s3)) by apply length_snoc.
  assert (Va : forall s' , ext s4 s' -> val s' a = val s a).
  { intros s' He. rewrite (val_ext He) by lia. unfold s4, s3, s2, s1.
    now rewrite !val_old by (rewrite ?length_snoc; lia). }
  assert (Vup : forall s', ext s4 s' ->
            val s' (length s3) = Torch.to (cuda 0) (Torch.full [] cpu 1%R)).
  { intros s' He. rewrite (val_ext He) by lia. unfold s4. apply val_new. }
  assert (Vlo : forall s', ext s4 s' ->
            val s' (length s1) = Torch.to (cuda 0) (Torch.full [] cpu 0%R)).
  { intros s' He. rewrite (val_ext He) by lia. unfold s4, s3.
    rewrite !val_old by (rewrite ?length_snoc; lia). unfold s2. apply val_new. }
  unfold tensor_mul_scalar, tensor_add_scalar, torch_min, torch_max.
  apply wp_bind, wp_lift1; [lia|].
  rewrite (Va s4 (ext_refl s4)).
  set (s5 := s4 ++ _).
  assert (L5 : length s5 = S (length s4)) by apply length_snoc.
  assert (E5 : ext s4 s5) by apply ext_app.
  apply wp_bind, wp_lift1; [lia|].
  assert (V5 : val s5 (length s4) = Torch.map (fun e => (e * 0.2)%R) (val s a))
    by apply val_new.
  rewrite V5.
  set (v6 := Torch.map _ (Torch.map _ _)).
  set (s6 := s5 ++ _).
  assert (L6 : length s6 = S (length s5)) by apply length_snoc.
  assert (E6 : ext s4 s6) by (eapply ext_trans; [exact E5 | apply ext_app]).
  assert (V6 : val s6 (length s5) = v6) by apply val_new.
  assert (D6 : Torch.common_device v6 (Torch.to (cuda 0) (Torch.full [] cpu 1%R))
               = Ok (cuda 0)).
  { destruct Hok as [Hd | [Hd Hs]].
    - now apply common_device_same.
    - now apply common_device_cpu_scalar. }
  destruct (binop_scalar Rmin v6 (Torch.to (cuda 0) (Torch.full [] cpu 1%R))
              eq_refl D6) as (v7 & Hv7 & S7 & Dv7 & G7).
  apply wp_bind. eapply wp_lift2; [lia | lia | rewrite V6, (Vup s6 E6); exact Hv7 |].
  set (s7 := s6 ++ _).
  assert (L7 : length s7 = S (length s6)) by apply length_snoc.
  assert (E7 : ext s4 s7) by (eapply ext_trans; [exact E6 | apply ext_app]).
  assert (V7 : val s7 (length s6) = v7) by apply val_new.
  destruct (binop_scalar Rmax v7 (Torch.to (cuda 0) (Torch.full [] cpu 0%R))
              eq_refl
              (common_device_same v7 (Torch.to (cuda 0) (Torch.full [] cpu 0%R))
                                  Dv7 eq_refl))
    as (v8 & Hv8 & S8 & Dv8 & G8).
  eapply wp_lift2; [lia | lia | rewrite V7, (Vlo s7 E7); exact Hv8 |].
  rewrite val_new.
  split; [|split; [|split; [|split]]].
  - eapply ext_trans; [|apply ext_app]. eapply ext_trans; [|exact E7].
    unfold s4, s3, s2, s1. rewrite <- !app_assoc. apply ext_app.
  - rewrite length_snoc. lia.
  - now rewrite S8, S7.
  - exact Dv8.
  - intros idx Hidx. rewrite G8, G7 by (rewrite ?S7; exact Hidx). reflexivity.
Qed.

(** A CPU tensor that is not 0-dim cannot meet the CUDA bounds. *)
Lemma hard_sigmoid_cpu_raises (a : ref) (s : store) :
  a < length s -> device (val s a) = cpu -> shape (val s a) <> [] ->
  hard_sigmoid a s = Err DeviceError.
Proof.
  intros Ha Hd Hs. unfold hard_sigmoid, torch_tensor.
  eapply bind_fails; [apply run_alloc|]. intros l0 s1 [-> ->].
  eapply bind_fails;
    [apply run_cuda_copy; [rewrite !length_snoc; lia | now rewrite val_new]|].
  intros lower s2 [-> ->]. rewrite val_new.
  eapply bind_fails; [apply run_alloc|]. intros u0 s3 [-> ->].
  eapply bind_fails;
    [apply run_cuda_copy; [rewrite !length_snoc; lia | now rewrite val_new]|].
  intros upper s4 [-> ->]. rewrite val_new.
  set (s4 := ((s ++ _) ++ _) ++ _).
  assert (L4 : length s4 = 3 + length s)
    by (unfold s4; rewrite !length_snoc; lia).
  assert (E4 : ext s (s4 ++ [Torch.to (cuda 0) (Torch.full [] cpu 1%R)])).
  { unfold s4. rewrite <- !app_assoc. apply ext_app. }
  unfold tensor_mul_scalar, tensor_add_scalar.
  eapply bind_fails; [apply run_lift1; rewrite length_snoc; lia|].
  intros t1 s5 [-> ->]. rewrite (val_ext E4 Ha).
  eapply bind_fails; [apply run_lift1; rewrite !length_snoc; lia|].
  intros t2 s6 [-> ->]. rewrite val_new.
  set (s5 := (s4 ++ _) ++ _).
  set (v6 := Torch.map _ (Torch.map _ _)).
  unfold bind, torch_min, lift2, bind, read.
  rewrite (nth_error_val (s5 ++ [v6]) (r := length s5))
    by (rewrite length_snoc; lia).
  rewrite (nth_error_val (s5 ++ [v6]) (r := length s4))
    by (unfold s5; rewrite !length_snoc; lia).
  rewrite val_new.
  rewrite (val_old s5 v6) by (unfold s5; rewrite !length_snoc; lia).
  unfold s5. rewrite (val_old (s4 ++ _)) by (rewrite !length_snoc; lia).
  rewrite val_new.
  unfold raise_or, Torch.minimum, Torch.binop, Torch.common_device, Torch.is_scalar.
  unfold v6. simpl. rewrite Hd.
  destruct (shape (val s a)); [contradiction | reflexivity].
Qed.

(** ** One step of each kind *)

Lemma in_shape4 (B C H W n c y x : nat) :
  n < B -> c < C -> y < H -> x < W -> in_shape [B; C; H; W] [n; c; y; x].
Proof. intros. repeat constructor; assumption. Qed.

Lemma post4_new (s : store) (v : tensor) (B C H W : nat) (d : Device)
      (g : nat -> nat -> nat -> nat -> R) :
  shape v = [B; C; H; W] -> device v = d ->
  (forall n c y x, n < B -> c < C -> y < H -> x < W -> data v [n; c; y; x] = g n c y x) ->
  post4 s B C H W d g (length s) (s ++ [v]).
Proof.
  intros Hs Hd Hg. split; [apply ext_app|]. split; [lia|].
  split; [rewrite <- Hs, <- Hd; apply tens_new | now rewrite val_new].
Qed.

Lemma step_hs (s : store) (a : ref) (B C H W : nat) (g : nat -> nat -> nat -> nat -> R) :
  holds4 s a B C H W (cuda 0) g ->
  wp (hard_sigmoid a) s
     (post4 s B C H W (cuda 0) (fun n c y x => Spec.boundedSigmoid (g n c y x))).
Proof.
  intros [(Ha & Hs & Hd) Hg].
  eapply wp_conseq; [apply (hard_sigmoid_run s Ha); now left|].
  intros r s' (He & Hr & Hs' & Hd' & Hg'). rewrite Hs in *.
  split; [exact He|]. split; [lia|]. split; [repeat split; auto; lia|].
  intros n c y x Hn Hc Hy Hx.
  rewrite (Hg' _ (in_shape4 Hn Hc Hy Hx)), (Hg n c y x) by assumption.
  apply clamp_max_min.
Qed.

Lemma step_binop44 (f : R -> R -> R) (s : store) (a b : ref) (B C H W : nat)
      (d : Device) (ga gb : nat -> nat -> nat -> nat -> R) :
  holds4 s a B C H W d ga -> holds4 s b B C H W d gb ->
  wp (lift2 (Torch.binop f) a b) s
     (post4 s B C H W d (fun n c y x => f (ga n c y x) (gb n c y x))).
Proof.
  intros [(Ha & Sa & Da) Ga] [(Hb & Sb & Db) Gb].
  destruct (binop_same f _ _ Sa Sb Da Db) as (v & Hv & Sv & Dv & Gv).
  eapply wp_lift2; [exact Ha | exact Hb | exact Hv |].
  apply post4_new; auto.
  intros n c y x Hn Hc Hy Hx.
  now rewrite (Gv _ (in_shape4 Hn Hc Hy Hx)), Ga, Gb.
Qed.

Lemma step_peep (f : R -> R -> R) (s0 s : store) (w c : ref) (B C H W : nat)
      (d : Device) (gc : nat -> nat -> nat -> nat -> R) :
  ext s0 s -> tens s0 w [C; H; W] d -> holds4 s c B C H W d gc ->
  wp (lift2 (Torch.binop f) w c) s
     (post4 s B C H W d (fun n k y x => f (Spec.peep s0 w k y x) (gc n k y x))).
Proof.
  intros He Hw0 [(Hc & Sc & Dc) Gc].
  pose proof (tens_ext He Hw0) as (Hw & Sw & Dw).
  destruct (binop_peep f _ _ Sw Sc Dw Dc) as (v & Hv & Sv & Dv & Gv).
  eapply wp_lift2; [exact Hw | exact Hc | exact Hv |].
  apply post4_new; auto.
  intros n k y x Hn Hk Hy Hx.
  rewrite Gv, Gc by assumption. unfold Spec.peep.
  destruct Hw0 as (Hw0 & _). now rewrite (val_ext He Hw0).
Qed.

Lemma step_tied (f : R -> R -> R) (s0 s : store) (a b : ref) (B C H W : nat)
      (d : Device) (ga : nat -> nat -> nat -> nat -> R) :
  ext s0 s -> holds4 s a B C H W d ga -> tens s0 b [C; 1; 1] d ->
  wp (lift2 (Torch.binop f) a b) s
     (post4 s B C H W d (fun n k y x => f (ga n k y x) (Spec.tied s0 b k))).
Proof.
  intros He [(Ha & Sa & Da) Ga] Hb0.
  pose proof (tens_ext He Hb0) as (Hb & Sb & Db).
  destruct (binop_tied f _ _ Sa Sb Da Db) as (v & Hv & Sv & Dv & Gv).
  eapply wp_lift2; [exact Ha | exact Hb | exact Hv |].
  apply post4_new; auto.
  intros n k y x Hn Hk Hy Hx.
  rewrite Gv, Ga by assumption. unfold Spec.tied.
  destruct Hb0 as (Hb0 & _). now rewrite (val_ext He Hb0).
Qed.

Lemma step_map (f : R -> R) (s : store) (a : ref) (B C H W : nat)
      (d : Device) (g : nat -> nat -> nat -> nat -> R) :
  holds4 s a B C H W d g ->
  wp (lift1 (Torch.map f) a) s (post4 s B C H W d (fun n c y x => f (g n c y x))).
Proof.
  intros [(Ha & Sa & Da) Ga].
  apply wp_lift1; [exact Ha|].
  apply post4_new; auto.
  intros n c y x Hn Hc Hy Hx. simpl. now rewrite Ga.
Qed.

Lemma device_eqb_refl (d : Device) : device_eqb d d = true.
Proof. destruct d; simpl; [reflexivity | apply Nat.eqb_refl]. Qed.

(** A convolution of the cell on an image of any kernel parity. *)
Lemma step_conv_any (s0 s : store) (cv : nn.Conv2d) (x : ref) (B cin cout : nat)
      (k : nat * nat) (H W : nat) (d : Device) :
  ext s0 s -> conv_ok s0 cv cin cout k d -> tens s0 x [B; cin; H; W] d ->
  1 <= H -> 1 <= W ->
  wp (nn.Conv2d_call cv x) s
     (post4 s B cout (conv_side H (fst k)) (conv_side W (snd k)) d (Spec.Conv s0 cv x)).
Proof.
  intros He (Hst & Hpad & Hw0 & Hb0) Hx0 HH HW.
  pose proof (tens_ext He Hw0) as (Hw & Sw & Dw).
  pose proof (tens_ext He Hx0) as (Hx & Sx & Dx).
  pose proof (@padded_fits H (fst k) HH) as P1.
  pose proof (@padded_fits W (snd k) HW) as P2.
  unfold nn.Conv2d_call.
  apply wp_bind, wp_read; [exact Hx|].
  apply wp_bind, wp_read; [exact Hw|].
  assert (Hconv : forall ob,
             match ob with Some b => shape b = [cout] /\ device b = d | None => True end ->
             exists v, Torch.conv2d (val s x) (val s (nn.weight cv)) ob
                                    (nn.stride cv) (nn.padding cv) = Ok v /\
                       shape v = [B; cout; conv_side H (fst k); conv_side W (snd k)] /\
                       device v = d /\
                       data v = Torch.conv2d_val (val s x) (val s (nn.weight cv)) ob
                                                 (nn.stride cv) (nn.padding cv)).
  { intros ob Hob. unfold Torch.conv2d. rewrite Sx, Sw, Dx, Dw, device_eqb_refl. cbn [negb].
    assert (Hbias : Torch.bias_ok ob cout d = Ok tt).
    { destruct ob as [b|]; [|reflexivity]. destruct Hob as [Sb Db].
      unfold Torch.bias_ok. now rewrite Db, device_eqb_refl, Sb, Nat.eqb_refl. }
    rewrite Hbias, Nat.eqb_refl, Hst, Hpad. cbn [fst snd negb Nat.eqb orb].
    rewrite P1, P2. cbn [orb].
    eexists. split; [reflexivity|]. now simpl. }
  assert (Hfin : forall ob v,
             ob = option_map (val s0) (nn.bias cv) ->
             shape v = [B; cout; conv_side H (fst k); conv_side W (snd k)] ->
             device v = d ->
             data v = Torch.conv2d_val (val s x) (val s (nn.weight cv)) ob
                                       (nn.stride cv) (nn.padding cv) ->
             post4 s B cout (conv_side H (fst k)) (conv_side W (snd k)) d
                   (Spec.Conv s0 cv x) (length s) (s ++ [v])).
  { intros ob v -> Sv Dv Gv. apply post4_new; auto.
    intros n c y x' _ _ _ _. rewrite Gv. unfold Spec.Conv.
    destruct Hx0 as (Hx0 & _). destruct Hw0 as (Hw0 & _).
    now rewrite (val_ext He Hx0), (val_ext He Hw0). }
  unfold read_opt. destruct (nn.bias cv) as [rb|] eqn:Eb.
  - pose proof (tens_ext He Hb0) as (Hb & Sb & Db).
    apply wp_bind, wp_bind, wp_read; [exact Hb|]. apply wp_ret.
    destruct (Hconv (Some (val s rb)) (conj Sb Db)) as (v & Hv & Sv & Dv & Gv).
    apply wp_bind. eapply wp_raise_or; [exact Hv|]. apply wp_alloc.
    apply (Hfin (Some (val s rb)) v); auto. simpl.
    destruct Hb0 as (Hb0 & _). now rewrite (val_ext He Hb0).
  - apply wp_bind, wp_ret.
    destruct (Hconv None I) as (v & Hv & Sv & Dv & Gv).
    apply wp_bind. eapply wp_raise_or; [exact Hv|]. apply wp_alloc.
    apply (Hfin None v); auto.
Qed.

(** With an odd kernel the image keeps its size. *)
Lemma step_conv (s0 s : store) (cv : nn.Conv2d) (x : ref) (B cin cout : nat)
      (k : nat * nat) (H W : nat) (d : Device) :
  ext s0 s -> conv_ok s0 cv cin cout k d -> tens s0 x [B; cin; H; W] d ->
  Nat.odd (fst k) = true -> Nat.odd (snd k) = true -> 1 <= H -> 1 <= W ->
  wp (nn.Conv2d_call cv x) s (post4 s B cout H W d (Spec.Conv s0 cv x)).
Proof.
  intros He Hc Hx Hk1 Hk2 HH HW.
  pose proof (step_conv_any He Hc Hx HH HW) as Hrun. unfold conv_side in Hrun.
  destruct (@same_padding H _ Hk1 HH) as [_ Q1].
  destruct (@same_padding W _ Hk2 HW) as [_ Q2].
  now rewrite Q1, Q2 in Hrun.
Qed.

(** ** Stepping through [forward] *)

(** After a step: the facts about the old store are moved to the new one. *)
Ltac after_step :=
  cbv beta; intros ?r ?s' [He [Hfr Hh]];
  match type of He with
  | ext ?so _ =>
      repeat match goal with
             | H : holds4 so _ _ _ _ _ _ _ |- _ => apply (holds4_ext He) in H
             end
  end;
  match goal with
  | H0 : ext ?s0 _ |- _ =>
      lazymatch type of He with
      | ext ?so ?sn =>
          lazymatch type of H0 with
          | ext s0 so =>
              let Hf := fresh "Hfresh" in
              pose proof (Nat.le_trans _ _ _ (ext_length H0) Hfr) as Hf;
              let H0' := fresh "Hgrow" in
              pose proof (ext_trans H0 He) as H0'; clear H0
          end
      end
  end;
  clear He Hfr;
  let Hn := fresh "Hv" in rename Hh into Hn.

Ltac step lem := apply wp_bind; eapply wp_conseq; [ lem | after_step ].

Ltac conv_step ok :=
  step ltac:(eapply step_conv; [eassumption | apply ok; eassumption | eassumption | assumption ..]).
Ltac binop_step :=
  step ltac:(eapply step_binop44; eassumption).
Ltac peep_step ok :=
  step ltac:(eapply step_peep; [eassumption | apply ok; eassumption | eassumption]).
Ltac tied_step ok :=
  step ltac:(eapply step_tied; [eassumption | eassumption | apply ok; eassumption]).
Ltac hs_step := step ltac:(eapply step_hs; eassumption).
Ltac map_step := step ltac:(eapply step_map; eassumption).

Ltac find_holds :=
  match goal with
  | |- holds4 _ ?r _ _ _ _ _ _ =>
      match goal with H : holds4 _ r _ _ _ _ _ _ |- _ => exact H end
  end.
Ltac finish_run :=
  unfold run_post; cbn [fst snd];
  split; [assumption|]; split; [assumption|]; split; [assumption|];
  split; find_holds.

Lemma forward_mul_run (s : store) (self : ConvLSTMCell) (B : nat) (Xt : ref) (st : ref * ref) :
  valid_config self -> cell_ok s self (cuda 0) ->
  frame_ok s self B (cuda 0) Xt -> state_ok s self B (cuda 0) st ->
  gating_mode self = "mul"%string ->
  wp (forward self Xt st) s
     (run_post s self B (Spec.Ht_mul s self Xt (fst st) (snd st))
               (Spec.Ct_mul s self Xt (fst st) (snd st))).
Proof.
  intros (Hk1 & Hk2 & Hih & Hiw) Hcell HX [HH HC] Hmode.
  destruct st as [Htm1 Ctm1]. simpl fst in *. simpl snd in *.
  unfold frame_ok in HX.
  assert (HvC : holds4 s Ctm1 B (hidden_dim self) (fst (input_size self))
                       (snd (input_size self)) (cuda 0) (Spec.prev_cell s Ctm1))
    by (split; [exact HC | reflexivity]).
  pose proof (ext_refl s) as Hgrow.
  unfold forward. rewrite Hmode. cbn [String.eqb Ascii.eqb Bool.eqb].
  (* i *)
  conv_step ok_Wxi. conv_step ok_Whi. binop_step. peep_step ok_Wci.
  binop_step. tied_step ok_bi. hs_step.
  (* f *)
  conv_step ok_Wxf. conv_step ok_Whf. binop_step. peep_step ok_Wcf.
  binop_step. tied_step ok_bf. hs_step.
  (* candidate *)
  conv_step ok_Wxc. conv_step ok_Whc. binop_step. tied_step ok_bc. map_step.
  (* Ct *)
  binop_step. binop_step. binop_step.
  (* o *)
  conv_step ok_Wxo. conv_step ok_Who. binop_step. peep_step ok_Wco.
  binop_step. tied_step ok_bo. hs_step.
  (* Ht *)
  map_step. binop_step.
  apply wp_ret. finish_run.
Qed.

Lemma forward_sub_run (s : store) (self : ConvLSTMCell) (B : nat) (Xt : ref) (st : ref * ref) :
  valid_config self -> cell_ok s self (cuda 0) ->
  frame_ok s self B (cuda 0) Xt -> state_ok s self B (cuda 0) st ->
  gating_mode self <> "mul"%string ->
  wp (forward self Xt st) s
     (run_post s self B (Spec.Ht_sub s self Xt (fst st) (snd st))
               (Spec.Ct_sub s self Xt (fst st) (snd st))).
Proof.
  intros (Hk1 & Hk2 & Hih & Hiw) Hcell HX [HH HC] Hmode.
  destruct st as [Htm1 Ctm1]. simpl fst in *. simpl snd in *.
  unfold frame_ok in HX.
  assert (HvC : holds4 s Ctm1 B (hidden_dim self) (fst (input_size self))
                       (snd (input_size self)) (cuda 0) (Spec.prev_cell s Ctm1))
    by (split; [exact HC | reflexivity]).
  pose proof (ext_refl s) as Hgrow.
  unfold forward. apply String.eqb_neq in Hmode. rewrite Hmode.
  (* i *)
  conv_step ok_Wxi. conv_step ok_Whi. binop_step. peep_step ok_Wci.
  binop_step. tied_step ok_bi. hs_step.
  (* f *)
  conv_step ok_Wxf. conv_step ok_Whf. binop_step. peep_step ok_Wcf.
  binop_step. tied_step ok_bf. hs_step.
  (* candidate *)
  conv_step ok_Wxc. conv_step ok_Whc. binop_step. tied_step ok_bc. hs_step.
  (* Ct *)
  binop_step. binop_step. binop_step.
  (* o *)
  conv_step ok_Wxo. conv_step ok_Who. binop_step. peep_step ok_Wco.
  binop_step. tied_step ok_bo. hs_step.
  (* Ht *)
  hs_step. binop_step.
  apply wp_ret. finish_run.
Qed.

Ltac fstep lem := eapply bind_fails; [ lem | after_step ].
Ltac conv_fstep ok :=
  fstep ltac:(eapply step_conv;
              [eassumption | apply ok; eassumption | eassumption | assumption ..]).

(** With the cell and its operands on the CPU, as the constructor and
    [torch.rand] leave them, [forward] raises at its first [hard_sigmoid]. *)
Lemma forward_cpu_raises (s : store) (self : ConvLSTMCell) (B : nat) (Xt : ref)
      (st : ref * ref) :
  valid_config self -> cell_ok s self cpu ->
  frame_ok s self B cpu Xt -> state_ok s self B cpu st ->
  forward self Xt st s = Err DeviceError.
Proof.
  intros (Hk1 & Hk2 & Hih & Hiw) Hcell HX [HH HC].
  destruct st as [Htm1 Ctm1]. simpl fst in *. simpl snd in *.
  unfold frame_ok in HX.
  assert (HvC : holds4 s Ctm1 B (hidden_dim self) (fst (input_size self))
                       (snd (input_size self)) cpu (Spec.prev_cell s Ctm1))
    by (split; [exact HC | reflexivity]).
  pose proof (ext_refl s) as Hgrow.
  unfold forward.
  conv_fstep ok_Wxi. conv_fstep ok_Whi.
  fstep ltac:(eapply step_binop44; eassumption).
  fstep ltac:(eapply step_peep; [eassumption | apply ok_Wci; eassumption | eassumption]).
  fstep ltac:(eapply step_binop44; eassumption).
  fstep ltac:(eapply step_tied; [eassumption | eassumption | apply ok_bi; eassumption]).
  match goal with
  | Hv : holds4 ?s' ?r _ _ _ _ cpu _ |- bind (hard_sigmoid ?r) _ ?s' = _ =>
      destruct Hv as [(Hr & Hs & Hd) _];
      unfold bind; rewrite (@hard_sigmoid_cpu_raises r s' Hr Hd); [reflexivity|];
      rewrite Hs; discriminate
  end.
Qed.

(** ** Even kernels *)

Lemma broadcast_dim_succ (h : nat) : 2 <= h -> Torch.broadcast_dim (S h) h = Err ShapeError.
Proof.
  intros Hh. unfold Torch.broadcast_dim.
  destruct (S h =? h) eqn:E1; [apply Nat.eqb_eq in E1; lia|].
  destruct (S h =? 1) eqn:E2; [apply Nat.eqb_eq in E2; lia|].
  destruct (h =? 1) eqn:E3; [apply Nat.eqb_eq in E3; lia | reflexivity].
Qed.

Lemma broadcast_dim_error (a b : nat) (e : exn) :
  Torch.broadcast_dim a b = Err e -> e = ShapeError.
Proof.
  unfold Torch.broadcast_dim.
  destruct (a =? b); [discriminate|]. destruct (a =? 1); [discriminate|].
  destruct (b =? 1); [discriminate|]. now intros [= <-].
Qed.

(** Sizes that grew by one on a side of size at least 2 do not broadcast. *)
Lemma binop_grown (f : R -> R -> R) (a b : tensor) (B C H W H1 W1 : nat) (d : Device) :
  shape a = [B; C; H1; W1] -> shape b = [B; C; H; W] -> device a = d -> device b = d ->
  (H1 = S H /\ 2 <= H) \/ (W1 = S W /\ 2 <= W) ->
  Torch.binop f a b = Err ShapeError.
Proof.
  intros Sa Sb Da Db Hgrow. unfold Torch.binop.
  rewrite (common_device_same _ _ Da Db), Sa, Sb.
  unfold Torch.broadcast_shapes. simpl.
  destruct (Torch.broadcast_dim W1 W) as [w|e] eqn:EW.
  - destruct Hgrow as [[-> HH] | [-> HW]].
    + now rewrite (broadcast_dim_succ HH).
    + rewrite (broadcast_dim_succ HW) in EW. discriminate.
  - now rewrite (broadcast_dim_error _ _ EW).
Qed.

Lemma lift2_fails (op : tensor -> tensor -> result tensor) (a b : ref) (s : store) (e : exn) :
  a < length s -> b < length s -> op (val s a) (val s b) = Err e ->
  lift2 op a b s = Err e.
Proof.
  intros Ha Hb Hop. unfold lift2, bind, read, raise_or.
  rewrite (nth_error_val s Ha), (nth_error_val s Hb), Hop. reflexivity.
Qed.

(** With an even kernel side of at least 2 the convolutions with padding
    [k // 2] return images one larger on that side; on an image of side at
    least 2 the sum with the peephole term, which has the configured size,
    raises. *)
Lemma forward_even_kernel_raises (s : store) (self : ConvLSTMCell) (B : nat) (Xt : ref)
      (st : ref * ref) (d : Device) :
  cell_ok s self d -> frame_ok s self B d Xt -> state_ok s self B d st ->
  1 <= fst (input_size self) -> 1 <= snd (input_size self) ->
  (Nat.even (fst (kernel_size self)) = true /\ 2 <= fst (input_size self)) \/
  (Nat.even (snd (kernel_size self)) = true /\ 2 <= snd (input_size self)) ->
  forward self Xt st s = Err ShapeError.
Proof.
  intros Hcell HX [HH HC] Hih Hiw Heven.
  destruct st as [Htm1 Ctm1]. simpl fst in *. simpl snd in *.
  unfold frame_ok in HX.
  assert (HvC : holds4 s Ctm1 B (hidden_dim self) (fst (input_size self))
                       (snd (input_size self)) d (Spec.prev_cell s Ctm1))
    by (split; [exact HC | reflexivity]).
  pose proof (ext_refl s) as Hgrow.
  unfold forward.
  fstep ltac:(eapply step_conv_any;
              [eassumption | apply ok_Wxi; eassumption | eassumption | assumption ..]).
  fstep ltac:(eapply step_conv_any;
              [eassumption | apply ok_Whi; eassumption | eassumption | assumption ..]).
  fstep ltac:(eapply step_binop44; eassumption).
  fstep ltac:(eapply step_peep; [eassumption | apply ok_Wci; eassumption | eassumption]).
  match goal with
  | Ha : holds4 ?s' ?a _ _ (conv_side _ _) (conv_side _ _) _ _,
    Hb : holds4 ?s' ?b _ _ (fst (input_size self)) (snd (input_size self)) _ _
    |- bind (tensor_add ?a ?b) _ ?s' = _ =>
      destruct Ha as [(Hra & Hsa & Hda) _]; destruct Hb as [(Hrb & Hsb & Hdb) _];
      unfold bind, tensor_add;
      rewrite (@lift2_fails Torch.add a b s' ShapeError Hra Hrb); [reflexivity|];
      eapply binop_grown; [exact Hsa | exact Hsb | exact Hda | exact Hdb |]
  end.
  destruct Heven as [[Hk Hh] | [Hk Hw]]; [left | right];
    (split; [now apply conv_side_even | assumption]).
Qed.

(** ** The frame: what a run leaves alone *)

Lemma fresh_alloc (v : tensor) (s : store) (r : ref) (s' : store) :
  alloc v s = Ok (r, s') -> ext s s' /\ length s <= r < length s'.
Proof.
  unfold alloc. intros H. injection H as <- <-.
  split; [apply ext_app|]. rewrite length_snoc. lia.
Qed.

Lemma fresh_lift2 (op : tensor -> tensor -> result tensor) (a b : ref)
      (s : store) (r : ref) (s' : store) :
  lift2 op a b s = Ok (r, s') -> ext s s' /\ length s <= r < length s'.
Proof.
  unfold lift2. intros H.
  apply bind_inv in H as (va & s1 & H1 & H). apply read_inv in H1 as (-> & _).
  apply bind_inv in H as (vb & s2 & H2 & H). apply read_inv in H2 as (-> & _).
  apply bind_inv in H as (v & s3 & H3 & H). apply raise_or_inv in H3 as (-> & _).
  now apply fresh_alloc in H.
Qed.

Lemma fresh_lift1 (op : tensor -> tensor) (a : ref) (s : store) (r : ref) (s' : store) :
  lift1 op a s = Ok (r, s') -> ext s s' /\ length s <= r < length s'.
Proof.
  unfold lift1. intros H.
  apply bind_inv in H as (va & s1 & H1 & H). apply read_inv in H1 as (-> & _).
  now apply fresh_alloc in H.
Qed.

Lemma grows_cuda (a : ref) (s : store) (r : ref) (s' : store) :
  tensor_cuda a s = Ok (r, s') -> ext s s'.
Proof.
  unfold tensor_cuda. intros H.
  apply bind_inv in H as (va & s1 & H1 & H). apply read_inv in H1 as (-> & _).
  destruct (device_eqb (device va) (cuda 0)).
  - injection H as _ <-. apply ext_refl.
  - now apply fresh_alloc in H.
Qed.

Lemma fresh_conv (cv : nn.Conv2d) (x : ref) (s : store) (r : ref) (s' : store) :
  nn.Conv2d_call cv x s = Ok (r, s') -> ext s s' /\ length s <= r < length s'.
Proof.
  unfold nn.Conv2d_call. intros H.
  apply bind_inv in H as (vx & s1 & H1 & H). apply read_inv in H1 as (-> & _).
  apply bind_inv in H as (vw & s2 & H2 & H). apply read_inv in H2 as (-> & _).
  apply bind_inv in H as (vb & s3 & H3 & H).
  assert (s3 = s) as ->.
  { unfold read_opt in H3. destruct (nn.bias cv).
    - apply bind_inv in H3 as (v & s4 & H4 & H3). apply read_inv in H4 as (-> & _).
      now injection H3 as _ <-.
    - now injection H3 as _ <-. }
  apply bind_inv in H as (v & s4 & H4 & H). apply raise_or_inv in H4 as (-> & _).
  now apply fresh_alloc in H.
Qed.

(** One step back through a [bind] whose first part allocates its result. *)
Ltac inv_fresh H lem :=
  let r := fresh "r" in
  let s1 := fresh "s" in
  let Hm := fresh "Hm" in
  let He := fresh "He" in
  let Hr := fresh "Hr" in
  apply bind_inv in H; destruct H as (r & s1 & Hm & H);
  apply lem in Hm; destruct Hm as [He Hr];
  pose proof (ext_length He).

Lemma fresh_hard_sigmoid (a : ref) (s : store) (r : ref) (s' : store) :
  hard_sigmoid a s = Ok (r, s') -> ext s s' /\ length s <= r < length s'.
Proof.
  unfold hard_sigmoid, torch_tensor, tensor_mul_scalar, tensor_add_scalar,
    torch_min, torch_max.
  intros H.
  inv_fresh H fresh_alloc.
  apply bind_inv in H as (lower & s1 & Hlo & H). apply grows_cuda in Hlo.
  pose proof (ext_length Hlo).
  inv_fresh H fresh_alloc.
  apply bind_inv in H as (upper & s3 & Hup & H). apply grows_cuda in Hup.
  pose proof (ext_length Hup).
  inv_fresh H fresh_lift1. inv_fresh H fresh_lift1. inv_fresh H fresh_lift2.
  apply fresh_lift2 in H as [He' Hr'].
  split; [|lia].
  repeat (eapply ext_trans; [eassumption|]). apply ext_refl.
Qed.

Ltac inv_any H :=
  first [ inv_fresh H fresh_conv | inv_fresh H fresh_hard_sigmoid
        | inv_fresh H fresh_lift2 | inv_fresh H fresh_lift1 ].

Ltac chain_ext :=
  repeat (eapply ext_trans; [eassumption|]); apply ext_refl.

(** Whatever the arguments, a run of [forward] that returns has only added
    objects to the store, and its two results are new and distinct. *)
Lemma forward_grows (self : ConvLSTMCell) (Xt : ref) (st : ref * ref)
      (s : store) (r : ref * ref) (s' : store) :
  forward self Xt st s = Ok (r, s') ->
  ext s s' /\ length s <= snd r /\ snd r < fst r /\ fst r < length s'.
Proof.
  destruct st as [Htm1 Ctm1]. unfold forward. intros H.
  do 14 inv_any H.
  destruct (String.eqb (gating_mode self) "mul").
  - do 17 inv_any H. injection H as <- <-. cbn [fst snd].
    split; [chain_ext | lia].
  - do 17 inv_any H. injection H as <- <-. cbn [fst snd].
    split; [chain_ext | lia].
Qed.

(** ** init_hidden *)

Lemma init_hidden_run (self : ConvLSTMCell) (batch_size : nat) (s : store) :
  nn.weight (Wxi self) < length s ->
  let z := Torch.full [batch_size; hidden_dim self;
                       fst (input_size self); snd (input_size self)]
                      (device (val s (nn.weight (Wxi self)))) 0%R in
  init_hidden self batch_size s = Ok ((length s, S (length s)), s ++ [z; z]).
Proof.
  intros Hw z. unfold init_hidden, bind, read.
  rewrite (nth_error_val s Hw). destruct (input_size self) as [h w].
  unfold torch_zeros, alloc, ret. rewrite length_snoc, <- app_assoc. reflexivity.
Qed.

(** ** The constructor *)

Lemma conv_new_run (cin cout : nat) (k : nat * nat) (with_bias : bool)
      (init : nn.conv_init) (s : store) :
  wp (nn.Conv2d_new cin cout k 1 (fst k / 2, snd k / 2) with_bias init) s
     (fun cv s' => ext s s' /\ conv_ok s' cv cin cout k cpu /\
                   (nn.bias cv = None <-> with_bias = false)).
Proof.
  unfold nn.Conv2d_new.
  apply wp_bind, wp_alloc.
  set (w := mkTensor [cout; cin; fst k; snd k] cpu (nn.init_weight init) true).
  set (b := mkTensor [cout] cpu (nn.init_bias init) true).
  destruct with_bias.
  - apply wp_bind, wp_bind, wp_alloc, wp_ret, wp_ret.
    split; [rewrite <- app_assoc; apply ext_app|].
    split; [|split; discriminate].
    split; [reflexivity|]. split; [reflexivity|]. cbn [nn.weight nn.bias].
    split; [apply (@tens_ext (s ++ [w])); [apply ext_app | apply (tens_new s w)]|].
    apply (tens_new (s ++ [w]) b).
  - apply wp_bind, wp_ret, wp_ret.
    split; [apply ext_app|]. split; [|split; reflexivity].
    split; [reflexivity|]. split; [reflexivity|]. cbn [nn.weight nn.bias].
    split; [apply (tens_new s w) | exact I].
Qed.

Ltac grow He :=
  repeat match goal with
         | H : conv_ok ?s _ _ _ _ _ |- _ =>
             lazymatch type of He with ext s _ => apply (conv_ok_ext He) in H end
         | H : stored ?s _ _ |- _ =>
             lazymatch type of He with ext s _ => apply (stored_ext He) in H end
         end.

Ltac new_conv :=
  apply wp_bind; eapply wp_conseq; [apply conv_new_run|];
  let cv := fresh "cv" in
  let s' := fresh "s" in
  let He := fresh "He" in
  let Hc := fresh "Hc" in
  intros cv s' (He & Hc & _); grow He;
  match goal with
  | Hg : ext ?s0 _ |- _ =>
      lazymatch Hg with
      | He => fail
      | _ => let Hg' := fresh "Hg" in
             pose proof (ext_trans Hg He) as Hg'; clear Hg He
      end
  end.

Ltac new_tensor :=
  apply wp_bind, wp_alloc;
  match goal with
  | |- wp _ (?s ++ [?v]) _ =>
      let He := fresh "He" in
      let Hv := fresh "Hs" in
      pose proof (ext_app s [v]) as He;
      pose proof (stored_new s v) as Hv;
      grow He;
      match goal with
      | Hg : ext ?s0 s |- _ =>
          let Hg' := fresh "Hg" in
          pose proof (ext_trans Hg He) as Hg'; clear Hg He
      end;
      let sn := fresh "s" in
      let E := fresh "E" in
      remember (s ++ [v]) as sn eqn:E; clear E
  end.

Lemma init_run (isz : nat * nat) (idim hdim : nat) (k : nat * nat) (mode : string)
      (peep tb : bool) (rng : string -> nn.conv_init) (s : store) :
  wp (__init__ isz idim hdim k mode peep tb rng) s
     (init_post s isz idim hdim k mode peep tb).
Proof.
  unfold __init__. cbv zeta.
  pose proof (ext_refl s) as Hg.
  simpl contains. cbv iota.
  do 8 new_conv.
  unfold register_parameter.
  do 7 new_tensor.
  apply wp_ret. unfold init_post.
  split; [assumption|].
  split; [constructor; cbn [Wxi Whi Wxf Whf Wxo Who Wxc Whc Wci Wcf Wco bi bf bc bo
                             input_dim hidden_dim kernel_size input_size];
          first [assumption
                | match goal with
                  | H : stored ?s0 ?r _ |- tens ?s0 ?r _ _ => exact (stored_tens H)
                  end]|].
  do 8 (split; [reflexivity|]).
  unfold Spec.peep, Spec.tied. cbn [Wci Wcf Wco bi bf bc bo].
  repeat match goal with H : stored _ _ _ |- _ => destruct H as [_ H]; rewrite H end.
  split; intros; repeat split.
Qed.

Lemma init_returns (isz : nat * nat) (idim hdim : nat) (k : nat * nat) (mode : string)
      (peep tb : bool) (rng : string -> nn.conv_init) (s : store) :
  exists c s',
    __init__ isz idim hdim k mode peep tb rng s = Ok (c, s') /\
    gating_mode c = mode /\ peephole c = peep /\ tied_bias c = tb.
Proof.
  destruct tb; eexists; eexists; (split; [reflexivity|]); repeat split.
Qed.

(** ** Module.cuda *)

Lemma to_same (d : Device) (v : tensor) : device v = d -> Torch.to d v = v.
Proof. destruct v as [sh dv g rg]. simpl. now intros ->. Qed.

Lemma move_all_run (d : Device) (rs : list ref) (s : store) :
  (forall r, In r rs -> r < length s) ->
  wp (move_all d rs) s (fun _ s' => moved d rs s s').
Proof.
  revert s. induction rs as [|r rest IH]; intros s Hrs.
  - apply wp_ret. split; [reflexivity|]. split; [intros p [] | reflexivity].
  - simpl move_all.
    assert (Hr : r < length s) by (apply Hrs; now left).
    apply wp_bind, wp_read; [exact Hr|].
    apply wp_bind. exists tt, (update s r (Torch.to d (val s r))).
    split; [unfold assign; now rewrite (nth_error_val s Hr)|].
    set (s1 := update s r (Torch.to d (val s r))).
    assert (L1 : length s1 = length s) by apply update_length.
    eapply wp_conseq; [apply IH; intros q Hq; rewrite L1; apply Hrs; now right|].
    intros _ s' (L & Hin & Hout). split; [congruence|]. split.
    + intros p Hp. destruct (in_dec Nat.eq_dec p rest) as [Hi | Hni].
      * rewrite (Hin p Hi). destruct (Nat.eq_dec p r) as [-> | Hne].
        -- unfold s1. now rewrite (val_update_same _ _ Hr).
        -- unfold s1. now rewrite (val_update_other _ _ Hne).
      * destruct Hp as [<- | Hp]; [|contradiction].
        rewrite (Hout r Hni). unfold s1. now apply val_update_same.
    + intros p Hp. rewrite (Hout p) by (intros Hi; apply Hp; now right).
      unfold s1. apply val_update_other. intros ->. apply Hp. now left.
Qed.

Lemma moved_tens (d : Device) (rs : list ref) (s s' : store) (p : ref)
      (sh : list nat) (d0 : Device) :
  moved d rs s s' -> In p rs -> tens s p sh d0 -> tens s' p sh d.
Proof.
  intros (L & Hin & _) Hp (Hr & Hs & _). unfold tens.
  rewrite (Hin p Hp), L. auto.
Qed.

Lemma moved_conv_ok (d : Device) (rs : list ref) (s s' : store) (cv : nn.Conv2d)
      (cin cout : nat) (k : nat * nat) (d0 : Device) :
  moved d rs s s' -> (forall p, In p (conv_parameters cv) -> In p rs) ->
  conv_ok s cv cin cout k d0 -> conv_ok s' cv cin cout k d.
Proof.
  intros Hm Hsub (Hst & Hp & Hw & Hb). unfold conv_parameters in Hsub.
  split; [exact Hst|]. split; [exact Hp|]. split.
  - eapply (moved_tens Hm); [apply Hsub; now left | exact Hw].
  - destruct (nn.bias cv) as [b|]; [|exact I].
    eapply (moved_tens Hm); [apply Hsub; right; now left | exact Hb].
Qed.

Lemma parameters_bound (s : store) (self : ConvLSTMCell) (d : Device) :
  cell_ok s self d -> forall r, In r (parameters self) -> r < length s.
Proof.
  intros [] r Hr. unfold parameters, conv_parameters in Hr.
  repeat match goal with
         | H : conv_ok _ _ _ _ _ _ |- _ => destruct H as (_ & _ & (? & _) & ?)
         | H : tens _ _ _ _ |- _ => destruct H as (? & _)
         end.
  repeat (apply in_app_or in Hr; destruct Hr as [Hr | Hr]);
    repeat match goal with
           | H : match ?b with Some _ => _ | None => _ end |- _ => destruct b
           end;
    simpl in Hr;
    repeat match goal with
           | H : tens _ _ _ _ |- _ => destruct H as (? & _)
           | H : _ \/ _ |- _ => destruct H
           | H : False |- _ => contradiction
           end; subst; assumption.
Qed.

Lemma module_cuda_run (s : store) (self : ConvLSTMCell) (d : Device) :
  cell_ok s self d ->
  wp (Module_cuda self) s
     (fun c s' => c = self /\ length s' = length s /\ cell_ok s' self (cuda 0) /\
                  (forall p, shape (val s' p) = shape (val s p) /\
                             data (val s' p) = data (val s p)) /\
                  (forall p, device (val s p) = cuda 0 -> val s' p = val s p)).
Proof.
  intros Hc. unfold Module_cuda.
  apply wp_bind. eapply wp_conseq; [apply move_all_run, (parameters_bound Hc)|].
  intros u s' Hm. cbv beta in Hm. apply wp_ret. split; [reflexivity|].
  split; [apply Hm|]. split; [|split].
  - destruct Hc.
    constructor;
      first [ eapply (moved_conv_ok Hm); [|eassumption];
              intros p Hp; unfold parameters; rewrite !in_app_iff; tauto
            | eapply (moved_tens Hm); [|eassumption];
              unfold parameters; rewrite !in_app_iff; simpl; tauto ].
  - intros p. destruct Hm as (_ & Hin & Hout).
    destruct (in_dec Nat.eq_dec p (parameters self)) as [Hi | Hni].
    + rewrite (Hin p Hi). split; reflexivity.
    + rewrite (Hout p Hni). split; reflexivity.
  - intros p Hd. destruct Hm as (_ & Hin & Hout).
    destruct (in_dec Nat.eq_dec p (parameters self)) as [Hi | Hni].
    + rewrite (Hin p Hi). now apply to_same.
    + exact (Hout p Hni).
Qed.

(** ** A whole session *)

Lemma session_tail (isz : nat * nat) (idim hdim : nat) (k : nat * nat) (mode : string)
      (peep : bool) (B : nat) (d : Device) (model : ConvLSTMCell) (x : ref) (s : store) :
  cell_ok s model d -> tens s x [B; idim; fst isz; snd isz] d ->
  gating_mode model = mode -> peephole model = peep ->
  input_size model = isz -> input_dim model = idim -> hidden_dim model = hdim ->
  kernel_size model = k -> peepholes_one s model ->
  wp (st <- init_hidden model B ;; ret (model, x, st)) s
     (ready isz idim hdim k mode peep B d).
Proof.
  intros Hc HX Hm Hp Hs Hi Hh Hk Hone.
  pose proof (ok_Wxi Hc) as (_ & _ & (Hw & _ & Hd) & _).
  apply wp_bind.
  pose proof (init_hidden_run model B s Hw) as Hrun. cbv zeta in Hrun.
  rewrite Hd in Hrun.
  eexists. eexists. split; [exact Hrun|]. apply wp_ret.
  set (z := Torch.full _ d 0%R).
  assert (E : ext s (s ++ [z; z])) by apply ext_app.
  destruct (val_new2 s z z) as [V0 V1].
  assert (L : length (s ++ [z; z]) = 2 + length s)
    by (rewrite length_app; simpl; lia).
  unfold ready.
  split; [exact (cell_ok_ext E Hc)|].
  split; [apply (tens_ext E); unfold frame_ok; now rewrite Hi, Hs|].
  split; [split; cbn [fst snd]; unfold tens; rewrite ?V0, ?V1; repeat split; lia|].
  do 6 (split; [assumption|]).
  intros ch y x' Hch Hy Hx. unfold Spec.peep.
  destruct (ok_Wci Hc) as (H1 & _). destruct (ok_Wcf Hc) as (H2 & _).
  destruct (ok_Wco Hc) as (H3 & _).
  rewrite !(val_ext E) by assumption.
  exact (Hone ch y x' Hch Hy Hx).
Qed.

Lemma session_gpu_run (isz : nat * nat) (idim hdim : nat) (k : nat * nat) (mode : string)
      (peep tb : bool) (rng : string -> nn.conv_init) (B : nat) (frame : list nat -> R)
      (s : store) :
  wp (session isz idim hdim k mode peep tb rng true B frame) s
     (ready isz idim hdim k mode peep B (cuda 0)).
Proof.
  unfold session.
  apply wp_bind, wp_alloc.
  set (xv := mkTensor _ (cuda 0) frame false).
  pose proof (tens_new s xv) as HX.
  apply wp_bind. eapply wp_conseq; [apply init_run|].
  intros c s1 (E1 & Hc & Hm & Hp & _ & Hs & Hi & Hh & Hk & _ & Hone & _).
  apply (tens_ext E1) in HX.
  apply wp_bind. eapply wp_conseq; [apply (module_cuda_run Hc)|].
  intros c' s2 (-> & L2 & Hc2 & Hsame & Hkeep).
  apply session_tail; try assumption.
  - destruct HX as (Hx & Sx & Dx). unfold tens.
    rewrite (Hkeep _ Dx), L2. auto.
  - intros ch y x _ _ _. unfold Spec.peep.
    destruct (Hsame (Wci c)) as [_ ->]. destruct (Hsame (Wcf c)) as [_ ->].
    destruct (Hsame (Wco c)) as [_ ->]. apply Hone.
Qed.

Lemma session_cpu_run (isz : nat * nat) (idim hdim : nat) (k : nat * nat) (mode : string)
      (peep tb : bool) (rng : string -> nn.conv_init) (B : nat) (frame : list nat -> R)
      (s : store) :
  wp (session isz idim hdim k mode peep tb rng false B frame) s
     (ready isz idim hdim k mode peep B cpu).
Proof.
  unfold session.
  apply wp_bind, wp_alloc.
  set (xv := mkTensor _ cpu frame false).
  pose proof (tens_new s xv) as HX.
  apply wp_bind. eapply wp_conseq; [apply init_run|].
  intros c s1 (E1 & Hc & Hm & Hp & _ & Hs & Hi & Hh & Hk & _ & Hone & _).
  apply (tens_ext E1) in HX.
  apply wp_bind, wp_ret.
  apply session_tail; try assumption.
  intros ch y x _ _ _. apply Hone.
Qed.

Lemma ready_valid (isz : nat * nat) (idim hdim : nat) (k : nat * nat) (mode : string)
      (peep : bool) (B : nat) (d : Device) (model : ConvLSTMCell) (x : ref)
      (st : ref * ref) (s : store) :
  Nat.odd (fst k) = true -> Nat.odd (snd k) = true ->
  1 <= fst isz -> 1 <= snd isz ->
  ready isz idim hdim k mode peep B d (model, x, st) s -> valid_config model.
Proof.
  intros K1 K2 I1 I2 (_ & _ & _ & _ & _ & Hs & _ & _ & Hk & _).
  unfold valid_config. now rewrite Hs, Hk.
Qed.

(** ** The gating mode *)

Lemma forward_not_mul (mode : string) (self : ConvLSTMCell) (Xt : ref) (st : ref * ref)
      (s : store) :
  mode <> "mul"%string -> gating_mode self = mode ->
  forward self Xt st s = forward (with_gating_mode "sub" self) Xt st s.
Proof.
  intros Hne Hm. apply String.eqb_neq in Hne.
  unfold forward. rewrite Hm, Hne. reflexivity.
Qed.

Lemma with_mode_cell_ok (m : string) (s : store) (self : ConvLSTMCell) (d : Device) :
  cell_ok s self d -> cell_ok s (with_gating_mode m self) d.
Proof. intros []. constructor; assumption. Qed.

Lemma with_mode_valid (m : string) (self : ConvLSTMCell) :
  valid_config self -> valid_config (with_gating_mode m self).
Proof. intros H. exact H. Qed.

(** ** Comparing two results *)

Lemma in_shape4_inv (B C H W : nat) (idx : list nat) :
  in_shape [B; C; H; W] idx ->
  exists n c y x, idx = [n; c; y; x] /\ n < B /\ c < C /\ y < H /\ x < W.
Proof.
  intros H0. inversion H0 as [|n B' i1 t1 Hn H1]; subst.
  inversion H1 as [|c C' i2 t2 Hc H2]; subst.
  inversion H2 as [|y H' i3 t3 Hy H3]; subst.
  inversion H3 as [|x W' i4 t4 Hx H4]; subst.
  inversion H4; subst. exists n, c, y, x. auto.
Qed.

Lemma holds4_equal (s1 s2 : store) (r1 r2 : ref) (B C H W : nat) (d1 d2 : Device)
      (g1 g2 : nat -> nat -> nat -> nat -> R) :
  holds4 s1 r1 B C H W d1 g1 -> holds4 s2 r2 B C H W d2 g2 ->
  (tensor_equal (val s1 r1) (val s2 r2) <->
   forall n c y x, n < B -> c < C -> y < H -> x < W -> g1 n c y x = g2 n c y x).
Proof.
  intros [(_ & S1 & _) G1] [(_ & S2 & _) G2]. unfold tensor_equal. rewrite S1, S2.
  split.
  - intros [_ Heq] n c y x Hn Hc Hy Hx.
    rewrite <- G1, <- G2 by assumption. apply Heq. now apply in_shape4.
  - intros Heq. split; [reflexivity|].
    intros idx Hidx. apply in_shape4_inv in Hidx as (n & c & y & x & -> & Hn & Hc & Hy & Hx).
    rewrite G1, G2 by assumption. now apply Heq.
Qed.

(** ** Two cells that differ in the peephole flag *)

Lemma conv_same_val (s1 s2 : store) (c1 c2 : nn.Conv2d) (x1 x2 : ref) (n c y x : nat) :
  conv_same s1 c1 s2 c2 -> val s1 x1 = val s2 x2 ->
  Spec.Conv s1 c1 x1 n c y x = Spec.Conv s2 c2 x2 n c y x.
Proof.
  intros (Hs & Hp & Hw & Hb) Hx. unfold Spec.Conv.
  now rewrite Hs, Hp, Hw, Hb, Hx.
Qed.

Section TwoCells.

Variables (s1 s2 : store) (c1 c2 : ConvLSTMCell).
Variables (X1 H1 C1 X2 H2 C2 : ref).
Hypothesis Hsame : same_but_peephole s1 c1 s2 c2.
Hypothesis Hone1 : peepholes_one s1 c1.
Hypothesis Hone2 : peepholes_one s2 c2.
Hypothesis HX : val s1 X1 = val s2 X2.
Hypothesis HH : val s1 H1 = val s2 H2.
Hypothesis HC : val s1 C1 = val s2 C2.

Variables n c y x : nat.
Hypothesis Hc : c < hidden_dim c1.
Hypothesis Hy : y < fst (input_size c1).
Hypothesis Hx : x < snd (input_size c1).

Lemma peep_both :
  Spec.peep s1 (Wci c1) c y x = Spec.peep s2 (Wci c2) c y x /\
  Spec.peep s1 (Wcf c1) c y x = Spec.peep s2 (Wcf c2) c y x /\
  Spec.peep s1 (Wco c1) c y x = Spec.peep s2 (Wco c2) c y x.
Proof.
  destruct (@Hone1 c y x Hc Hy Hx) as (A1 & A2 & A3).
  pose proof (same_hidden_dim Hsame) as Ed.
  pose proof (same_input_size Hsame) as Es.
  assert (Hc2 : c < hidden_dim c2) by congruence.
  assert (Hy2 : y < fst (input_size c2)) by congruence.
  assert (Hx2 : x < snd (input_size c2)) by congruence.
  destruct (@Hone2 c y x Hc2 Hy2 Hx2) as (B1 & B2 & B3).
  repeat split; congruence.
Qed.

Lemma gates_same :
  Spec.gate_i s1 c1 X1 H1 C1 n c y x = Spec.gate_i s2 c2 X2 H2 C2 n c y x /\
  Spec.gate_f s1 c1 X1 H1 C1 n c y x = Spec.gate_f s2 c2 X2 H2 C2 n c y x /\
  Spec.cand_pre s1 c1 X1 H1 n c y x = Spec.cand_pre s2 c2 X2 H2 n c y x /\
  (forall Ct1 Ct2 : nat -> nat -> nat -> nat -> R,
      Ct1 n c y x = Ct2 n c y x ->
      Spec.gate_o s1 c1 X1 H1 Ct1 n c y x = Spec.gate_o s2 c2 X2 H2 Ct2 n c y x).
Proof.
  destruct peep_both as (P1 & P2 & P3).
  unfold Spec.gate_i, Spec.gate_f, Spec.cand_pre, Spec.gate_o, Spec.tied, Spec.prev_cell.
  rewrite P1, P2, P3.
  rewrite (@conv_same_val _ _ _ _ _ _ n c y x (same_Wxi Hsame) HX).
  rewrite (@conv_same_val _ _ _ _ _ _ n c y x (same_Whi Hsame) HH).
  rewrite (@conv_same_val _ _ _ _ _ _ n c y x (same_Wxf Hsame) HX).
  rewrite (@conv_same_val _ _ _ _ _ _ n c y x (same_Whf Hsame) HH).
  rewrite (@conv_same_val _ _ _ _ _ _ n c y x (same_Wxo Hsame) HX).
  rewrite (@conv_same_val _ _ _ _ _ _ n c y x (same_Who Hsame) HH).
  rewrite (@conv_same_val _ _ _ _ _ _ n c y x (same_Wxc Hsame) HX).
  rewrite (@conv_same_val _ _ _ _ _ _ n c y x (same_Whc Hsame) HH).
  rewrite (same_bi Hsame), (same_bf Hsame), (same_bc Hsame), (same_bo Hsame), HC.
  repeat split. intros Ct1 Ct2 ->. reflexivity.
Qed.

Lemma states_same :
  Spec.Ct_mul s1 c1 X1 H1 C1 n c y x = Spec.Ct_mul s2 c2 X2 H2 C2 n c y x /\
  Spec.Ht_mul s1 c1 X1 H1 C1 n c y x = Spec.Ht_mul s2 c2 X2 H2 C2 n c y x /\
  Spec.Ct_sub s1 c1 X1 H1 C1 n c y x = Spec.Ct_sub s2 c2 X2 H2 C2 n c y x /\
  Spec.Ht_sub s1 c1 X1 H1 C1 n c y x = Spec.Ht_sub s2 c2 X2 H2 C2 n c y x.
Proof.
  destruct gates_same as (Gi & Gf & Gz & Go).
  assert (Cm : Spec.Ct_mul s1 c1 X1 H1 C1 n c y x = Spec.Ct_mul s2 c2 X2 H2 C2 n c y x).
  { unfold Spec.Ct_mul, Spec.prev_cell. now rewrite Gi, Gf, Gz, HC. }
  assert (Cs : Spec.Ct_sub s1 c1 X1 H1 C1 n c y x = Spec.Ct_sub s2 c2 X2 H2 C2 n c y x).
  { unfold Spec.Ct_sub, Spec.prev_cell. now rewrite Gi, Gf, Gz, HC. }
  repeat split; try assumption.
  - unfold Spec.Ht_mul. now rewrite (Go _ _ Cm), Cm.
  - unfold Spec.Ht_sub. now rewrite (Go _ _ Cs), Cs.
Qed.

End TwoCells.

Lemma same_valid (s1 s2 : store) (c1 c2 : ConvLSTMCell) :
  same_but_peephole s1 c1 s2 c2 -> valid_config c1 -> valid_config c2.
Proof.
  intros Hs (A & B & C & D). unfold valid_config.
  rewrite <- (same_kernel_size Hs), <- (same_input_size Hs). auto.
Qed.

Lemma with_peephole_cell_ok (b : bool) (s : store) (self : ConvLSTMCell) (d : Device) :
  cell_ok s self d -> cell_ok s (with_peephole b self) d.
Proof. intros []. constructor; assumption. Qed.

Lemma with_peephole_same (b : bool) (s : store) (self : ConvLSTMCell) :
  same_but_peephole s (with_peephole b self) s self.
Proof. constructor; first [reflexivity | repeat split]. Qed.

(** ** The smallest cell *)

Lemma demo_setup_cpu (mode : string) :
  demo_setup mode false []
  = Ok ((demo_cell mode, demo_frame, (demo_H, demo_C)), demo_store cpu).
Proof. reflexivity. Qed.

Lemma demo_setup_gpu (mode : string) :
  demo_setup mode true []
  = Ok ((demo_cell mode, demo_frame, (demo_H, demo_C)), demo_store (cuda 0)).
Proof. reflexivity. Qed.

Lemma demo_valid (mode : string) : valid_config (demo_cell mode).
Proof. repeat split; simpl; lia. Qed.

Lemma demo_tens (d : Device) (r : ref) (sh : list nat) :
  r < 26 -> shape (val (demo_store d) r) = sh -> tens (demo_store d) r sh d.
Proof.
  intros Hr Hs. repeat split; [exact Hr | exact Hs |].
  do 26 (destruct r as [|r]; [reflexivity|]). simpl in Hr. lia.
Qed.

Lemma demo_cell_ok (mode : string) (d : Device) : cell_ok (demo_store d) (demo_cell mode) d.
Proof.
  constructor;
    first [ apply demo_tens; [simpl; lia | reflexivity]
          | split; [reflexivity|]; split; [reflexivity|];
            split; apply demo_tens; first [simpl; lia | reflexivity] ].
Qed.

Lemma demo_frame_ok (mode : string) (d : Device) :
  frame_ok (demo_store d) (demo_cell mode) 1 d demo_frame.
Proof. apply demo_tens; [unfold demo_frame; lia | reflexivity]. Qed.

Lemma demo_state_ok (mode : string) (d : Device) :
  state_ok (demo_store d) (demo_cell mode) 1 d (demo_H, demo_C).
Proof.
  split; apply demo_tens; first [unfold demo_H, demo_C; simpl; lia | reflexivity].
Qed.

Lemma boundedSigmoid_0 : Spec.boundedSigmoid 0 = 0.5%R.
Proof.
  unfold Spec.boundedSigmoid, Spec.clamp, Rmin, Rmax.
  repeat destruct Rle_dec; lra.
Qed.

Lemma tanh_zero : tanh 0 = 0%R.
Proof. unfold tanh. rewrite sinh_0. lra. Qed.

Lemma demo_conv_zero (m : string) (d : Device) (cv : nn.Conv2d) (x : ref) :
  In cv [Wxi (demo_cell m); Whi (demo_cell m); Wxf (demo_cell m); Whf (demo_cell m);
         Wxo (demo_cell m); Who (demo_cell m); Wxc (demo_cell m); Whc (demo_cell m)] ->
  x = demo_frame \/ x = demo_H ->
  Spec.Conv (demo_store d) cv x 0 0 0 0 = 0%R.
Proof.
  intros Hcv Hx. simpl in Hcv.
  repeat (destruct Hcv as [<- | Hcv]); try contradiction;
    destruct Hx as [-> | ->];
    unfold Spec.Conv, Torch.conv2d_val, Torch.sum_upto; simpl; lra.
Qed.

Lemma demo_gates (m : string) :
  let S := demo_store (cuda 0) in
  let self := demo_cell m in
  Spec.gate_i S self demo_frame demo_H demo_C 0 0 0 0 = 0.5%R /\
  Spec.gate_f S self demo_frame demo_H demo_C 0 0 0 0 = 0.5%R /\
  Spec.cand_pre S self demo_frame demo_H 0 0 0 0 = 0%R /\
  (forall Ct : nat -> nat -> nat -> nat -> R,
      Ct 0 0 0 0 = 0%R -> Spec.gate_o S self demo_frame demo_H Ct 0 0 0 0 = 0.5%R).
Proof.
  intros S self.
  assert (Hc : forall cv x,
             In cv [Wxi self; Whi self; Wxf self; Whf self;
                    Wxo self; Who self; Wxc self; Whc self] ->
             x = demo_frame \/ x = demo_H -> Spec.Conv S cv x 0 0 0 0 = 0%R)
    by (intros cv x; apply demo_conv_zero).
  unfold Spec.gate_i, Spec.gate_f, Spec.cand_pre, Spec.gate_o.
  rewrite !Hc by (simpl; auto 10).
  unfold Spec.peep, Spec.tied, Spec.prev_cell. simpl.
  repeat split.
  - rewrite <- boundedSigmoid_0. f_equal. lra.
  - rewrite <- boundedSigmoid_0. f_equal. lra.
  - lra.
  - intros Ct ->. rewrite <- boundedSigmoid_0. f_equal. lra.
Qed.

Lemma demo_states (m : string) :
  let S := demo_store (cuda 0) in
  let self := demo_cell m in
  Spec.Ct_mul S self demo_frame demo_H demo_C 0 0 0 0 = 0%R /\
  Spec.Ht_mul S self demo_frame demo_H demo_C 0 0 0 0 = 0%R /\
  Spec.Ct_sub S self demo_frame demo_H demo_C 0 0 0 0 = 0%R /\
  Spec.Ht_sub S self demo_frame demo_H demo_C 0 0 0 0 = 0%R.
Proof.
  intros S self. destruct (demo_gates m) as (Hi & Hf & Hz & Ho).
  fold S self in Hi, Hf, Hz, Ho.
  assert (Hp : Spec.prev_cell S demo_C 0 0 0 0 = 0%R) by reflexivity.
  assert (Cm : Spec.Ct_mul S self demo_frame demo_H demo_C 0 0 0 0 = 0%R).
  { unfold Spec.Ct_mul. rewrite Hi, Hf, Hz, Hp, tanh_zero. lra. }
  assert (Cs : Spec.Ct_sub S self demo_frame demo_H demo_C 0 0 0 0 = 0%R).
  { unfold Spec.Ct_sub. rewrite Hi, Hf, Hz, Hp, boundedSigmoid_0. lra. }
  repeat split; try assumption.
  - unfold Spec.Ht_mul. rewrite (Ho _ Cm), Cm, tanh_zero. lra.
  - unfold Spec.Ht_sub. rewrite (Ho _ Cs), Cs, boundedSigmoid_0. lra.
Qed.

Lemma demo_peepholes_one (m : string) (d : Device) :
  peepholes_one (demo_store d) (demo_cell m).
Proof. intros k y x _ _ _. repeat split. Qed.

(** ** The devices forward accepts *)

(** Whatever the input, the first comparison with a bound decides. *)
Lemma hard_sigmoid_raises (a : ref) (s : store) :
  a < length s -> ~ hs_input_ok (val s a) ->
  hard_sigmoid a s = Err DeviceError.
Proof.
  intros Ha Hno.
  destruct (device (val s a)) as [|j] eqn:Hd.
  - apply hard_sigmoid_cpu_raises; [exact Ha | exact Hd |].
    intros Hs. apply Hno. right. now split.
  - assert (Hj : j <> 0) by (intros ->; apply Hno; now left).
    unfold hard_sigmoid, torch_tensor.
    eapply bind_fails; [apply run_alloc|]. intros l0 s1 [-> ->].
    eapply bind_fails;
      [apply run_cuda_copy; [rewrite !length_snoc; lia | now rewrite val_new]|].
    intros lower s2 [-> ->]. rewrite val_new.
    eapply bind_fails; [apply run_alloc|]. intros u0 s3 [-> ->].
    eapply bind_fails;
      [apply run_cuda_copy; [rewrite !length_snoc; lia | now rewrite val_new]|].
    intros upper s4 [-> ->]. rewrite val_new.
    set (s4 := ((s ++ _) ++ _) ++ _).
    assert (L4 : length s4 = 3 + length s)
      by (unfold s4; rewrite !length_snoc; lia).
    assert (E4 : ext s (s4 ++ [Torch.to (cuda 0) (Torch.full [] cpu 1%R)])).
    { unfold s4. rewrite <- !app_assoc. apply ext_app. }
    unfold tensor_mul_scalar, tensor_add_scalar.
    eapply bind_fails; [apply run_lift1; rewrite length_snoc; lia|].
    intros t1 s5 [-> ->]. rewrite (val_ext E4 Ha).
    eapply bind_fails; [apply run_lift1; rewrite !length_snoc; lia|].
    intros t2 s6 [-> ->]. rewrite val_new.
    set (s5 := (s4 ++ _) ++ _).
    set (v6 := Torch.map _ (Torch.map _ _)).
    unfold bind, torch_min.
    rewrite (@lift2_fails Torch.minimum (length s5) (length s4) (s5 ++ [v6]) DeviceError);
      [reflexivity | rewrite length_snoc; lia
       | unfold s5; rewrite !length_snoc; lia |].
    rewrite val_new.
    rewrite (val_old s5 v6) by (unfold s5; rewrite !length_snoc; lia).
    unfold s5. rewrite (val_old (s4 ++ _)) by (rewrite !length_snoc; lia).
    rewrite val_new.
    unfold Torch.minimum, Torch.binop, Torch.common_device.
    unfold v6. simpl. rewrite Hd.
    destruct (j =? 0) eqn:E; [apply Nat.eqb_eq in E; contradiction | reflexivity].
Qed.

(** In either mode, a run of [forward] on a cell, a frame and a state that
    meet its contract leaves results with these elements. *)
Lemma forward_run (s : store) (self : ConvLSTMCell) (B : nat) (Xt : ref) (st : ref * ref) :
  valid_config self -> cell_ok s self (cuda 0) ->
  frame_ok s self B (cuda 0) Xt -> state_ok s self B (cuda 0) st ->
  wp (forward self Xt st) s
     (if String.eqb (gating_mode self) "mul"
      then run_post s self B (Spec.Ht_mul s self Xt (fst st) (snd st))
                    (Spec.Ct_mul s self Xt (fst st) (snd st))
      else run_post s self B (Spec.Ht_sub s self Xt (fst st) (snd st))
                    (Spec.Ct_sub s self Xt (fst st) (snd st))).
Proof.
  intros Hv Hc HX Hst.
  destruct (String.eqb (gating_mode self) "mul") eqn:E.
  - apply String.eqb_eq in E. now apply forward_mul_run.
  - apply String.eqb_neq in E. now apply forward_sub_run.
Qed.

(** ** What torch rejects on behalf of forward *)

Lemma device_eqb_spec (a b : Device) : device_eqb a b = true <-> a = b.
Proof.
  destruct a as [|i], b as [|j]; simpl; split; intros H;
    try reflexivity; try discriminate.
  - apply Nat.eqb_eq in H. now subst.
  - injection H as ->. apply Nat.eqb_refl.
Qed.

Lemma device_eqb_neq (a b : Device) : a <> b -> device_eqb a b = false.
Proof.
  intros H. destruct (device_eqb a b) eqn:E; [|reflexivity].
  apply device_eqb_spec in E. contradiction.
Qed.

Lemma Device_eq_dec (a b : Device) : a = b \/ a <> b.
Proof.
  destruct (device_eqb a b) eqn:E.
  - left. now apply device_eqb_spec.
  - right. intros H. apply device_eqb_spec in H. congruence.
Qed.

(** A convolution whose [F.conv2d] raises. *)
Lemma conv_call_fails (s : store) (cv : nn.Conv2d) (x : ref) (e : exn) :
  x < length s -> nn.weight cv < length s ->
  match nn.bias cv with Some b => b < length s | None => True end ->
  Torch.conv2d (val s x) (val s (nn.weight cv)) (option_map (val s) (nn.bias cv))
               (nn.stride cv) (nn.padding cv) = Err e ->
  nn.Conv2d_call cv x s = Err e.
Proof.
  intros Hx Hw Hb Hconv. unfold nn.Conv2d_call, bind, read, read_opt.
  rewrite (nth_error_val s Hx), (nth_error_val s Hw).
  destruct (nn.bias cv) as [rb|]; cbn [option_map] in Hconv.
  - unfold bind, read, ret. rewrite (nth_error_val s Hb).
    unfold raise_or. now rewrite Hconv.
  - unfold ret, raise_or. now rewrite Hconv.
Qed.

Lemma conv_refs_bound (s0 s : store) (cv : nn.Conv2d) (cin cout : nat) (k : nat * nat)
      (d : Device) :
  ext s0 s -> conv_ok s0 cv cin cout k d ->
  nn.weight cv < length s /\
  match nn.bias cv with Some b => b < length s | None => True end.
Proof.
  intros He (_ & _ & Hw0 & Hb0).
  split; [apply (tens_ext He Hw0)|].
  destruct (nn.bias cv); [apply (tens_ext He Hb0) | exact I].
Qed.

(** A convolution called on an input that lives on another device. *)
Lemma conv_call_other_device (s0 s : store) (cv : nn.Conv2d) (x : ref)
      (B C H W cin cout : nat) (k : nat * nat) (d dx : Device) :
  ext s0 s -> conv_ok s0 cv cin cout k d -> tens s0 x [B; C; H; W] dx -> dx <> d ->
  nn.Conv2d_call cv x s = Err DeviceError.
Proof.
  intros He Hc Hx0 Hd.
  destruct (conv_refs_bound He Hc) as [Hw Hb].
  destruct Hc as (_ & _ & Hw0 & _).
  pose proof (tens_ext He Hw0) as (_ & Sw & Dw).
  pose proof (tens_ext He Hx0) as (Hx & Sx & Dx).
  apply conv_call_fails; try assumption.
  unfold Torch.conv2d. rewrite Sx, Sw, Dx, Dw, (device_eqb_neq Hd). reflexivity.
Qed.

(** A convolution called on an input with another number of channels. *)
Lemma conv_call_other_channels (s0 s : store) (cv : nn.Conv2d) (x : ref)
      (B C H W cin cout : nat) (k : nat * nat) (d : Device) :
  ext s0 s -> conv_ok s0 cv cin cout k d -> tens s0 x [B; C; H; W] d -> C <> cin ->
  nn.Conv2d_call cv x s = Err ShapeError.
Proof.
  intros He Hc Hx0 Hd.
  destruct (conv_refs_bound He Hc) as [Hw Hb].
  destruct Hc as (_ & _ & Hw0 & Hb0).
  pose proof (tens_ext He Hw0) as (_ & Sw & Dw).
  pose proof (tens_ext He Hx0) as (Hx & Sx & Dx).
  apply conv_call_fails; try assumption.
  unfold Torch.conv2d. rewrite Sx, Sw, Dx, Dw, device_eqb_refl. cbn [negb].
  assert (Hbias : Torch.bias_ok (option_map (val s) (nn.bias cv)) cout d = Ok tt).
  { destruct (nn.bias cv) as [rb|]; [|reflexivity].
    pose proof (tens_ext He Hb0) as (_ & Sb & Db). cbn [option_map].
    unfold Torch.bias_ok. now rewrite Db, device_eqb_refl, Sb, Nat.eqb_refl. }
  rewrite Hbias.
  destruct (C =? cin) eqn:E; [apply Nat.eqb_eq in E; contradiction | reflexivity].
Qed.

(** Operands on two devices, neither of them 0-dim. *)
Lemma binop_other_device (f : R -> R -> R) (a b : tensor) :
  device a <> device b -> shape a <> [] -> shape b <> [] ->
  Torch.binop f a b = Err DeviceError.
Proof.
  intros Hd Ha Hb. unfold Torch.binop, Torch.common_device, Torch.is_scalar.
  destruct (device a) as [|i], (device b) as [|j].
  - contradiction.
  - destruct (shape a); [contradiction | reflexivity].
  - destruct (shape b); [contradiction | reflexivity].
  - destruct (i =? j) eqn:E; [apply Nat.eqb_eq in E; subst; contradiction | reflexivity].
Qed.

(** Two 4-D operands with a dimension of different sizes, neither of them
    1, do not broadcast. *)
Lemma broadcast_dim_clash (a b : nat) : clash a b -> Torch.broadcast_dim a b = Err ShapeError.
Proof.
  intros (H1 & H2 & H3). unfold Torch.broadcast_dim.
  destruct (a =? b) eqn:E1; [apply Nat.eqb_eq in E1; contradiction|].
  destruct (a =? 1) eqn:E2; [apply Nat.eqb_eq in E2; contradiction|].
  destruct (b =? 1) eqn:E3; [apply Nat.eqb_eq in E3; contradiction | reflexivity].
Qed.

Lemma binop_clash (f : R -> R -> R) (a b : tensor) (B1 C1 H1 W1 B2 C2 H2 W2 : nat)
      (d : Device) :
  shape a = [B1; C1; H1; W1] -> shape b = [B2; C2; H2; W2] ->
  device a = d -> device b = d ->
  clash B1 B2 \/ clash C1 C2 \/ clash H1 H2 \/ clash W1 W2 ->
  Torch.binop f a b = Err ShapeError.
Proof.
  intros Sa Sb Da Db Hc. unfold Torch.binop.
  rewrite (common_device_same _ _ Da Db), Sa, Sb.
  unfold Torch.broadcast_shapes. simpl.
  destruct (Torch.broadcast_dim W1 W2) as [w|e] eqn:EW;
    [|now rewrite (broadcast_dim_error _ _ EW)].
  destruct (Torch.broadcast_dim H1 H2) as [h|e] eqn:EH;
    [|now rewrite (broadcast_dim_error _ _ EH)].
  destruct (Torch.broadcast_dim C1 C2) as [c|e] eqn:EC;
    [|now rewrite (broadcast_dim_error _ _ EC)].
  destruct (Torch.broadcast_dim B1 B2) as [b0|e] eqn:EB;
    [|now rewrite (broadcast_dim_error _ _ EB)].
  destruct Hc as [Hc | [Hc | [Hc | Hc]]]; apply broadcast_dim_clash in Hc; congruence.
Qed.

(** With everything on one device that is not cuda:0, [forward] raises at
    its first [hard_sigmoid]. *)
Lemma forward_off_device (s : store) (self : ConvLSTMCell) (B : nat) (Xt : ref)
      (st : ref * ref) (d : Device) :
  valid_config self -> cell_ok s self d ->
  frame_ok s self B d Xt -> state_ok s self B d st -> d <> cuda 0 ->
  forward self Xt st s = Err DeviceError.
Proof.
  intros (Hk1 & Hk2 & Hih & Hiw) Hcell HX [HH HC] Hd.
  destruct st as [Htm1 Ctm1]. simpl fst in *. simpl snd in *.
  unfold frame_ok in HX.
  assert (HvC : holds4 s Ctm1 B (hidden_dim self) (fst (input_size self))
                       (snd (input_size self)) d (Spec.prev_cell s Ctm1))
    by (split; [exact HC | reflexivity]).
  pose proof (ext_refl s) as Hgrow.
  unfold forward.
  conv_fstep ok_Wxi. conv_fstep ok_Whi.
  fstep ltac:(eapply step_binop44; eassumption).
  fstep ltac:(eapply step_peep; [eassumption | apply ok_Wci; eassumption | eassumption]).
  fstep ltac:(eapply step_binop44; eassumption).
  fstep ltac:(eapply step_tied; [eassumption | eassumption | apply ok_bi; eassumption]).
  match goal with
  | Hv : holds4 ?s' ?r _ _ _ _ d _ |- bind (hard_sigmoid ?r) _ ?s' = _ =>
      destruct Hv as [(Hr & Hs & Hdv) _];
      unfold bind; rewrite (@hard_sigmoid_raises r s' Hr); [reflexivity|];
      intros [Hok | [_ Hok]]; [congruence | rewrite Hs in Hok; discriminate]
  end.
Qed.

(** With the parameters of the cell, the frame or a state tensor off
    cuda:0, [forward] raises a device error: at the first convolution that
    meets an input on another device than its weight, at the first product
    of a peephole tensor and a cell state on two devices, or, with
    everything on one device, at the first [hard_sigmoid]. *)
Lemma forward_elsewhere_raises (s : store) (self : ConvLSTMCell) (B : nat)
      (Xt Htm1 Ctm1 : ref) (d dx dh dc : Device) :
  valid_config self -> cell_ok s self d ->
  tens s Xt [B; input_dim self; fst (input_size self); snd (input_size self)] dx ->
  tens s Htm1 [B; hidden_dim self; fst (input_size self); snd (input_size self)] dh ->
  tens s Ctm1 [B; hidden_dim self; fst (input_size self); snd (input_size self)] dc ->
  ~ (d = cuda 0 /\ dx = cuda 0 /\ dh = cuda 0 /\ dc = cuda 0) ->
  forward self Xt (Htm1, Ctm1) s = Err DeviceError.
Proof.
  intros Hv Hcell HX HH HC Hno.
  pose proof Hv as (Hk1 & Hk2 & Hih & Hiw).
  pose proof (ext_refl s) as Hgrow.
  destruct (Device_eq_dec dx d) as [-> | Hdx].
  2:{ unfold forward, bind.
      now rewrite (conv_call_other_device Hgrow (ok_Wxi Hcell) HX Hdx). }
  destruct (Device_eq_dec dh d) as [-> | Hdh].
  2:{ unfold forward.
      conv_fstep ok_Wxi.
      unfold bind.
      match goal with
      | He : ext s ?s' |- _ =>
          now rewrite (conv_call_other_device He (ok_Whi Hcell) HH Hdh)
      end. }
  destruct (Device_eq_dec dc d) as [-> | Hdc].
  2:{ unfold forward.
      conv_fstep ok_Wxi. conv_fstep ok_Whi.
      fstep ltac:(eapply step_binop44; eassumption).
      match goal with
      | He : ext s ?s' |- bind (tensor_mul ?a ?b) _ ?s' = _ =>
          pose proof (tens_ext He (ok_Wci Hcell)) as (Hra & Hsa & Hda);
          pose proof (tens_ext He HC) as (Hrb & Hsb & Hdb);
          unfold bind, tensor_mul;
          rewrite (@lift2_fails Torch.mul a b s' DeviceError Hra Hrb); [reflexivity|];
          apply binop_other_device;
          [rewrite Hda, Hdb; congruence | rewrite Hsa; discriminate
           | rewrite Hsb; discriminate]
      end. }
  apply (@forward_off_device s self B Xt (Htm1, Ctm1) d); try assumption.
  - now split.
  - intros ->. apply Hno. auto.
Qed.

(** The four devices are all cuda:0, or they are not. *)
Lemma all_cuda0_dec (d dx dh dc : Device) :
  (d = cuda 0 /\ dx = cuda 0 /\ dh = cuda 0 /\ dc = cuda 0) \/
  ~ (d = cuda 0 /\ dx = cuda 0 /\ dh = cuda 0 /\ dc = cuda 0).
Proof.
  destruct (Device_eq_dec d (cuda 0)) as [-> | H]; [|right; tauto].
  destruct (Device_eq_dec dx (cuda 0)) as [-> | H]; [|right; tauto].
  destruct (Device_eq_dec dh (cuda 0)) as [-> | H]; [|right; tauto].
  destruct (Device_eq_dec dc (cuda 0)) as [-> | H]; [|right; tauto].
  left. auto.
Qed.

Lemma holds4_tens (s : store) (r : ref) B C H W d g :
  holds4 s r B C H W d g -> tens s r [B; C; H; W] d.
Proof. now intros [Ht _]. Qed.

(** The object at position [k] of what was added to a store. *)
Lemma val_app (s new : store) (k : nat) :
  val (s ++ new) (k + length s) = nth k new (Torch.full [] cpu 0%R).
Proof. unfold val. rewrite app_nth2 by lia. f_equal. lia. Qed.

(** ** Sums and convolutions of zeros *)

Lemma fold_seq_zero (f : nat -> R) (a n : nat) :
  (forall k, a <= k < a + n -> f k = 0%R) ->
  fold_right (fun k acc => (f k + acc)%R) 0%R (seq a n) = 0%R.
Proof.
  revert a. induction n as [|n IH]; intros a H; [reflexivity|].
  simpl. rewrite (H a) by lia. rewrite IH by (intros k Hk; apply H; lia). lra.
Qed.

Lemma sum_upto_zero (n : nat) (f : nat -> R) :
  (forall k, k < n -> f k = 0%R) -> Torch.sum_upto n f = 0%R.
Proof. intros H. apply fold_seq_zero. intros k Hk. apply H. lia. Qed.

Lemma padded_zero (input : tensor) (B C H W ph pw n c a b : nat) :
  (forall n c y x, n < B -> c < C -> y < H -> x < W -> data input [n; c; y; x] = 0%R) ->
  n < B -> c < C ->
  Torch.padded input H W ph pw n c a b = 0%R.
Proof.
  intros Hz Hn Hc. unfold Torch.padded.
  destruct ((ph <=? a) && (a <? ph + H) && (pw <=? b) && (b <? pw + W)) eqn:E;
    [|reflexivity].
  apply andb_true_iff in E as [E E4]. apply andb_true_iff in E as [E E3].
  apply andb_true_iff in E as [E1 E2].
  apply Nat.leb_le in E1, E3. apply Nat.ltb_lt in E2, E4.
  apply Hz; lia.
Qed.

(** A convolution without a bias, or with a zero bias, of an input of
    zeros is zero, whatever its weight. *)
Lemma conv_of_zero (s : store) (cv : nn.Conv2d) (x : ref) (B C H W cout : nat)
      (k : nat * nat) (d dx : Device) (n c y x' : nat) :
  conv_ok s cv C cout k d -> holds4 s x B C H W dx zero4 ->
  (forall b, nn.bias cv = Some b -> data (val s b) [c] = 0%R) ->
  n < B ->
  Spec.Conv s cv x n c y x' = 0%R.
Proof.
  intros (_ & _ & (_ & Sw & _) & _) [(_ & Sx & _) Hz] Hb Hn.
  unfold Spec.Conv, Torch.conv2d_val. rewrite Sx, Sw.
  assert (E0 : (match option_map (val s) (nn.bias cv) with
                | Some b => data b [c]
                | None => 0
                end = 0)%R).
  { destruct (nn.bias cv) as [b|]; [apply (Hb b eq_refl) | reflexivity]. }
  rewrite E0.
  rewrite sum_upto_zero; [lra|].
  intros ci Hci. apply sum_upto_zero. intros ky Hky. apply sum_upto_zero. intros kx Hkx.
  rewrite (@padded_zero (val s x) B C H W) by assumption. lra.
Qed.

(** ** A cell at rest: zero biases, a zero frame and a zero state *)

Section AtRest.

Variable s : store.
Variable self : ConvLSTMCell.
Variable B : nat.
Variables Xt Htm1 Ctm1 : ref.
Variable d : Device.

Hypothesis Hcell : cell_ok s self d.
Hypothesis Hbias : zero_biases s self.
Hypothesis HX : holds4 s Xt B (input_dim self) (fst (input_size self))
                       (snd (input_size self)) d zero4.
Hypothesis HH : holds4 s Htm1 B (hidden_dim self) (fst (input_size self))
                       (snd (input_size self)) d zero4.
Hypothesis HC : holds4 s Ctm1 B (hidden_dim self) (fst (input_size self))
                       (snd (input_size self)) d zero4.

Variables n c y x : nat.
Hypothesis Hn : n < B.
Hypothesis Hc : c < hidden_dim self.
Hypothesis Hy : y < fst (input_size self).
Hypothesis Hx : x < snd (input_size self).

Lemma rest_conv_x (cv : nn.Conv2d) :
  In cv (convolutions self) ->
  conv_ok s cv (input_dim self) (hidden_dim self) (kernel_size self) d ->
  Spec.Conv s cv Xt n c y x = 0%R.
Proof.
  intros Hin Hok. eapply conv_of_zero; [exact Hok | exact HX | | exact Hn].
  intros b Eb. apply (proj1 Hbias cv b c Hin Eb Hc).
Qed.

Lemma rest_conv_h (cv : nn.Conv2d) :
  In cv (convolutions self) ->
  conv_ok s cv (hidden_dim self) (hidden_dim self) (kernel_size self) d ->
  Spec.Conv s cv Htm1 n c y x = 0%R.
Proof.
  intros Hin Hok. eapply conv_of_zero; [exact Hok | exact HH | | exact Hn].
  intros b Eb. apply (proj1 Hbias cv b c Hin Eb Hc).
Qed.

Lemma rest_prev : Spec.prev_cell s Ctm1 n c y x = 0%R.
Proof. unfold Spec.prev_cell. now apply (proj2 HC). Qed.

Lemma rest_gate_i : Spec.gate_i s self Xt Htm1 Ctm1 n c y x = 0.5%R.
Proof.
  unfold Spec.gate_i.
  rewrite (@rest_conv_x (Wxi self)), (@rest_conv_h (Whi self)), rest_prev;
    [| unfold convolutions; simpl; tauto | apply Hcell
     | unfold convolutions; simpl; tauto | apply Hcell].
  destruct (proj2 Hbias c Hc) as (-> & _).
  rewrite <- boundedSigmoid_0. f_equal. lra.
Qed.

Lemma rest_gate_f : Spec.gate_f s self Xt Htm1 Ctm1 n c y x = 0.5%R.
Proof.
  unfold Spec.gate_f.
  rewrite (@rest_conv_x (Wxf self)), (@rest_conv_h (Whf self)), rest_prev;
    [| unfold convolutions; simpl; tauto | apply Hcell
     | unfold convolutions; simpl; tauto | apply Hcell].
  destruct (proj2 Hbias c Hc) as (_ & -> & _).
  rewrite <- boundedSigmoid_0. f_equal. lra.
Qed.

Lemma rest_cand : Spec.cand_pre s self Xt Htm1 n c y x = 0%R.
Proof.
  unfold Spec.cand_pre.
  rewrite (@rest_conv_x (Wxc self)), (@rest_conv_h (Whc self));
    [| unfold convolutions; simpl; tauto | apply Hcell
     | unfold convolutions; simpl; tauto | apply Hcell].
  destruct (proj2 Hbias c Hc) as (_ & _ & -> & _). lra.
Qed.

Lemma rest_gate_o (Ct : nat -> nat -> nat -> nat -> R) :
  Ct n c y x = 0%R -> Spec.gate_o s self Xt Htm1 Ct n c y x = 0.5%R.
Proof.
  intros E. unfold Spec.gate_o.
  rewrite (@rest_conv_x (Wxo self)), (@rest_conv_h (Who self)), E;
    [| unfold convolutions; simpl; tauto | apply Hcell
     | unfold convolutions; simpl; tauto | apply Hcell].
  destruct (proj2 Hbias c Hc) as (_ & _ & _ & ->).
  rewrite <- boundedSigmoid_0. f_equal. lra.
Qed.

Lemma rest_Ct_mul : Spec.Ct_mul s self Xt Htm1 Ctm1 n c y x = 0%R.
Proof.
  unfold Spec.Ct_mul. rewrite rest_gate_i, rest_gate_f, rest_cand, rest_prev, tanh_zero. lra.
Qed.

Lemma rest_Ht_mul : Spec.Ht_mul s self Xt Htm1 Ctm1 n c y x = 0%R.
Proof.
  unfold Spec.Ht_mul. rewrite rest_Ct_mul, tanh_zero. lra.
Qed.

Lemma rest_Ct_sub : Spec.Ct_sub s self Xt Htm1 Ctm1 n c y x = 0%R.
Proof.
  unfold Spec.Ct_sub.
  rewrite rest_gate_i, rest_gate_f, rest_cand, rest_prev, boundedSigmoid_0. lra.
Qed.

Lemma rest_Ht_sub : Spec.Ht_sub s self Xt Htm1 Ctm1 n c y x = 0%R.
Proof.
  unfold Spec.Ht_sub.
  rewrite (rest_gate_o (Spec.Ct_sub s self Xt Htm1 Ctm1) rest_Ct_sub).
  rewrite rest_Ct_sub, boundedSigmoid_0. lra.
Qed.

End AtRest.

Lemma demo_rest_cell_ok (mode : string) : cell_ok demo_rest (demo_cell mode) (cuda 0).
Proof.
  apply (@cell_ok_ext demo_gpu); [apply ext_app | apply demo_cell_ok].
Qed.

Lemma demo_rest_zero_biases (mode : string) : zero_biases demo_rest (demo_cell mode).
Proof.
  split.
  - intros cv b c Hin Eb _. unfold convolutions in Hin. cbn [In demo_cell] in Hin.
    repeat (destruct Hin as [<- | Hin]; [injection Eb as <-; reflexivity|]).
    contradiction.
  - intros c _. repeat split.
Qed.

Lemma demo_rest_zero (r : ref) :
  r = demo_zero_frame \/ r = demo_H \/ r = demo_C ->
  holds4 demo_rest r 1 1 1 1 (cuda 0) zero4.
Proof.
  intros [-> | [-> | ->]];
    (split; [split; [cbv; lia | split; reflexivity] | intros; reflexivity]).
Qed.

Ltac norm_refs s :=
  rewrite ?length_app, ?(Nat.add_comm (length s)); cbn [length Nat.add].

(** * The claims *)







(** C3.  [hard_sigmoid] is clamp(x * 0.2 + 0.5, 0, 1) at every element: the
    output lies in [0, 1], is 0 for x <= -2.5, 1 for x >= 2.5 and
    x * 0.2 + 0.5 in between; it is 0.5 at 0, 0.9 at 2, 1 at 3 and 0 at -3.
    (Over the reals, for an input [hard_sigmoid] accepts: one on the CUDA
    device, or a 0-dim CPU tensor.) *)
Theorem hard_sigmoid_is_clamp (s : store) (a : ref) :
  a < length s -> hs_input_ok (val s a) ->
  exists r s',
    hard_sigmoid a s = Ok (r, s') /\
    shape (val s' r) = shape (val s a) /\
    forall idx, in_shape (shape (val s a)) idx ->
      let x := data (val s a) idx in
      let y := data (val s' r) idx in
      (y = Spec.clamp (x * 0.2 + 0.5) 0 1 /\
       0 <= y <= 1 /\
       (x <= -2.5 -> y = 0) /\
       (2.5 <= x -> y = 1) /\
       (-2.5 < x < 2.5 -> y = x * 0.2 + 0.5) /\
       (x = 0 -> y = 0.5) /\ (x = 2 -> y = 0.9) /\
       (x = 3 -> y = 1) /\ (x = -3 -> y = 0))%R.
Proof.
  intros Ha Hok.
  destruct (hard_sigmoid_run s Ha Hok) as (r & s' & Hrun & _ & _ & Hs & _ & Hg).
  exists r, s'. split; [exact Hrun|]. split; [exact Hs|].
  intros idx Hidx. cbv zeta. rewrite (Hg idx Hidx), clamp_max_min.
  unfold Spec.clamp, Rmin, Rmax.
  repeat destruct Rle_dec; repeat split; intros; lra.
Qed.

Lemma hard_sigmoid_is_clamp_witness :
  exists r s',
    hard_sigmoid 0 [Torch.full [] cpu 2%R] = Ok (r, s') /\
    data (val s' r) [] = 0.9%R.
Proof.
  destruct (@hard_sigmoid_is_clamp [Torch.full [] cpu 2%R] 0) as (r & s' & Hrun & _ & Hg).
  - simpl. lia.
  - right. split; reflexivity.
  - exists r, s'. split; [exact Hrun|].
    apply (Hg []); [constructor | reflexivity].
Defined.




(** C5 (as amended).  A gating-mode string other than 'mul' is never
    rejected: the constructor returns a cell for every string, and [forward]
    runs the subtractive branch for it, exactly as for 'sub'. *)
Theorem unknown_mode_runs_sub (mode : string) :
  mode <> "mul"%string ->
  (forall isz idim hdim k peep tb rng s,
      exists c s',
        __init__ isz idim hdim k mode peep tb rng s = Ok (c, s') /\
        gating_mode c = mode) /\
  (forall self Xt st s,
      gating_mode self = mode ->
      forward self Xt st s = forward (with_gating_mode "sub" self) Xt st s).
Proof.
  intros Hne. split.
  - intros isz idim hdim k peep tb rng s.
    destruct (init_returns isz idim hdim k mode peep tb rng s)
      as (c & s' & Hrun & Hm & _).
    now exists c, s'.
  - intros self Xt st s Hm. now apply (forward_not_mul self Xt st s Hne).
Qed.

Lemma unknown_mode_runs_sub_witness :
  forward (demo_cell "foo") demo_frame demo_state demo_gpu
  = forward (with_gating_mode "sub" (demo_cell "foo")) demo_frame demo_state demo_gpu.
Proof.
  unfold demo_gpu, demo_state.
  destruct (@unknown_mode_runs_sub "foo") as [_ Hf].
  - discriminate.
  - apply Hf. reflexivity.
Defined.

(** C5, the claim as stated, fails: a cell built with the mode string
    'foo' is constructed without error and its first [forward] call returns
    a result. *)
Lemma unknown_mode_is_not_rejected :
  exists model x st s r s',
    demo_setup "foo" true [] = Ok ((model, x, st), s) /\
    gating_mode model = "foo"%string /\
    forward model x st s = Ok (r, s').
Proof.
  assert (Hne : gating_mode (demo_cell "foo") <> "mul"%string) by discriminate.
  destruct (forward_sub_run (demo_valid "foo") (demo_cell_ok "foo" (cuda 0))
                            (demo_frame_ok "foo" (cuda 0)) (demo_state_ok "foo" (cuda 0))
                            Hne)
    as (r & s' & Hrun & _).
  exists (demo_cell "foo"), demo_frame, (demo_H, demo_C), (demo_store (cuda 0)), r, s'.
  split; [apply demo_setup_gpu|]. split; [reflexivity | exact Hrun].
Qed.

(** The peephole flag is never read: the run of [forward] is the same,
    result, store and exception alike, whatever the flag is set to. *)
Remark forward_ignores_peephole (b : bool) (self : ConvLSTMCell) (Xt : ref)
      (st : ref * ref) (s : store) :
  forward (with_peephole b self) Xt st s = forward self Xt st s.
Proof. reflexivity. Qed.

(** C6.  The peephole flag does not decide whether the peephole tensors
    are trainable.  The constructor passes it as [requires_grad] to
    [torch.ones], and wraps the result in [Parameter], whose own
    [requires_grad] is True: built with [peephole=False] or with
    [peephole=True], the cell has the same parameters in the same store, the
    two cells differ in the recorded flag only, and Wci, Wcf and Wco require
    gradients either way.  [forward] does not read the flag, so that the
    flag changes neither what [forward] computes nor what training may
    change. *)
Theorem peephole_flag_leaves_tensors_trainable
        (isz : nat * nat) (idim hdim : nat) (k : nat * nat) (mode : string)
        (tb : bool) (rng : string -> nn.conv_init) (s : store) :
  exists c s',
    __init__ isz idim hdim k mode false tb rng s = Ok (c, s') /\
    __init__ isz idim hdim k mode true tb rng s = Ok (with_peephole true c, s') /\
    peephole c = false /\
    requires_grad (val s' (Wci c)) = true /\
    requires_grad (val s' (Wcf c)) = true /\
    requires_grad (val s' (Wco c)) = true /\
    forall Xt st s1, forward (with_peephole true c) Xt st s1 = forward c Xt st s1.
Proof.
  destruct tb.
  - eexists. eexists. split.
    + lazy beta iota zeta delta [__init__ nn.Conv2d_new register_parameter bind alloc
                                   ret contains negb orb Ascii.eqb Bool.eqb].
      rewrite <- !app_assoc. cbn [app]. reflexivity.
    + split.
      * lazy beta iota zeta delta [__init__ nn.Conv2d_new register_parameter bind alloc
                                     ret contains negb orb Ascii.eqb Bool.eqb].
        rewrite <- !app_assoc. cbn [app]. reflexivity.
      * split; [reflexivity|].
        cbn [Wci Wcf Wco]. norm_refs s.
        split; [exact (f_equal requires_grad (val_app s _ 8))|].
        split; [exact (f_equal requires_grad (val_app s _ 9))|].
        split; [exact (f_equal requires_grad (val_app s _ 10))|].
        intros Xt st s1. reflexivity.
  - eexists. eexists. split.
    + lazy beta iota zeta delta [__init__ nn.Conv2d_new register_parameter bind alloc
                                   ret contains negb orb Ascii.eqb Bool.eqb].
      rewrite <- !app_assoc. cbn [app]. reflexivity.
    + split.
      * lazy beta iota zeta delta [__init__ nn.Conv2d_new register_parameter bind alloc
                                     ret contains negb orb Ascii.eqb Bool.eqb].
        rewrite <- !app_assoc. cbn [app]. reflexivity.
      * split; [reflexivity|].
        cbn [Wci Wcf Wco]. norm_refs s.
        split; [exact (f_equal requires_grad (val_app s _ 16))|].
        split; [exact (f_equal requires_grad (val_app s _ 17))|].
        split; [exact (f_equal requires_grad (val_app s _ 18))|].
        intros Xt st s1. reflexivity.
Qed.




(** C8.  The claim fails on the module's own kind of run: with the cell as
    the constructor leaves it (parameters on the CPU), a CPU frame and the
    state of [init_hidden], all of the configured shapes, [forward] raises a
    device error, because [hard_sigmoid] moves its two bounds to the CUDA
    device whatever device its input is on. *)
Theorem forward_on_cpu_device_error :
  exists model x st s,
    demo_setup "mul" false [] = Ok ((model, x, st), s) /\
    cell_ok s model cpu /\ frame_ok s model 1 cpu x /\ state_ok s model 1 cpu st /\
    forward model x st s = Err DeviceError.
Proof.
  exists (demo_cell "mul"), demo_frame, (demo_H, demo_C), (demo_store cpu).
  split; [apply demo_setup_cpu|].
  split; [apply demo_cell_ok|]. split; [apply demo_frame_ok|].
  split; [apply demo_state_ok|].
  apply (@forward_cpu_raises _ _ 1).
  - apply demo_valid.
  - apply demo_cell_ok.
  - apply demo_frame_ok.
  - apply demo_state_ok.
Qed.

(** C9.  For every batch size, [init_hidden] returns two tensors whose
    elements are all zero, each of shape [batch_size; hidden_dim; h; w] with
    (h, w) the configured input size, both on the device of the weight of
    the input-side convolution [Wxi]; the call only adds these two objects
    to the store (no object that existed, the cell's parameters among them,
    changes), and a second call with the same batch size returns equal
    tensors. *)
Theorem init_hidden_zeros (self : ConvLSTMCell) (batch_size : nat) (s : store) :
  nn.weight (Wxi self) < length s ->
  exists H0 C0 s',
    init_hidden self batch_size s = Ok ((H0, C0), s') /\
    (forall idx, data (val s' H0) idx = 0%R /\ data (val s' C0) idx = 0%R) /\
    shape (val s' H0)
    = [batch_size; hidden_dim self; fst (input_size self); snd (input_size self)] /\
    shape (val s' C0)
    = [batch_size; hidden_dim self; fst (input_size self); snd (input_size self)] /\
    device (val s' H0) = device (val s (nn.weight (Wxi self))) /\
    device (val s' C0) = device (val s (nn.weight (Wxi self))) /\
    s' = s ++ [val s' H0; val s' C0] /\
    (forall p, p < length s -> val s' p = val s p) /\
    exists H1 C1 s'',
      init_hidden self batch_size s' = Ok ((H1, C1), s'') /\
      val s'' H1 = val s' H0 /\ val s'' C1 = val s' C0.
Proof.
  intros Hw.
  pose proof (init_hidden_run self batch_size s Hw) as Hrun. cbv zeta in Hrun.
  set (z := Torch.full _ _ 0%R) in Hrun.
  destruct (val_new2 s z z) as [V0 V1].
  assert (E : ext s (s ++ [z; z])) by apply ext_app.
  exists (length s), (S (length s)), (s ++ [z; z]).
  split; [exact Hrun|]. rewrite V0, V1.
  split; [intros idx; split; reflexivity|].
  do 4 (split; [reflexivity|]). split; [reflexivity|].
  split; [intros p Hp; exact (val_ext E Hp)|].
  assert (Hw' : nn.weight (Wxi self) < length (s ++ [z; z]))
    by (pose proof (ext_length E); lia).
  pose proof (init_hidden_run self batch_size (s ++ [z; z]) Hw') as Hrun'.
  cbv zeta in Hrun'. rewrite (val_ext E Hw) in Hrun'. fold z in Hrun'.
  destruct (val_new2 (s ++ [z; z]) z z) as [V0' V1'].
  eexists. eexists. eexists. split; [exact Hrun'|].
  now rewrite V0', V1'.
Qed.

Lemma init_hidden_zeros_witness :
  exists H0 C0 s',
    init_hidden (demo_cell "mul") 3 demo_gpu = Ok ((H0, C0), s') /\
    data (val s' H0) [2; 0; 0; 0] = 0%R /\
    shape (val s' C0) = [3; 1; 1; 1] /\
    device (val s' H0) = cuda 0.
Proof.
  unfold demo_gpu, demo_state.
  destruct (@init_hidden_zeros (demo_cell "mul") 3 (demo_store (cuda 0)))
    as (H0 & C0 & s' & Hrun & Hz & SH & SC & DH & _).
  - simpl. lia.
  - exists H0, C0, s'. split; [exact Hrun|].
    split; [apply Hz|]. split; [exact SC | exact DH].
Defined.

(** C10.  [forward] mutates neither its arguments nor the parameters of the
    cell: when it returns, every object the store held before the call (the
    input frame, the previous hidden and cell state and every parameter
    among them) has the value it had, and the two results are new objects,
    distinct from each other. *)
Theorem forward_mutates_nothing (self : ConvLSTMCell) (Xt : ref) (st : ref * ref)
        (s : store) (r : ref * ref) (s' : store) :
  forward self Xt st s = Ok (r, s') ->
  (forall p, p < length s -> val s' p = val s p) /\
  (forall p, In p (Xt :: fst st :: snd st :: parameters self) ->
             p < length s -> val s' p = val s p) /\
  length s <= fst r < length s' /\
  length s <= snd r < length s' /\
  fst r <> snd r.
Proof.
  intros H. apply forward_grows in H as (He & H1 & H2 & H3).
  split; [intros p Hp; exact (val_ext He Hp)|].
  split; [intros p _ Hp; exact (val_ext He Hp)|].
  lia.
Qed.

Lemma forward_mutates_nothing_witness :
  exists r s',
    forward (demo_cell "mul") demo_frame demo_state demo_gpu = Ok (r, s') /\
    val s' demo_frame = val demo_gpu demo_frame /\
    val s' demo_C = val demo_gpu demo_C /\
    val s' (Wco (demo_cell "mul")) = val demo_gpu (Wco (demo_cell "mul")) /\
    26 <= snd r.
Proof.
  unfold demo_gpu, demo_state.
  destruct (forward_mul_run (demo_valid "mul") (demo_cell_ok "mul" (cuda 0))
                            (demo_frame_ok "mul" (cuda 0)) (demo_state_ok "mul" (cuda 0))
                            eq_refl)
    as (r & s' & Hrun & _).
  destruct (forward_mutates_nothing _ _ _ _ Hrun) as (Hall & _ & _ & Hr & _).
  exists r, s'. split; [exact Hrun|].
  split; [apply Hall; unfold demo_frame; simpl; lia|].
  split; [apply Hall; unfold demo_C; simpl; lia|].
  split; [apply Hall; simpl; lia|]. simpl in Hr. lia.
Defined.

(** * Whole sessions, for every configuration *)

(** X1.  For every valid configuration, either mode and every batch size, the
    cell the constructor builds, once moved to the GPU with [Module.cuda],
    accepts a GPU frame and the state of [init_hidden]: [forward] returns,
    and its two results have shape [B; hidden_dim; h; w]. *)
Theorem constructed_cell_runs_on_gpu (isz : nat * nat) (idim hdim : nat) (k : nat * nat)
        (mode : string) (peep tb : bool) (rng : string -> nn.conv_init) (B : nat)
        (frame : list nat -> R) (s : store) :
  Nat.odd (fst k) = true -> Nat.odd (snd k) = true ->
  1 <= fst isz -> 1 <= snd isz ->
  exists model x st s1 r s2,
    session isz idim hdim k mode peep tb rng true B frame s = Ok ((model, x, st), s1) /\
    forward model x st s1 = Ok (r, s2) /\
    shape (val s2 (fst r)) = [B; hdim; fst isz; snd isz] /\
    shape (val s2 (snd r)) = [B; hdim; fst isz; snd isz] /\
    device (val s2 (fst r)) = cuda 0 /\ device (val s2 (snd r)) = cuda 0.
Proof.
  intros K1 K2 I1 I2.
  destruct (session_gpu_run isz idim hdim k mode peep tb rng B frame s)
    as ([[model x] st] & s1 & Hrun & Hready).
  assert (Hv : valid_config model)
    by (eapply ready_valid; [exact K1 | exact K2 | exact I1 | exact I2 | exact Hready]).
  destruct Hready as (Hc & HX & Hst & _ & _ & Hs & _ & Hh & _).
  assert (Hf : wp (forward model x st) s1
                  (fun r s' => exists gH gC, run_post s1 model B gH gC r s')).
  { destruct (String.eqb (gating_mode model) "mul") eqn:E.
    - apply String.eqb_eq in E.
      eapply wp_conseq; [apply (forward_mul_run Hv Hc HX Hst E)|]. eauto.
    - apply String.eqb_neq in E.
      eapply wp_conseq; [apply (forward_sub_run Hv Hc HX Hst E)|]. eauto. }
  destruct Hf as (r & s2 & Hfw & gH & gC & _ & _ & _ & [(_ & SH & DH) _] & [(_ & SC & DC) _]).
  exists model, x, st, s1, r, s2. rewrite Hs, Hh in SH, SC. auto 10.
Qed.

Lemma constructed_cell_runs_on_gpu_witness :
  exists model x st s1 r s2,
    session (4, 4) 1 1 (3, 3) "mul" false false zero_init true 2 (fun _ => 1%R) []
    = Ok ((model, x, st), s1) /\
    forward model x st s1 = Ok (r, s2) /\
    shape (val s2 (fst r)) = [2; 1; 4; 4] /\
    shape (val s2 (snd r)) = [2; 1; 4; 4] /\
    device (val s2 (fst r)) = cuda 0 /\ device (val s2 (snd r)) = cuda 0.
Proof.
  apply (@constructed_cell_runs_on_gpu (4, 4) 1 1 (3, 3)); simpl; first [reflexivity | lia].
Defined.

(** X2.  For every valid configuration, the cell as the constructor leaves it
    (on the CPU), with a CPU frame and the state of [init_hidden], makes
    [forward] raise a device error: [hard_sigmoid] puts its bounds on the
    CUDA device. *)
Theorem constructed_cell_raises_on_cpu (isz : nat * nat) (idim hdim : nat) (k : nat * nat)
        (mode : string) (peep tb : bool) (rng : string -> nn.conv_init) (B : nat)
        (frame : list nat -> R) (s : store) :
  Nat.odd (fst k) = true -> Nat.odd (snd k) = true ->
  1 <= fst isz -> 1 <= snd isz ->
  exists model x st s1,
    session isz idim hdim k mode peep tb rng false B frame s = Ok ((model, x, st), s1) /\
    forward model x st s1 = Err DeviceError.
Proof.
  intros K1 K2 I1 I2.
  destruct (session_cpu_run isz idim hdim k mode peep tb rng B frame s)
    as ([[model x] st] & s1 & Hrun & Hready).
  assert (Hv : valid_config model)
    by (eapply ready_valid; [exact K1 | exact K2 | exact I1 | exact I2 | exact Hready]).
  destruct Hready as (Hc & HX & Hst & _).
  exists model, x, st, s1. split; [exact Hrun|].
  exact (forward_cpu_raises Hv Hc HX Hst).
Qed.

Lemma constructed_cell_raises_on_cpu_witness :
  exists model x st s1,
    session (120, 160) 3 2 (5, 5) "mul" true true zero_init false 10 (fun _ => 1%R) []
    = Ok ((model, x, st), s1) /\
    forward model x st s1 = Err DeviceError.
Proof.
  apply (@constructed_cell_raises_on_cpu (120, 160) 3 2 (5, 5)); simpl;
    first [reflexivity | lia].
Defined.

(** X3.  With an even kernel side (at least 2) and an image of at least 2
    on that side, the cell the constructor builds, on either device, with a
    frame of the configured shape and the state of [init_hidden], makes
    [forward] raise a shape error: the convolutions with padding [k // 2]
    return images one larger than the peephole tensors. *)
Theorem even_kernel_shape_error (isz : nat * nat) (idim hdim : nat) (k : nat * nat)
        (mode : string) (peep tb : bool) (rng : string -> nn.conv_init) (gpu : bool)
        (B : nat) (frame : list nat -> R) (s : store) :
  1 <= fst isz -> 1 <= snd isz ->
  (Nat.even (fst k) = true /\ 2 <= fst k /\ 2 <= fst isz) \/
  (Nat.even (snd k) = true /\ 2 <= snd k /\ 2 <= snd isz) ->
  exists model x st s1,
    session isz idim hdim k mode peep tb rng gpu B frame s = Ok ((model, x, st), s1) /\
    forward model x st s1 = Err ShapeError.
Proof.
  intros I1 I2 Heven.
  assert (Hrun : exists d, wp (session isz idim hdim k mode peep tb rng gpu B frame) s
                              (ready isz idim hdim k mode peep B d)).
  { destruct gpu; [exists (cuda 0); apply session_gpu_run | exists cpu; apply session_cpu_run]. }
  destruct Hrun as (d & [[model x] st] & s1 & Hrun & Hc & HX & Hst & _ & _ & Hs & _ & _ & Hk & _).
  exists model, x, st, s1. split; [exact Hrun|].
  apply (forward_even_kernel_raises Hc HX Hst); rewrite Hs; try assumption.
  rewrite Hk. tauto.
Qed.

Lemma even_kernel_shape_error_witness :
  exists model x st s1,
    session (120, 160) 3 2 (4, 4) "mul" true true zero_init true 10 (fun _ => 1%R) []
    = Ok ((model, x, st), s1) /\
    forward model x st s1 = Err ShapeError.
Proof.
  apply (@even_kernel_shape_error (120, 160) 3 2 (4, 4)); simpl;
    first [lia | left; split; [reflexivity | lia]].
Defined.

(** * Beyond the claims

    Further properties of [hard_sigmoid], the constructor and [forward],
    read off the source. *)

(** ** More objects for concrete runs *)

Lemma demo_more_cell_ok (mode : string) : cell_ok demo_more (demo_cell mode) (cuda 0).
Proof.
  apply (@cell_ok_ext demo_gpu); [apply ext_app | apply demo_cell_ok].
Qed.

Lemma demo_more_tens (r : ref) (sh : list nat) (d : Device) :
  r < 33 -> shape (val demo_more r) = sh -> device (val demo_more r) = d ->
  tens demo_more r sh d.
Proof. intros Hr Hs Hd. split; [exact Hr | now split]. Qed.

(** ** hard_sigmoid as a function of its input *)

(** The element function the source writes: [max(min(x*0.2 + 0.5, 1), 0)]. *)
Lemma hs_elem_monotone (x y : R) :
  (x <= y)%R ->
  (Rmax (Rmin (x * 0.2 + 0.5) 1) 0 <= Rmax (Rmin (y * 0.2 + 0.5) 1) 0)%R.
Proof.
  intros H. unfold Rmax, Rmin. repeat destruct Rle_dec; lra.
Qed.

Lemma hs_input_ok_dec (v : tensor) : hs_input_ok v \/ ~ hs_input_ok v.
Proof.
  unfold hs_input_ok.
  destruct (device v) as [|[|j]]; destruct (shape v) as [|d sh];
    first [ left; left; reflexivity
          | left; right; split; reflexivity
          | right; intros [H | [H1 H2]]; discriminate ].
Qed.

(** X4.  [hard_sigmoid] is monotone: at every position where one input is
    at most the other, so are the results. *)
Theorem hard_sigmoid_monotone (s : store) (a b : ref) :
  a < length s -> b < length s ->
  hs_input_ok (val s a) -> hs_input_ok (val s b) ->
  shape (val s a) = shape (val s b) ->
  exists ra sa rb sb,
    hard_sigmoid a s = Ok (ra, sa) /\
    hard_sigmoid b s = Ok (rb, sb) /\
    forall idx, in_shape (shape (val s a)) idx ->
      (data (val s a) idx <= data (val s b) idx ->
       data (val sa ra) idx <= data (val sb rb) idx)%R.
Proof.
  intros Ha Hb Hoa Hob Hsh.
  destruct (@hard_sigmoid_run a s Ha Hoa) as (ra & sa & Era & _ & _ & _ & _ & Ga).
  destruct (@hard_sigmoid_run b s Hb Hob) as (rb & sb & Erb & _ & _ & _ & _ & Gb).
  exists ra, sa, rb, sb. split; [exact Era|]. split; [exact Erb|].
  intros idx Hidx Hle.
  rewrite (Ga idx Hidx), (Gb idx) by (rewrite <- Hsh; exact Hidx).
  now apply hs_elem_monotone.
Qed.

Lemma hard_sigmoid_monotone_witness :
  exists ra sa rb sb,
    hard_sigmoid 0 [Torch.full [] cpu 0%R; Torch.full [] cpu 2%R] = Ok (ra, sa) /\
    hard_sigmoid 1 [Torch.full [] cpu 0%R; Torch.full [] cpu 2%R] = Ok (rb, sb) /\
    (data (val sa ra) [] <= data (val sb rb) [])%R.
Proof.
  destruct (@hard_sigmoid_monotone [Torch.full [] cpu 0%R; Torch.full [] cpu 2%R] 0 1)
    as (ra & sa & rb & sb & Ea & Eb & Hm);
    [simpl; lia | simpl; lia | right; split; reflexivity | right; split; reflexivity
     | reflexivity |].
  exists ra, sa, rb, sb. split; [exact Ea|]. split; [exact Eb|].
  apply (Hm []); [constructor | simpl; lra].
Defined.

(** X6.  The device rule of hard_sigmoid: it returns exactly for an input on
    cuda:0 or a 0-dim CPU input, and then its result is a new object on
    cuda:0 and no existing object has changed; for any other input it
    raises a device error. *)
Theorem hard_sigmoid_device_rule (s : store) (a : ref) :
  a < length s ->
  (hs_input_ok (val s a) /\
   exists r s',
     hard_sigmoid a s = Ok (r, s') /\
     device (val s' r) = cuda 0 /\
     length s <= r < length s' /\
     forall p, p < length s -> val s' p = val s p) \/
  (~ hs_input_ok (val s a) /\ hard_sigmoid a s = Err DeviceError).
Proof.
  intros Ha. destruct (hs_input_ok_dec (val s a)) as [Hok | Hno].
  - left. split; [exact Hok|].
    destruct (@hard_sigmoid_run a s Ha Hok) as (r & s' & Er & He & Hr & _ & Hd & _).
    exists r, s'. split; [exact Er|]. split; [exact Hd|]. split; [exact Hr|].
    intros p Hp. now apply val_ext.
  - right. split; [exact Hno|]. now apply hard_sigmoid_raises.
Qed.

Lemma hard_sigmoid_device_rule_witness :
  hard_sigmoid 0 [Torch.full [3] (cuda 1) 0%R] = Err DeviceError /\
  exists r s',
    hard_sigmoid 0 [Torch.full [] cpu 0%R] = Ok (r, s') /\ device (val s' r) = cuda 0.
Proof.
  split.
  - destruct (@hard_sigmoid_device_rule [Torch.full [3] (cuda 1) 0%R] 0) as [[Hok _] | [_ E]];
      [simpl; lia | | exact E].
    exfalso. destruct Hok as [H | [H _]]; discriminate.
  - destruct (@hard_sigmoid_device_rule [Torch.full [] cpu 0%R] 0)
      as [[_ (r & s' & E & Hd & _)] | [Hno _]]; [simpl; lia | | ].
    + exists r, s'. split; [exact E | exact Hd].
    + exfalso. apply Hno. right. split; reflexivity.
Defined.

(** The constructor computed: the objects it adds, in allocation order, are
    the parameters of the cell. *)
Lemma init_computes (isz : nat * nat) (idim hdim : nat) (k : nat * nat) (mode : string)
      (peep tb : bool) (rng : string -> nn.conv_init) (s : store) :
  exists c new,
    __init__ isz idim hdim k mode peep tb rng s = Ok (c, s ++ new) /\
    length new = (if tb then 15 else 23) /\
    total_numel new
    = 4 * (hdim * idim * fst k * snd k) + 4 * (hdim * hdim * fst k * snd k)
      + (if tb then 0 else 8 * hdim) + 3 * (hdim * fst isz * snd isz) + 4 * hdim /\
    parameters c = seq (length s) (length new) /\
    (forall cv, In cv (convolutions c) -> (nn.bias cv = None <-> tb = true)).
Proof.
  destruct tb.
  - eexists. eexists. split.
    + lazy beta iota zeta delta [__init__ nn.Conv2d_new register_parameter bind alloc
                                   ret contains negb orb Ascii.eqb Bool.eqb].
      rewrite <- !app_assoc. cbn [app]. reflexivity.
    + split; [reflexivity|].
      split; [unfold total_numel, numel; cbn [fold_right shape Torch.Parameter_new Torch.ones Torch.zeros]; lia|].
      unfold parameters, conv_parameters, convolutions.
      cbn [Wxi Whi Wxf Whf Wxo Who Wxc Whc Wci Wcf Wco bi bf bc bo nn.weight nn.bias app].
      norm_refs s.
      split; [reflexivity|].
      intros cv Hin. cbn [In] in Hin.
      repeat (destruct Hin as [<- | Hin]; [split; reflexivity|]). contradiction.
  - eexists. eexists. split.
    + lazy beta iota zeta delta [__init__ nn.Conv2d_new register_parameter bind alloc
                                   ret contains negb orb Ascii.eqb Bool.eqb].
      rewrite <- !app_assoc. cbn [app]. reflexivity.
    + split; [reflexivity|].
      split; [unfold total_numel, numel; cbn [fold_right shape Torch.Parameter_new Torch.ones Torch.zeros]; lia|].
      unfold parameters, conv_parameters, convolutions.
      cbn [Wxi Whi Wxf Whf Wxo Who Wxc Whc Wci Wcf Wco bi bf bc bo nn.weight nn.bias app].
      norm_refs s.
      split; [reflexivity|].
      intros cv Hin. cbn [In] in Hin.
      repeat (destruct Hin as [<- | Hin]; [split; discriminate|]). contradiction.
Qed.

(** X8.  The constructor allocates its parameters and nothing else: 15 tensors
    with [tied_bias], 23 without, all new, all distinct, holding
    4*hd*id*kh*kw + 4*hd*hd*kh*kw (+ 8*hd for the convolutions' own biases)
    + 3*hd*h*w + 4*hd elements. *)
Theorem constructor_parameter_count (isz : nat * nat) (idim hdim : nat) (k : nat * nat)
        (mode : string) (peep tb : bool) (rng : string -> nn.conv_init) (s : store) :
  exists c new,
    __init__ isz idim hdim k mode peep tb rng s = Ok (c, s ++ new) /\
    length new = (if tb then 15 else 23) /\
    total_numel new
    = 4 * (hdim * idim * fst k * snd k) + 4 * (hdim * hdim * fst k * snd k)
      + (if tb then 0 else 8 * hdim) + 3 * (hdim * fst isz * snd isz) + 4 * hdim /\
    NoDup (parameters c) /\
    (forall p, In p (parameters c) <-> length s <= p < length s + length new).
Proof.
  destruct (init_computes isz idim hdim k mode peep tb rng s)
    as (c & new & Hrun & Hlen & Hnum & Hpar & _).
  exists c, new. split; [exact Hrun|]. split; [exact Hlen|]. split; [exact Hnum|].
  rewrite Hpar. split; [apply seq_NoDup|].
  intros p. apply in_seq.
Qed.

(** What the constructor adds requires gradients, object by object. *)
Lemma init_all_trainable (isz : nat * nat) (idim hdim : nat) (k : nat * nat)
      (mode : string) (peep tb : bool) (rng : string -> nn.conv_init) (s : store) :
  exists c new,
    __init__ isz idim hdim k mode peep tb rng s = Ok (c, s ++ new) /\
    parameters c = seq (length s) (length new) /\
    Forall (fun t => requires_grad t = true) new.
Proof.
  destruct tb.
  - eexists. eexists. split.
    + lazy beta iota zeta delta [__init__ nn.Conv2d_new register_parameter bind alloc
                                   ret contains negb orb Ascii.eqb Bool.eqb].
      rewrite <- !app_assoc. cbn [app]. reflexivity.
    + unfold parameters, conv_parameters.
      cbn [Wxi Whi Wxf Whf Wxo Who Wxc Whc Wci Wcf Wco bi bf bc bo nn.weight nn.bias app].
      norm_refs s.
      split; [reflexivity | repeat constructor].
  - eexists. eexists. split.
    + lazy beta iota zeta delta [__init__ nn.Conv2d_new register_parameter bind alloc
                                   ret contains negb orb Ascii.eqb Bool.eqb].
      rewrite <- !app_assoc. cbn [app]. reflexivity.
    + unfold parameters, conv_parameters.
      cbn [Wxi Whi Wxf Whf Wxo Who Wxc Whc Wci Wcf Wco bi bf bc bo nn.weight nn.bias app].
      norm_refs s.
      split; [reflexivity | repeat constructor].
Qed.

(** X24.  Every parameter the constructor registers requires gradients,
    whatever [peephole] and [tied_bias] say: both flags are passed as
    [requires_grad] to the tensor that [Parameter] wraps, and [Parameter]
    sets its own.  Of the two flags only [tied_bias] changes what is
    built (the convolutions' own biases); neither freezes a tensor. *)
Theorem constructor_parameters_trainable (isz : nat * nat) (idim hdim : nat)
        (k : nat * nat) (mode : string) (peep tb : bool)
        (rng : string -> nn.conv_init) (s : store) :
  exists c s',
    __init__ isz idim hdim k mode peep tb rng s = Ok (c, s') /\
    peephole c = peep /\ tied_bias c = tb /\
    forall p, In p (parameters c) -> requires_grad (val s' p) = true.
Proof.
  destruct (init_all_trainable isz idim hdim k mode peep tb rng s)
    as (c & new & Hrun & Hpar & Hgrad).
  destruct (init_returns isz idim hdim k mode peep tb rng s)
    as (c' & s' & Hrun' & _ & Hp & Ht).
  rewrite Hrun in Hrun'. injection Hrun' as <- <-.
  exists c, (s ++ new). split; [exact Hrun|].
  split; [exact Hp|]. split; [exact Ht|].
  intros p Hin. rewrite Hpar in Hin. apply in_seq in Hin.
  replace p with ((p - length s) + length s) by lia.
  rewrite val_app.
  apply (proj1 (Forall_nth _ new) Hgrad). lia.
Qed.

(** ** Bounds of the activations *)

Lemma tanh_bounds (x : R) : (-1 < tanh x < 1)%R.
Proof.
  unfold tanh, sinh, cosh.
  pose proof (exp_pos x) as Ha. pose proof (exp_pos (- x)) as Hb.
  set (a := exp x) in *. set (b := exp (- x)) in *.
  assert (Hc : (0 < (a + b) / 2)%R) by lra.
  split.
  - apply (Rmult_lt_reg_r ((a + b) / 2)); [exact Hc|].
    unfold Rdiv at 2. rewrite Rmult_assoc, Rinv_l by lra. lra.
  - apply (Rmult_lt_reg_r ((a + b) / 2)); [exact Hc|].
    unfold Rdiv at 1. rewrite Rmult_assoc, Rinv_l by lra. lra.
Qed.

Lemma boundedSigmoid_range (x : R) : (0 <= Spec.boundedSigmoid x <= 1)%R.
Proof.
  unfold Spec.boundedSigmoid, Spec.clamp, Rmin, Rmax.
  repeat destruct Rle_dec; lra.
Qed.

(** A gate times a value does not exceed the value in size. *)
Lemma gated_abs (g v : R) : (0 <= g <= 1)%R -> (Rabs (g * v) <= Rabs v)%R.
Proof.
  intros Hg. rewrite Rabs_mult, (Rabs_right g) by lra.
  pose proof (Rabs_pos v). nra.
Qed.

Lemma Rabs_le_1 (v : R) : (-1 <= v <= 1)%R -> (Rabs v <= 1)%R.
Proof. intros H. apply Rabs_le. lra. Qed.

Lemma Rabs_le_1_inv (v : R) : (Rabs v <= 1)%R -> (-1 <= v <= 1)%R.
Proof. unfold Rabs. destruct (Rcase_abs v); lra. Qed.

Section Bounds.

Variable s : store.
Variable self : ConvLSTMCell.
Variables Xt Htm1 Ctm1 : ref.
Variables n c y x : nat.

Lemma Ht_mul_bound : (Rabs (Spec.Ht_mul s self Xt Htm1 Ctm1 n c y x) <= 1)%R.
Proof.
  unfold Spec.Ht_mul, Spec.gate_o.
  eapply Rle_trans; [apply gated_abs, boundedSigmoid_range|].
  apply Rabs_le_1. pose proof (tanh_bounds (Spec.Ct_mul s self Xt Htm1 Ctm1 n c y x)). lra.
Qed.

Lemma Ht_sub_bound : (Rabs (Spec.Ht_sub s self Xt Htm1 Ctm1 n c y x) <= 1)%R.
Proof.
  unfold Spec.Ht_sub, Spec.gate_o. apply Rabs_le_1.
  match goal with
  | |- (_ <= Spec.boundedSigmoid ?a - Spec.boundedSigmoid ?b <= _)%R =>
      pose proof (boundedSigmoid_range a); pose proof (boundedSigmoid_range b)
  end. lra.
Qed.

Lemma Ct_mul_bound :
  (Rabs (Spec.Ct_mul s self Xt Htm1 Ctm1 n c y x)
   <= Rabs (data (val s Ctm1) [n; c; y; x]) + 1)%R.
Proof.
  unfold Spec.Ct_mul, Spec.prev_cell, Spec.gate_f, Spec.gate_i.
  eapply Rle_trans; [apply Rabs_triang|].
  apply Rplus_le_compat; [apply gated_abs, boundedSigmoid_range|].
  eapply Rle_trans; [apply gated_abs, boundedSigmoid_range|].
  apply Rabs_le_1. pose proof (tanh_bounds (Spec.cand_pre s self Xt Htm1 n c y x)). lra.
Qed.

Lemma Ct_sub_bound :
  (Rabs (Spec.Ct_sub s self Xt Htm1 Ctm1 n c y x)
   <= Rabs (data (val s Ctm1) [n; c; y; x]) + 1)%R.
Proof.
  unfold Spec.Ct_sub, Spec.prev_cell, Spec.gate_f, Spec.gate_i.
  match goal with
  | |- (Rabs (?f * ?v + ?a - ?b) <= _)%R =>
      replace (f * v + a - b)%R with (f * v + (a - b))%R by ring
  end.
  eapply Rle_trans; [apply Rabs_triang|].
  apply Rplus_le_compat; [apply gated_abs, boundedSigmoid_range|].
  apply Rabs_le_1.
  match goal with
  | |- (_ <= Spec.boundedSigmoid ?a - Spec.boundedSigmoid ?b <= _)%R =>
      pose proof (boundedSigmoid_range a); pose proof (boundedSigmoid_range b)
  end. lra.
Qed.

End Bounds.



(** X10.  The devices [forward] accepts: it returns exactly when the parameters
    of the cell, the frame and both state tensors are on cuda:0; with any
    of them elsewhere it raises a device error. *)
Theorem forward_device_rule (s : store) (self : ConvLSTMCell) (B : nat)
        (Xt Htm1 Ctm1 : ref) (d dx dh dc : Device) :
  valid_config self -> cell_ok s self d ->
  tens s Xt [B; input_dim self; fst (input_size self); snd (input_size self)] dx ->
  tens s Htm1 [B; hidden_dim self; fst (input_size self); snd (input_size self)] dh ->
  tens s Ctm1 [B; hidden_dim self; fst (input_size self); snd (input_size self)] dc ->
  ((d = cuda 0 /\ dx = cuda 0 /\ dh = cuda 0 /\ dc = cuda 0) /\
   exists r s', forward self Xt (Htm1, Ctm1) s = Ok (r, s')) \/
  (~ (d = cuda 0 /\ dx = cuda 0 /\ dh = cuda 0 /\ dc = cuda 0) /\
   forward self Xt (Htm1, Ctm1) s = Err DeviceError).
Proof.
  intros Hv Hcell HX HH HC.
  destruct (all_cuda0_dec d dx dh dc) as [(-> & -> & -> & ->) | Hno].
  - left. split; [auto|].
    destruct (@forward_run s self B Xt (Htm1, Ctm1) Hv Hcell HX (conj HH HC))
      as (r & s' & Hrun & _).
    now exists r, s'.
  - right. split; [exact Hno|].
    now apply (@forward_elsewhere_raises s self B Xt Htm1 Ctm1 d dx dh dc).
Qed.

Lemma forward_device_rule_witness :
  forward (demo_cell "mul") 27 demo_state demo_more = Err DeviceError.
Proof.
  unfold demo_state.
  destruct (@forward_device_rule demo_more (demo_cell "mul") 1 27 demo_H demo_C
              (cuda 0) cpu (cuda 0) (cuda 0)
              (demo_valid "mul") (demo_more_cell_ok "mul"))
    as [[(_ & Hx & _) _] | [_ Hrun]];
    [apply demo_more_tens; [lia | reflexivity | reflexivity]
    | apply demo_more_tens; [unfold demo_H; lia | reflexivity | reflexivity]
    | apply demo_more_tens; [unfold demo_C; lia | reflexivity | reflexivity]
    | discriminate | exact Hrun].
Defined.

(** X11.  A frame whose channel count is not [input_dim] is rejected by the first
    convolution, whatever the state. *)
Theorem forward_wrong_channels (s : store) (self : ConvLSTMCell) (B C H W : nat)
        (Xt : ref) (st : ref * ref) (d : Device) :
  cell_ok s self d -> tens s Xt [B; C; H; W] d -> C <> input_dim self ->
  forward self Xt st s = Err ShapeError.
Proof.
  intros Hcell HX HC. destruct st as [Htm1 Ctm1]. unfold forward, bind.
  now rewrite (conv_call_other_channels (ext_refl s) (ok_Wxi Hcell) HX HC).
Qed.

Lemma forward_wrong_channels_witness :
  forward (demo_cell "mul") 26 demo_state demo_more = Err ShapeError.
Proof.
  apply (@forward_wrong_channels demo_more (demo_cell "mul") 1 2 1 1 26 demo_state (cuda 0)).
  - apply demo_more_cell_ok.
  - apply demo_more_tens; [lia | reflexivity | reflexivity].
  - simpl. lia.
Defined.

(** X12.  A frame whose batch size or image size differs from the state's, in a
    dimension where neither is 1, is rejected by the first sum. *)
Theorem forward_size_mismatch (s : store) (self : ConvLSTMCell) (B Bx hx wx : nat)
        (Xt : ref) (st : ref * ref) (d : Device) :
  valid_config self -> cell_ok s self d ->
  tens s Xt [Bx; input_dim self; hx; wx] d -> state_ok s self B d st ->
  1 <= hx -> 1 <= wx ->
  clash Bx B \/ clash hx (fst (input_size self)) \/ clash wx (snd (input_size self)) ->
  forward self Xt st s = Err ShapeError.
Proof.
  intros (Hk1 & Hk2 & Hih & Hiw) Hcell HX [HH HC] Hhx Hwx Hclash.
  destruct st as [Htm1 Ctm1]. simpl fst in *. simpl snd in *.
  pose proof (ext_refl s) as Hgrow.
  unfold forward.
  conv_fstep ok_Wxi. conv_fstep ok_Whi.
  match goal with
  | Ha : holds4 ?s' ?a Bx _ _ _ _ _, Hb : holds4 ?s' ?b B _ _ _ _ _
    |- bind (tensor_add ?a ?b) _ ?s' = _ =>
      destruct Ha as [(Hra & Hsa & Hda) _]; destruct Hb as [(Hrb & Hsb & Hdb) _];
      unfold bind, tensor_add;
      rewrite (@lift2_fails Torch.add a b s' ShapeError Hra Hrb); [reflexivity|];
      eapply binop_clash; [exact Hsa | exact Hsb | exact Hda | exact Hdb |]
  end.
  tauto.
Qed.

Lemma forward_size_mismatch_witness :
  forward (demo_cell "mul") 28 (31, 32) demo_more = Err ShapeError.
Proof.
  apply (@forward_size_mismatch demo_more (demo_cell "mul") 3 2 1 1 28 (31, 32) (cuda 0)).
  - apply demo_valid.
  - apply demo_more_cell_ok.
  - apply demo_more_tens; [lia | reflexivity | reflexivity].
  - split; apply demo_more_tens; simpl; first [lia | reflexivity].
  - lia.
  - lia.
  - left. unfold clash. lia.
Defined.

(** ** One sample, one window at a time *)

Lemma fold_seq_ext (f g : nat -> R) (a n : nat) :
  (forall k, a <= k < a + n -> f k = g k) ->
  fold_right (fun k acc => (f k + acc)%R) 0%R (seq a n)
  = fold_right (fun k acc => (g k + acc)%R) 0%R (seq a n).
Proof.
  revert a. induction n as [|n IH]; intros a H; [reflexivity|].
  simpl. rewrite (H a) by lia. f_equal. apply IH. intros k Hk. apply H. lia.
Qed.

Lemma sum_upto_ext (n : nat) (f g : nat -> R) :
  (forall k, k < n -> f k = g k) -> Torch.sum_upto n f = Torch.sum_upto n g.
Proof. intros H. apply fold_seq_ext. intros k Hk. apply H. lia. Qed.

Lemma half_window (k : nat) : k <= 2 * (k / 2) + 1.
Proof.
  pose proof (Nat.div_mod_eq k 2). pose proof (Nat.mod_upper_bound k 2). lia.
Qed.

(** A padded image read for the output at [y], [x] through a kernel of
    [kh] by [kw]: only the window around [y], [x] is read. *)
Lemma padded_window (v1 v2 : tensor) (C H W ph pw n1 n2 ci y x ky kx : nat) :
  (forall c y' x', c < C -> y' < H -> x' < W -> near ph y y' -> near pw x x' ->
      data v1 [n1; c; y'; x'] = data v2 [n2; c; y'; x']) ->
  ci < C -> ky <= 2 * ph -> kx <= 2 * pw ->
  Torch.padded v1 H W ph pw n1 ci (y * 1 + ky) (x * 1 + kx)
  = Torch.padded v2 H W ph pw n2 ci (y * 1 + ky) (x * 1 + kx).
Proof.
  intros Hagree Hci Hky Hkx. unfold Torch.padded.
  destruct (ph <=? y * 1 + ky) eqn:E1; [|reflexivity].
  destruct (y * 1 + ky <? ph + H) eqn:E2; [|reflexivity].
  destruct (pw <=? x * 1 + kx) eqn:E3; [|reflexivity].
  destruct (x * 1 + kx <? pw + W) eqn:E4; [|reflexivity].
  cbn [andb].
  apply Nat.leb_le in E1, E3. apply Nat.ltb_lt in E2, E4.
  apply Hagree; [exact Hci | lia | lia | unfold near; lia | unfold near; lia].
Qed.

Lemma conv_val_window (v1 v2 w : tensor) (ob : option tensor)
      (B1 B2 C H W Co kh kw n1 n2 co y x : nat) :
  shape v1 = [B1; C; H; W] -> shape v2 = [B2; C; H; W] -> shape w = [Co; C; kh; kw] ->
  (forall c y' x', c < C -> y' < H -> x' < W -> near (kh / 2) y y' -> near (kw / 2) x x' ->
      data v1 [n1; c; y'; x'] = data v2 [n2; c; y'; x']) ->
  Torch.conv2d_val v1 w ob (1, 1) (kh / 2, kw / 2) [n1; co; y; x]
  = Torch.conv2d_val v2 w ob (1, 1) (kh / 2, kw / 2) [n2; co; y; x].
Proof.
  intros S1 S2 Sw Hagree. unfold Torch.conv2d_val. rewrite S1, S2, Sw.
  cbn [fst snd].
  f_equal. apply sum_upto_ext. intros ci Hci.
  apply sum_upto_ext. intros ky Hky. apply sum_upto_ext. intros kx Hkx.
  f_equal. apply padded_window with (C := C); try assumption.
  - pose proof (half_window kh). lia.
  - pose proof (half_window kw). lia.
Qed.

Lemma Conv_window (s : store) (cv : nn.Conv2d) (x1 x2 : ref) (B1 B2 cin cout H W : nat)
      (k : nat * nat) (d : Device) (n1 n2 co y x : nat) :
  conv_ok s cv cin cout k d ->
  tens s x1 [B1; cin; H; W] d -> tens s x2 [B2; cin; H; W] d ->
  (forall c y' x', c < cin -> y' < H -> x' < W ->
      near (fst k / 2) y y' -> near (snd k / 2) x x' ->
      data (val s x1) [n1; c; y'; x'] = data (val s x2) [n2; c; y'; x']) ->
  Spec.Conv s cv x1 n1 co y x = Spec.Conv s cv x2 n2 co y x.
Proof.
  intros (Hst & Hpad & (_ & Sw & _) & _) (_ & S1 & _) (_ & S2 & _) Hagree.
  unfold Spec.Conv. rewrite Hst, Hpad. eapply conv_val_window; eassumption.
Qed.

Section OneSample.

Variable s : store.
Variable self : ConvLSTMCell.
Variables B1 B2 : nat.
Variables X1 H1 C1 X2 H2 C2 : ref.
Variables n1 n2 : nat.
Variable d : Device.
Variables c y x : nat.

Hypothesis Hcell : cell_ok s self d.
Hypothesis HX1 : frame_ok s self B1 d X1.
Hypothesis HX2 : frame_ok s self B2 d X2.
Hypothesis Hst1 : state_ok s self B1 d (H1, C1).
Hypothesis Hst2 : state_ok s self B2 d (H2, C2).

Hypothesis sameX : forall c' y' x',
  c' < input_dim self -> y' < fst (input_size self) -> x' < snd (input_size self) ->
  near (fst (kernel_size self) / 2) y y' -> near (snd (kernel_size self) / 2) x x' ->
  data (val s X1) [n1; c'; y'; x'] = data (val s X2) [n2; c'; y'; x'].
Hypothesis sameH : forall c' y' x',
  c' < hidden_dim self -> y' < fst (input_size self) -> x' < snd (input_size self) ->
  near (fst (kernel_size self) / 2) y y' -> near (snd (kernel_size self) / 2) x x' ->
  data (val s H1) [n1; c'; y'; x'] = data (val s H2) [n2; c'; y'; x'].
Hypothesis sameC : data (val s C1) [n1; c; y; x] = data (val s C2) [n2; c; y; x].

Lemma sample_convs :
  forall cvx cvh,
    conv_ok s cvx (input_dim self) (hidden_dim self) (kernel_size self) d ->
    conv_ok s cvh (hidden_dim self) (hidden_dim self) (kernel_size self) d ->
    Spec.Conv s cvx X1 n1 c y x = Spec.Conv s cvx X2 n2 c y x /\
    Spec.Conv s cvh H1 n1 c y x = Spec.Conv s cvh H2 n2 c y x.
Proof.
  intros cvx cvh Hcx Hch. destruct Hst1 as [HH1 _]. destruct Hst2 as [HH2 _].
  split.
  - eapply Conv_window; [exact Hcx | exact HX1 | exact HX2 | exact sameX].
  - eapply Conv_window; [exact Hch | exact HH1 | exact HH2 | exact sameH].
Qed.

Lemma sample_states :
  Spec.Ct_mul s self X1 H1 C1 n1 c y x = Spec.Ct_mul s self X2 H2 C2 n2 c y x /\
  Spec.Ht_mul s self X1 H1 C1 n1 c y x = Spec.Ht_mul s self X2 H2 C2 n2 c y x /\
  Spec.Ct_sub s self X1 H1 C1 n1 c y x = Spec.Ct_sub s self X2 H2 C2 n2 c y x /\
  Spec.Ht_sub s self X1 H1 C1 n1 c y x = Spec.Ht_sub s self X2 H2 C2 n2 c y x.
Proof.
  destruct (sample_convs (ok_Wxi Hcell) (ok_Whi Hcell)) as [Ei1 Ei2].
  destruct (sample_convs (ok_Wxf Hcell) (ok_Whf Hcell)) as [Ef1 Ef2].
  destruct (sample_convs (ok_Wxc Hcell) (ok_Whc Hcell)) as [Ec1 Ec2].
  destruct (sample_convs (ok_Wxo Hcell) (ok_Who Hcell)) as [Eo1 Eo2].
  assert (Em : Spec.Ct_mul s self X1 H1 C1 n1 c y x = Spec.Ct_mul s self X2 H2 C2 n2 c y x).
  { unfold Spec.Ct_mul, Spec.gate_f, Spec.gate_i, Spec.cand_pre, Spec.prev_cell.
    now rewrite Ei1, Ei2, Ef1, Ef2, Ec1, Ec2, sameC. }
  assert (Es : Spec.Ct_sub s self X1 H1 C1 n1 c y x = Spec.Ct_sub s self X2 H2 C2 n2 c y x).
  { unfold Spec.Ct_sub, Spec.gate_f, Spec.gate_i, Spec.cand_pre, Spec.prev_cell.
    now rewrite Ei1, Ei2, Ef1, Ef2, Ec1, Ec2, sameC. }
  split; [exact Em|]. split; [|split; [exact Es|]].
  - unfold Spec.Ht_mul, Spec.gate_o. now rewrite Eo1, Eo2, Em.
  - unfold Spec.Ht_sub, Spec.gate_o. now rewrite Eo1, Eo2, Es.
Qed.

End OneSample.

(** What two runs of [forward] from one store leave at one position. *)
Lemma forward_two_runs (s : store) (self : ConvLSTMCell) (B1 B2 : nat)
      (X1 X2 : ref) (st1 st2 : ref * ref) (n1 n2 c y x : nat) :
  valid_config self -> cell_ok s self (cuda 0) ->
  frame_ok s self B1 (cuda 0) X1 -> state_ok s self B1 (cuda 0) st1 ->
  frame_ok s self B2 (cuda 0) X2 -> state_ok s self B2 (cuda 0) st2 ->
  n1 < B1 -> n2 < B2 ->
  c < hidden_dim self -> y < fst (input_size self) -> x < snd (input_size self) ->
  (forall c' y' x',
      c' < input_dim self -> y' < fst (input_size self) -> x' < snd (input_size self) ->
      near (fst (kernel_size self) / 2) y y' -> near (snd (kernel_size self) / 2) x x' ->
      data (val s X1) [n1; c'; y'; x'] = data (val s X2) [n2; c'; y'; x']) ->
  (forall c' y' x',
      c' < hidden_dim self -> y' < fst (input_size self) -> x' < snd (input_size self) ->
      near (fst (kernel_size self) / 2) y y' -> near (snd (kernel_size self) / 2) x x' ->
      data (val s (fst st1)) [n1; c'; y'; x'] = data (val s (fst st2)) [n2; c'; y'; x']) ->
  data (val s (snd st1)) [n1; c; y; x] = data (val s (snd st2)) [n2; c; y; x] ->
  exists r1 s1 r2 s2,
    forward self X1 st1 s = Ok (r1, s1) /\
    forward self X2 st2 s = Ok (r2, s2) /\
    data (val s1 (fst r1)) [n1; c; y; x] = data (val s2 (fst r2)) [n2; c; y; x] /\
    data (val s1 (snd r1)) [n1; c; y; x] = data (val s2 (snd r2)) [n2; c; y; x].
Proof.
  intros Hv Hcell HX1 Hst1 HX2 Hst2 Hn1 Hn2 Hc Hy Hx HsameX HsameH HsameC.
  destruct (forward_run Hv Hcell HX1 Hst1) as (r1 & s1 & Hrun1 & Hp1).
  destruct (forward_run Hv Hcell HX2 Hst2) as (r2 & s2 & Hrun2 & Hp2).
  exists r1, s1, r2, s2. split; [exact Hrun1|]. split; [exact Hrun2|].
  destruct st1 as [H1 C1], st2 as [H2 C2]. cbn [fst snd] in *.
  destruct (@sample_states s self B1 B2 X1 H1 C1 X2 H2 C2 n1 n2 (cuda 0) c y x
              Hcell HX1 HX2 Hst1 Hst2 HsameX HsameH HsameC) as (Em & EHm & Es & EHs).
  destruct (String.eqb (gating_mode self) "mul");
    destruct Hp1 as (_ & _ & _ & [_ GH1] & [_ GC1]);
    destruct Hp2 as (_ & _ & _ & [_ GH2] & [_ GC2]);
    rewrite (GH1 n1 c y x Hn1 Hc Hy Hx), (GC1 n1 c y x Hn1 Hc Hy Hx),
      (GH2 n2 c y x Hn2 Hc Hy Hx), (GC2 n2 c y x Hn2 Hc Hy Hx); split; assumption.
Qed.

(** X13.  [forward] treats the samples of a batch one by one: a sample of the
    results depends on the same sample of the frame and of the state only,
    not on the rest of the batch, its size or the sample's place in it. *)
Theorem forward_batch_independent (s : store) (self : ConvLSTMCell) (B1 B2 : nat)
        (X1 X2 : ref) (st1 st2 : ref * ref) (n1 n2 : nat) :
  valid_config self -> cell_ok s self (cuda 0) ->
  frame_ok s self B1 (cuda 0) X1 -> state_ok s self B1 (cuda 0) st1 ->
  frame_ok s self B2 (cuda 0) X2 -> state_ok s self B2 (cuda 0) st2 ->
  n1 < B1 -> n2 < B2 ->
  (forall c y x,
      c < input_dim self -> y < fst (input_size self) -> x < snd (input_size self) ->
      data (val s X1) [n1; c; y; x] = data (val s X2) [n2; c; y; x]) ->
  (forall c y x,
      c < hidden_dim self -> y < fst (input_size self) -> x < snd (input_size self) ->
      data (val s (fst st1)) [n1; c; y; x] = data (val s (fst st2)) [n2; c; y; x] /\
      data (val s (snd st1)) [n1; c; y; x] = data (val s (snd st2)) [n2; c; y; x]) ->
  exists r1 s1 r2 s2,
    forward self X1 st1 s = Ok (r1, s1) /\
    forward self X2 st2 s = Ok (r2, s2) /\
    forall c y x,
      c < hidden_dim self -> y < fst (input_size self) -> x < snd (input_size self) ->
      data (val s1 (fst r1)) [n1; c; y; x] = data (val s2 (fst r2)) [n2; c; y; x] /\
      data (val s1 (snd r1)) [n1; c; y; x] = data (val s2 (snd r2)) [n2; c; y; x].
Proof.
  intros Hv Hcell HX1 Hst1 HX2 Hst2 Hn1 Hn2 HsameX Hsame.
  destruct (forward_run Hv Hcell HX1 Hst1) as (r1 & s1 & Hrun1 & _).
  destruct (forward_run Hv Hcell HX2 Hst2) as (r2 & s2 & Hrun2 & _).
  exists r1, s1, r2, s2. split; [exact Hrun1|]. split; [exact Hrun2|].
  intros c y x Hc Hy Hx.
  destruct (@forward_two_runs s self B1 B2 X1 X2 st1 st2 n1 n2 c y x
              Hv Hcell HX1 Hst1 HX2 Hst2 Hn1 Hn2 Hc Hy Hx)
    as (r1' & s1' & r2' & s2' & E1 & E2 & EH & EC).
  - intros c' y' x' Hc' Hy' Hx' _ _. now apply HsameX.
  - intros c' y' x' Hc' Hy' Hx' _ _. now apply Hsame.
  - now apply Hsame.
  - rewrite Hrun1 in E1. rewrite Hrun2 in E2.
    injection E1 as <- <-. injection E2 as <- <-. now split.
Qed.

Lemma forward_batch_independent_witness :
  exists r1 s1 r2 s2,
    forward (demo_cell "mul") demo_frame demo_state demo_more = Ok (r1, s1) /\
    forward (demo_cell "mul") 28 (29, 30) demo_more = Ok (r2, s2) /\
    data (val s1 (fst r1)) [0; 0; 0; 0] = data (val s2 (fst r2)) [1; 0; 0; 0] /\
    data (val s1 (snd r1)) [0; 0; 0; 0] = data (val s2 (snd r2)) [1; 0; 0; 0].
Proof.
  unfold demo_state.
  destruct (@forward_batch_independent demo_more (demo_cell "mul") 1 2
              demo_frame 28 (demo_H, demo_C) (29, 30) 0 1
              (demo_valid "mul") (demo_more_cell_ok "mul"))
    as (r1 & s1 & r2 & s2 & E1 & E2 & Hsame).
  - apply demo_more_tens; [unfold demo_frame; lia | reflexivity | reflexivity].
  - split; apply demo_more_tens; simpl; first [unfold demo_H; lia | unfold demo_C; lia
                                                | reflexivity].
  - apply demo_more_tens; [lia | reflexivity | reflexivity].
  - split; apply demo_more_tens; simpl; first [lia | reflexivity].
  - lia.
  - lia.
  - intros c y x _ _ _. reflexivity.
  - intros c y x _ _ _. split; reflexivity.
  - exists r1, s1, r2, s2. split; [exact E1|]. split; [exact E2|].
    apply (Hsame 0 0 0); simpl; lia.
Defined.

(** X14.  The receptive field of one step: a position of the results depends on
    the frame and the previous hidden state only inside the kernel window
    around that position (half the kernel size to each side), and on the
    previous cell state only at that position and channel. *)
Theorem forward_receptive_field (s : store) (self : ConvLSTMCell) (B : nat)
        (X1 X2 : ref) (st1 st2 : ref * ref) (n c y x : nat) :
  valid_config self -> cell_ok s self (cuda 0) ->
  frame_ok s self B (cuda 0) X1 -> state_ok s self B (cuda 0) st1 ->
  frame_ok s self B (cuda 0) X2 -> state_ok s self B (cuda 0) st2 ->
  n < B -> c < hidden_dim self -> y < fst (input_size self) -> x < snd (input_size self) ->
  (forall c' y' x',
      c' < input_dim self -> y' < fst (input_size self) -> x' < snd (input_size self) ->
      near (fst (kernel_size self) / 2) y y' -> near (snd (kernel_size self) / 2) x x' ->
      data (val s X1) [n; c'; y'; x'] = data (val s X2) [n; c'; y'; x']) ->
  (forall c' y' x',
      c' < hidden_dim self -> y' < fst (input_size self) -> x' < snd (input_size self) ->
      near (fst (kernel_size self) / 2) y y' -> near (snd (kernel_size self) / 2) x x' ->
      data (val s (fst st1)) [n; c'; y'; x'] = data (val s (fst st2)) [n; c'; y'; x']) ->
  data (val s (snd st1)) [n; c; y; x] = data (val s (snd st2)) [n; c; y; x] ->
  exists r1 s1 r2 s2,
    forward self X1 st1 s = Ok (r1, s1) /\
    forward self X2 st2 s = Ok (r2, s2) /\
    data (val s1 (fst r1)) [n; c; y; x] = data (val s2 (fst r2)) [n; c; y; x] /\
    data (val s1 (snd r1)) [n; c; y; x] = data (val s2 (snd r2)) [n; c; y; x].
Proof.
  intros Hv Hcell HX1 Hst1 HX2 Hst2 Hn Hc Hy Hx HsameX HsameH HsameC.
  now apply forward_two_runs with (B1 := B) (B2 := B).
Qed.

Lemma wide_tens (r : ref) (sh : list nat) :
  r < 27 -> shape (val wide_store r) = sh -> tens wide_store r sh (cuda 0).
Proof.
  intros Hr Hs. repeat split; [exact Hr | exact Hs |].
  do 27 (destruct r as [|r]; [reflexivity|]). simpl in Hr. lia.
Qed.

Lemma wide_cell_ok : cell_ok wide_store wide_cell (cuda 0).
Proof.
  constructor;
    first [ apply wide_tens; [simpl; lia | reflexivity]
          | split; [reflexivity|]; split; [reflexivity|];
            split; apply wide_tens; first [simpl; lia | reflexivity] ].
Qed.

Lemma forward_receptive_field_witness :
  data (val wide_store 0) [0; 0; 0; 2] <> data (val wide_store 26) [0; 0; 0; 2] /\
  exists r1 s1 r2 s2,
    forward wide_cell 0 (24, 25) wide_store = Ok (r1, s1) /\
    forward wide_cell 26 (24, 25) wide_store = Ok (r2, s2) /\
    data (val s1 (fst r1)) [0; 0; 0; 0] = data (val s2 (fst r2)) [0; 0; 0; 0] /\
    data (val s1 (snd r1)) [0; 0; 0; 0] = data (val s2 (snd r2)) [0; 0; 0; 0].
Proof.
  split; [simpl; lra|].
  apply (@forward_receptive_field wide_store wide_cell 1 0 26 (24, 25) (24, 25) 0 0 0 0).
  - repeat split; simpl; lia.
  - apply wide_cell_ok.
  - apply wide_tens; [lia | reflexivity].
  - split; apply wide_tens; simpl; first [lia | reflexivity].
  - apply wide_tens; [lia | reflexivity].
  - split; apply wide_tens; simpl; first [lia | reflexivity].
  - lia.
  - simpl; lia.
  - simpl; lia.
  - simpl; lia.
  - intros c' y' x' _ _ _ _ [Hx1 Hx2]. simpl in Hx1, Hx2.
    assert (x' = 0) as -> by lia. reflexivity.
  - reflexivity.
  - reflexivity.
Defined.

(** One step keeps the contract and lets the cell state grow by at most 1. *)
Lemma forward_step_within (s : store) (self : ConvLSTMCell) (B : nat) (Xt : ref)
      (st : ref * ref) (m : R) :
  valid_config self -> cell_ok s self (cuda 0) ->
  frame_ok s self B (cuda 0) Xt -> state_ok s self B (cuda 0) st ->
  cell_within s self B (snd st) m ->
  wp (forward self Xt st) s (fun r s' =>
    ext s s' /\ state_ok s' self B (cuda 0) r /\
    cell_within s' self B (fst r) 1 /\ cell_within s' self B (snd r) (m + 1)).
Proof.
  intros Hv Hc HX Hst Hm.
  eapply wp_conseq; [apply (forward_run Hv Hc HX Hst)|].
  intros r s' Hpost. destruct st as [Htm1 Ctm1]. cbn [fst snd] in *.
  destruct (String.eqb (gating_mode self) "mul");
    destruct Hpost as (He & _ & _ & HH & HC);
    (split; [exact He|]);
    (split; [split; eapply holds4_tens; eassumption|]);
    destruct HH as [_ GH]; destruct HC as [_ GC];
    split; intros n c y x Hn Hch Hy Hx.
  - rewrite (GH n c y x Hn Hch Hy Hx). apply Ht_mul_bound.
  - rewrite (GC n c y x Hn Hch Hy Hx).
    eapply Rle_trans; [apply Ct_mul_bound|].
    pose proof (Hm n c y x Hn Hch Hy Hx). lra.
  - rewrite (GH n c y x Hn Hch Hy Hx). apply Ht_sub_bound.
  - rewrite (GC n c y x Hn Hch Hy Hx).
    eapply Rle_trans; [apply Ct_sub_bound|].
    pose proof (Hm n c y x Hn Hch Hy Hx). lra.
Qed.

Lemma forward_steps_run (self : ConvLSTMCell) (B : nat) (frames : list ref) :
  valid_config self ->
  forall (s : store) (st : ref * ref) (mh m : R),
    cell_ok s self (cuda 0) ->
    (forall Xt, In Xt frames -> frame_ok s self B (cuda 0) Xt) ->
    state_ok s self B (cuda 0) st ->
    cell_within s self B (fst st) mh ->
    cell_within s self B (snd st) m ->
    wp (forward_steps self frames st) s (fun r s' =>
      ext s s' /\ state_ok s' self B (cuda 0) r /\
      cell_within s' self B (fst r) (match frames with [] => mh | _ => 1 end) /\
      cell_within s' self B (snd r) (m + INR (length frames))).
Proof.
  intros Hv. induction frames as [|Xt rest IH]; intros s st mh m Hc HF Hst Hmh Hm.
  - apply wp_ret. split; [apply ext_refl|]. split; [exact Hst|].
    split; [exact Hmh|].
    intros n c y x Hn Hch Hy Hx. simpl. rewrite Rplus_0_r. now apply Hm.
  - cbn [forward_steps]. apply wp_bind.
    eapply wp_conseq;
      [apply (forward_step_within Hv Hc (HF Xt (or_introl eq_refl)) Hst Hm)|].
    intros r1 s1 (He1 & Hst1 & HH1 & HC1).
    eapply wp_conseq;
      [apply (IH s1 r1 1%R (m + 1)%R (cell_ok_ext He1 Hc));
       [intros X HX; apply (tens_ext He1), HF; now right
       | exact Hst1 | exact HH1 | exact HC1]|].
    intros r s' (He & Hst' & HH' & HC').
    split; [eapply ext_trans; eassumption|]. split; [exact Hst'|].
    split; [destruct rest; exact HH'|].
    intros n c y x Hn Hch Hy Hx.
    pose proof (HC' n c y x Hn Hch Hy Hx) as Hb.
    change (length (Xt :: rest)) with (S (length rest)). rewrite S_INR. lra.
Qed.



(** ** A state of batch size 1 *)

(** A tensor [B; C; H; W] against one of batch size 1. *)
Lemma binop_batch1 (f : R -> R -> R) (a b : tensor) (B C H W : nat) (d : Device) :
  shape a = [B; C; H; W] -> shape b = [1; C; H; W] -> device a = d -> device b = d ->
  exists v, Torch.binop f a b = Ok v /\ shape v = [B; C; H; W] /\ device v = d /\
            forall n k y x, n < B -> k < C -> y < H -> x < W ->
              data v [n; k; y; x] = f (data a [n; k; y; x]) (data b [0; k; y; x]).
Proof.
  intros Ha Hb Da Db. unfold Torch.binop.
  rewrite (common_device_same _ _ Da Db), Ha, Hb.
  unfold Torch.broadcast_shapes. simpl.
  rewrite !broadcast_dim_same, broadcast_dim_one. simpl.
  eexists. split; [reflexivity|]. simpl. repeat split.
  intros n k y x Hn Hk Hy Hx. unfold Torch.bidx. simpl.
  now rewrite (sel_in Hn), (sel_in Hk), (sel_in Hy), (sel_in Hx).
Qed.

Lemma step_binop_batch1 (f : R -> R -> R) (s : store) (a b : ref) (B C H W : nat)
      (d : Device) (ga gb gb' : nat -> nat -> nat -> nat -> R) :
  holds4 s a B C H W d ga -> holds4 s b 1 C H W d gb ->
  (forall n c y x, n < B -> c < C -> y < H -> x < W -> gb 0 c y x = gb' n c y x) ->
  wp (lift2 (Torch.binop f) a b) s
     (post4 s B C H W d (fun n c y x => f (ga n c y x) (gb' n c y x))).
Proof.
  intros [(Ha & Sa & Da) Ga] [(Hb & Sb & Db) Gb] Hg.
  destruct (binop_batch1 f _ _ Sa Sb Da Db) as (v & Hv & Sv & Dv & Gv).
  eapply wp_lift2; [exact Ha | exact Hb | exact Hv |].
  apply post4_new; auto.
  intros n c y x Hn Hc Hy Hx.
  rewrite Gv, Ga by assumption.
  rewrite (Gb 0 c y x) by (try assumption; lia).
  now rewrite (Hg n c y x Hn Hc Hy Hx).
Qed.

(** The state [(H1, C1)] has batch size 1 and [(Hb, Cb)] is the same state
    repeated [B] times. *)
Section Expanded.

Variable s : store.
Variable self : ConvLSTMCell.
Variable B : nat.
Variables Xt H1 C1 Hb Cb : ref.

Hypothesis Hvalid : valid_config self.
Hypothesis Hcell : cell_ok s self (cuda 0).
Hypothesis HX : frame_ok s self B (cuda 0) Xt.
Hypothesis Hst1 : state_ok s self 1 (cuda 0) (H1, C1).
Hypothesis Hstb : state_ok s self B (cuda 0) (Hb, Cb).
Hypothesis sameH : forall n c y x,
  n < B -> c < hidden_dim self -> y < fst (input_size self) -> x < snd (input_size self) ->
  data (val s Hb) [n; c; y; x] = data (val s H1) [0; c; y; x].
Hypothesis sameC : forall n c y x,
  n < B -> c < hidden_dim self -> y < fst (input_size self) -> x < snd (input_size self) ->
  data (val s Cb) [n; c; y; x] = data (val s C1) [0; c; y; x].

Lemma expanded_conv (cv : nn.Conv2d) :
  conv_ok s cv (hidden_dim self) (hidden_dim self) (kernel_size self) (cuda 0) ->
  forall n c y x,
    n < B -> c < hidden_dim self -> y < fst (input_size self) ->
    x < snd (input_size self) ->
    Spec.Conv s cv H1 0 c y x = Spec.Conv s cv Hb n c y x.
Proof.
  intros Hcv n c y x Hn Hc Hy Hx.
  destruct Hst1 as [HH1 _]. destruct Hstb as [HHb _]. cbn [fst] in HH1, HHb.
  eapply Conv_window; [exact Hcv | exact HH1 | exact HHb |].
  intros c' y' x' Hc' Hy' Hx' _ _. symmetry. now apply sameH.
Qed.

Lemma expanded_cell :
  forall n c y x,
    n < B -> c < hidden_dim self -> y < fst (input_size self) ->
    x < snd (input_size self) ->
    Spec.prev_cell s C1 0 c y x = Spec.prev_cell s Cb n c y x.
Proof.
  intros n c y x Hn Hc Hy Hx. unfold Spec.prev_cell. symmetry. now apply sameC.
Qed.

Lemma expanded_peep (w : ref) :
  forall n c y x,
    n < B -> c < hidden_dim self -> y < fst (input_size self) ->
    x < snd (input_size self) ->
    (Spec.peep s w c y x * Spec.prev_cell s C1 0 c y x
     = Spec.peep s w c y x * Spec.prev_cell s Cb n c y x)%R.
Proof.
  intros n c y x Hn Hc Hy Hx. now rewrite (expanded_cell Hn Hc Hy Hx).
Qed.

Ltac mixed_step lem :=
  step ltac:(eapply step_binop_batch1; [eassumption | eassumption | exact lem]).

Lemma forward_mul_run_batch1 :
  gating_mode self = "mul"%string ->
  wp (forward self Xt (H1, C1)) s
     (run_post s self B (Spec.Ht_mul s self Xt Hb Cb) (Spec.Ct_mul s self Xt Hb Cb)).
Proof.
  intros Hmode.
  destruct Hvalid as (Hk1 & Hk2 & Hih & Hiw).
  destruct Hst1 as [HH HC]. cbn [fst snd] in HH, HC.
  pose proof HX as HX'. unfold frame_ok in HX'.
  assert (HvC : holds4 s C1 1 (hidden_dim self) (fst (input_size self))
                       (snd (input_size self)) (cuda 0) (Spec.prev_cell s C1))
    by (split; [exact HC | reflexivity]).
  pose proof (ext_refl s) as Hgrow.
  unfold forward. rewrite Hmode. cbn [String.eqb Ascii.eqb Bool.eqb].
  (* i *)
  conv_step ok_Wxi. conv_step ok_Whi. mixed_step (expanded_conv (ok_Whi Hcell)).
  peep_step ok_Wci. mixed_step (expanded_peep (Wci self)). tied_step ok_bi. hs_step.
  (* f *)
  conv_step ok_Wxf. conv_step ok_Whf. mixed_step (expanded_conv (ok_Whf Hcell)).
  peep_step ok_Wcf. mixed_step (expanded_peep (Wcf self)). tied_step ok_bf. hs_step.
  (* candidate *)
  conv_step ok_Wxc. conv_step ok_Whc. mixed_step (expanded_conv (ok_Whc Hcell)).
  tied_step ok_bc. map_step.
  (* Ct *)
  mixed_step expanded_cell. binop_step. binop_step.
  (* o *)
  conv_step ok_Wxo. conv_step ok_Who. mixed_step (expanded_conv (ok_Who Hcell)).
  peep_step ok_Wco. binop_step. tied_step ok_bo. hs_step.
  (* Ht *)
  map_step. binop_step.
  apply wp_ret. finish_run.
Qed.

Lemma forward_sub_run_batch1 :
  gating_mode self <> "mul"%string ->
  wp (forward self Xt (H1, C1)) s
     (run_post s self B (Spec.Ht_sub s self Xt Hb Cb) (Spec.Ct_sub s self Xt Hb Cb)).
Proof.
  intros Hmode.
  destruct Hvalid as (Hk1 & Hk2 & Hih & Hiw).
  destruct Hst1 as [HH HC]. cbn [fst snd] in HH, HC.
  pose proof HX as HX'. unfold frame_ok in HX'.
  assert (HvC : holds4 s C1 1 (hidden_dim self) (fst (input_size self))
                       (snd (input_size self)) (cuda 0) (Spec.prev_cell s C1))
    by (split; [exact HC | reflexivity]).
  pose proof (ext_refl s) as Hgrow.
  unfold forward. apply String.eqb_neq in Hmode. rewrite Hmode.
  (* i *)
  conv_step ok_Wxi. conv_step ok_Whi. mixed_step (expanded_conv (ok_Whi Hcell)).
  peep_step ok_Wci. mixed_step (expanded_peep (Wci self)). tied_step ok_bi. hs_step.
  (* f *)
  conv_step ok_Wxf. conv_step ok_Whf. mixed_step (expanded_conv (ok_Whf Hcell)).
  peep_step ok_Wcf. mixed_step (expanded_peep (Wcf self)). tied_step ok_bf. hs_step.
  (* candidate *)
  conv_step ok_Wxc. conv_step ok_Whc. mixed_step (expanded_conv (ok_Whc Hcell)).
  tied_step ok_bc. hs_step.
  (* Ct *)
  mixed_step expanded_cell. binop_step. binop_step.
  (* o *)
  conv_step ok_Wxo. conv_step ok_Who. mixed_step (expanded_conv (ok_Who Hcell)).
  peep_step ok_Wco. binop_step. tied_step ok_bo. hs_step.
  (* Ht *)
  hs_step. binop_step.
  apply wp_ret. finish_run.
Qed.

End Expanded.

(** X16.  [forward] checks no batch size itself: a state of batch size 1 is
    accepted with a frame of any batch size B and broadcast over it; the
    results have batch size B and are those of the same state repeated B
    times. *)
Theorem state_of_batch_one_broadcasts (s : store) (self : ConvLSTMCell) (B : nat)
        (Xt H1 C1 Hb Cb : ref) :
  valid_config self -> cell_ok s self (cuda 0) ->
  frame_ok s self B (cuda 0) Xt ->
  state_ok s self 1 (cuda 0) (H1, C1) -> state_ok s self B (cuda 0) (Hb, Cb) ->
  (forall n c y x,
      n < B -> c < hidden_dim self ->
      y < fst (input_size self) -> x < snd (input_size self) ->
      data (val s Hb) [n; c; y; x] = data (val s H1) [0; c; y; x] /\
      data (val s Cb) [n; c; y; x] = data (val s C1) [0; c; y; x]) ->
  exists r1 s1 rb sb,
    forward self Xt (H1, C1) s = Ok (r1, s1) /\
    forward self Xt (Hb, Cb) s = Ok (rb, sb) /\
    shape (val s1 (fst r1))
    = [B; hidden_dim self; fst (input_size self); snd (input_size self)] /\
    shape (val s1 (snd r1))
    = [B; hidden_dim self; fst (input_size self); snd (input_size self)] /\
    tensor_equal (val s1 (fst r1)) (val sb (fst rb)) /\
    tensor_equal (val s1 (snd r1)) (val sb (snd rb)).
Proof.
  intros Hv Hcell HX Hst1 Hstb Hsame.
  assert (HsH : forall n c y x,
             n < B -> c < hidden_dim self ->
             y < fst (input_size self) -> x < snd (input_size self) ->
             data (val s Hb) [n; c; y; x] = data (val s H1) [0; c; y; x])
    by (intros; now apply Hsame).
  assert (HsC : forall n c y x,
             n < B -> c < hidden_dim self ->
             y < fst (input_size self) -> x < snd (input_size self) ->
             data (val s Cb) [n; c; y; x] = data (val s C1) [0; c; y; x])
    by (intros; now apply Hsame).
  assert (Hrun1 : wp (forward self Xt (H1, C1)) s (fun r s' =>
            exists gH gC, run_post s self B gH gC r s' /\
              wp (forward self Xt (Hb, Cb)) s (run_post s self B gH gC))).
  { destruct (String.eqb (gating_mode self) "mul") eqn:E.
    - apply String.eqb_eq in E.
      eapply wp_conseq;
        [apply (forward_mul_run_batch1 Hv Hcell HX Hst1 Hstb HsH HsC E)|].
      intros r s' Hp. eexists. eexists. split; [exact Hp|].
      apply (forward_mul_run Hv Hcell HX Hstb E).
    - apply String.eqb_neq in E.
      eapply wp_conseq;
        [apply (forward_sub_run_batch1 Hv Hcell HX Hst1 Hstb HsH HsC E)|].
      intros r s' Hp. eexists. eexists. split; [exact Hp|].
      apply (forward_sub_run Hv Hcell HX Hstb E). }
  destruct Hrun1 as (r1 & s1 & E1 & gH & gC & (_ & _ & _ & HH1 & HC1)
                     & rb & sb & Eb & (_ & _ & _ & HHb & HCb)).
  exists r1, s1, rb, sb. split; [exact E1|]. split; [exact Eb|].
  split; [apply HH1|]. split; [apply HC1|].
  split.
  - apply (holds4_equal HH1 HHb). reflexivity.
  - apply (holds4_equal HC1 HCb). reflexivity.
Qed.

Lemma state_of_batch_one_broadcasts_witness :
  exists r1 s1 rb sb,
    forward (demo_cell "sub") 28 demo_state demo_more = Ok (r1, s1) /\
    forward (demo_cell "sub") 28 (29, 30) demo_more = Ok (rb, sb) /\
    shape (val s1 (fst r1)) = [2; 1; 1; 1] /\
    tensor_equal (val s1 (fst r1)) (val sb (fst rb)).
Proof.
  unfold demo_state.
  destruct (@state_of_batch_one_broadcasts demo_more (demo_cell "sub") 2
              28 demo_H demo_C 29 30 (demo_valid "sub") (demo_more_cell_ok "sub"))
    as (r1 & s1 & rb & sb & E1 & Eb & SH & _ & EH & _).
  - apply demo_more_tens; [lia | reflexivity | reflexivity].
  - split; apply demo_more_tens; simpl; first [unfold demo_H; lia | unfold demo_C; lia
                                                | reflexivity].
  - split; apply demo_more_tens; simpl; first [lia | reflexivity].
  - intros n c y x _ _ _ _. split; reflexivity.
  - exists r1, s1, rb, sb. split; [exact E1|]. split; [exact Eb|].
    split; [exact SH | exact EH].
Defined.

(** ** The peephole flag on the GPU *)

(** X23.  On cuda:0, two cells that agree on everything but the peephole
    flag (same configuration, same convolution weights and biases, same
    tied biases) and whose peephole tensors all hold the constant 1 return
    equal hidden states and equal cell states from [forward] on equal
    frames and equal previous states. *)
Theorem peephole_flag_changes_nothing (s1 s2 : store) (c1 c2 : ConvLSTMCell)
        (B : nat) (X1 X2 : ref) (st1 st2 : ref * ref) :
  valid_config c1 ->
  cell_ok s1 c1 (cuda 0) -> cell_ok s2 c2 (cuda 0) ->
  frame_ok s1 c1 B (cuda 0) X1 -> frame_ok s2 c2 B (cuda 0) X2 ->
  state_ok s1 c1 B (cuda 0) st1 -> state_ok s2 c2 B (cuda 0) st2 ->
  same_but_peephole s1 c1 s2 c2 ->
  peepholes_one s1 c1 -> peepholes_one s2 c2 ->
  val s1 X1 = val s2 X2 ->
  val s1 (fst st1) = val s2 (fst st2) -> val s1 (snd st1) = val s2 (snd st2) ->
  exists r1 s1' r2 s2',
    forward c1 X1 st1 s1 = Ok (r1, s1') /\
    forward c2 X2 st2 s2 = Ok (r2, s2') /\
    tensor_equal (val s1' (fst r1)) (val s2' (fst r2)) /\
    tensor_equal (val s1' (snd r1)) (val s2' (snd r2)).
Proof.
  intros Hv1 Hc1 Hc2 HX1 HX2 Hst1 Hst2 Hsame Hone1 Hone2 EX EH EC.
  pose proof (same_valid Hsame Hv1) as Hv2.
  pose proof (same_mode Hsame) as Em.
  pose proof (same_hidden_dim Hsame) as Ed.
  pose proof (same_input_size Hsame) as Es.
  destruct (String.eqb (gating_mode c1) "mul") eqn:E.
  - apply String.eqb_eq in E.
    assert (E2 : gating_mode c2 = "mul"%string) by congruence.
    destruct (forward_mul_run Hv1 Hc1 HX1 Hst1 E)
      as (r1 & s1' & Hrun1 & _ & _ & _ & GH1 & GC1).
    destruct (forward_mul_run Hv2 Hc2 HX2 Hst2 E2)
      as (r2 & s2' & Hrun2 & _ & _ & _ & GH2 & GC2).
    exists r1, s1', r2, s2'. split; [exact Hrun1|]. split; [exact Hrun2|].
    rewrite <- Ed, <- Es in GH2, GC2.
    split.
    + apply (holds4_equal GH1 GH2). intros n c y x _ Hc Hy Hx.
      apply (@states_same s1 s2 c1 c2 X1 (fst st1) (snd st1) X2 (fst st2) (snd st2)
                          Hsame Hone1 Hone2 EX EH EC n c y x Hc Hy Hx).
    + apply (holds4_equal GC1 GC2). intros n c y x _ Hc Hy Hx.
      apply (@states_same s1 s2 c1 c2 X1 (fst st1) (snd st1) X2 (fst st2) (snd st2)
                          Hsame Hone1 Hone2 EX EH EC n c y x Hc Hy Hx).
  - apply String.eqb_neq in E.
    assert (E2 : gating_mode c2 <> "mul"%string) by congruence.
    destruct (forward_sub_run Hv1 Hc1 HX1 Hst1 E)
      as (r1 & s1' & Hrun1 & _ & _ & _ & GH1 & GC1).
    destruct (forward_sub_run Hv2 Hc2 HX2 Hst2 E2)
      as (r2 & s2' & Hrun2 & _ & _ & _ & GH2 & GC2).
    exists r1, s1', r2, s2'. split; [exact Hrun1|]. split; [exact Hrun2|].
    rewrite <- Ed, <- Es in GH2, GC2.
    split.
    + apply (holds4_equal GH1 GH2). intros n c y x _ Hc Hy Hx.
      apply (@states_same s1 s2 c1 c2 X1 (fst st1) (snd st1) X2 (fst st2) (snd st2)
                          Hsame Hone1 Hone2 EX EH EC n c y x Hc Hy Hx).
    + apply (holds4_equal GC1 GC2). intros n c y x _ Hc Hy Hx.
      apply (@states_same s1 s2 c1 c2 X1 (fst st1) (snd st1) X2 (fst st2) (snd st2)
                          Hsame Hone1 Hone2 EX EH EC n c y x Hc Hy Hx).
Qed.

Lemma peephole_flag_changes_nothing_witness :
  exists r1 s1' r2 s2',
    peephole (with_peephole true (demo_cell "sub")) = true /\
    peephole (demo_cell "sub") = false /\
    forward (with_peephole true (demo_cell "sub")) demo_frame demo_state demo_gpu
    = Ok (r1, s1') /\
    forward (demo_cell "sub") demo_frame demo_state demo_gpu = Ok (r2, s2') /\
    tensor_equal (val s1' (fst r1)) (val s2' (fst r2)) /\
    tensor_equal (val s1' (snd r1)) (val s2' (snd r2)).
Proof.
  unfold demo_gpu, demo_state.
  destruct (@peephole_flag_changes_nothing
              (demo_store (cuda 0)) (demo_store (cuda 0))
              (with_peephole true (demo_cell "sub")) (demo_cell "sub")
              1 demo_frame demo_frame (demo_H, demo_C) (demo_H, demo_C))
    as (r1 & s1' & r2 & s2' & Hrun1 & Hrun2 & EH & EC).
  - apply demo_valid.
  - apply with_peephole_cell_ok, demo_cell_ok.
  - apply demo_cell_ok.
  - apply demo_frame_ok.
  - apply demo_frame_ok.
  - apply demo_state_ok.
  - apply demo_state_ok.
  - apply with_peephole_same.
  - apply demo_peepholes_one.
  - apply demo_peepholes_one.
  - reflexivity.
  - reflexivity.
  - reflexivity.
  - exists r1, s1', r2, s2'.
    split; [reflexivity|]. split; [reflexivity|].
    split; [exact Hrun1|]. split; [exact Hrun2|]. split; assumption.
Defined.

(** * KITTI preprocessing: properties of process_kitti.py *)

Import Kitti.

Lemma demo_resize_ok : resize_ok demo_env.
Proof.
  intros im w h Hr Hc Hw Hh. cbn [cv2_resize demo_env]. unfold demo_resize.
  assert (E : ((1 <=? w)%Z && (1 <=? h) && (1 <=? rows im) && (1 <=? cols im))%bool = true).
  { rewrite !andb_true_iff. repeat split;
      first [apply Z.leb_le; exact Hw | now apply Nat.leb_le]. }
  rewrite E. eexists. split; [reflexivity|]. cbn [rows cols]. split; [reflexivity | lia].
Qed.

(** ** process_im: the crop *)

Lemma quot2_nonneg (a : Z) : (0 <= a)%Z -> Z.quot a 2 = (a / 2)%Z.
Proof. intros H. apply Z.quot_div_nonneg; lia. Qed.

Lemma quot2_neg (a : Z) : (a < 0)%Z -> Z.quot a 2 = (- ((- a) / 2))%Z.
Proof.
  intros H. replace a with (- - a)%Z at 1 by lia.
  rewrite Z.quot_opp_l by lia. now rewrite quot2_nonneg by lia.
Qed.

(** What [process_im] does before the crop. *)
Lemma process_im_resized (env : Env) (im : image) (dh dw : nat) (w : Z) :
  resize_ok env -> 1 <= rows im -> 1 <= cols im -> 1 <= dh -> (1 <= w)%Z ->
  scaled_width im (dh, dw) = Some w ->
  exists im1,
    cv2_resize env im (w, dh) = Returned im1 /\
    rows im1 = dh /\ Z.of_nat (cols im1) = w /\
    process_im env im (dh, dw)
    = Returned (slice_cols im1 (Z.quot (w - Z.of_nat dw) 2)
                           (Z.quot (w - Z.of_nat dw) 2 + Z.of_nat dw)).
Proof.
  intros Hres Hr Hc Hdh Hw Hsw.
  destruct (Hres im w dh Hr Hc Hw Hdh) as (im1 & E1 & R1 & C1).
  exists im1. split; [exact E1|]. split; [exact R1|]. split; [exact C1|].
  unfold process_im. unfold scaled_width in Hsw. cbn [fst snd] in *.
  destruct (rows im =? 0) eqn:E0; [apply Nat.eqb_eq in E0; lia|].
  rewrite Hsw, E1, C1. reflexivity.
Qed.

(** X17.  When the resized image is at least as wide as desired, [process_im]
    returns exactly the desired size, cut from the centre. *)
Theorem process_im_centre_crop (env : Env) (im : image) (dh dw : nat) (w : Z) :
  resize_ok env -> 1 <= rows im -> 1 <= cols im -> 1 <= dh -> 1 <= dw ->
  scaled_width im (dh, dw) = Some w -> (Z.of_nat dw <= w)%Z ->
  exists im1 out,
    cv2_resize env im (w, dh) = Returned im1 /\
    process_im env im (dh, dw) = Returned out /\
    rows out = dh /\ cols out = dw /\
    let left := ((w - Z.of_nat dw) / 2)%Z in
    let right := (w - Z.of_nat dw - left)%Z in
    (right = left \/ right = left + 1)%Z /\
    forall y x c, px out y x c = px im1 y (Z.to_nat left + x) c.
Proof.
  intros Hres Hr Hc Hdh Hdw Hsw Hwide.
  destruct (@process_im_resized env im dh dw w Hres Hr Hc Hdh ltac:(lia) Hsw)
    as (im1 & E1 & R1 & C1 & Hrun).
  eexists im1, _. split; [exact E1|]. split; [exact Hrun|].
  rewrite quot2_nonneg by lia.
  set (l := ((w - Z.of_nat dw) / 2)%Z).
  assert (Hl : (0 <= 2 * l <= w - Z.of_nat dw /\ w - Z.of_nat dw <= 2 * l + 1)%Z).
  { unfold l. pose proof (Z.div_mod (w - Z.of_nat dw) 2 ltac:(lia)).
    pose proof (Z.mod_pos_bound (w - Z.of_nat dw) 2 ltac:(lia)). lia. }
  assert (Ea : slice_bound (Z.of_nat (cols im1)) l = l).
  { unfold slice_bound. destruct (l <? 0)%Z eqn:E; [apply Z.ltb_lt in E; lia|]. lia. }
  assert (Eb : slice_bound (Z.of_nat (cols im1)) (l + Z.of_nat dw) = (l + Z.of_nat dw)%Z).
  { unfold slice_bound.
    destruct (l + Z.of_nat dw <? 0)%Z eqn:E; [apply Z.ltb_lt in E; lia|]. lia. }
  unfold slice_cols. cbn [rows cols px]. rewrite Ea, Eb.
  split; [exact R1|]. split; [lia|]. cbv zeta. split; [lia|]. reflexivity.
Qed.

Lemma process_im_centre_crop_witness :
  exists im1 out,
    cv2_resize demo_env (demo_image 375 1242) (424%Z, 128) = Returned im1 /\
    process_im demo_env (demo_image 375 1242) (128, 160) = Returned out /\
    rows out = 128 /\ cols out = 160 /\
    px out 0 0 0 = px im1 0 132 0.
Proof.
  destruct (@process_im_centre_crop demo_env (demo_image 375 1242) 128 160 424%Z
              demo_resize_ok)
    as (im1 & out & E1 & E2 & R & C & _ & Hpx);
    [simpl; lia | simpl; lia | lia | lia | vm_compute; reflexivity | lia |].
  exists im1, out. split; [exact E1|]. split; [exact E2|]. split; [exact R|].
  split; [exact C|]. apply (Hpx 0 0 0).
Defined.

(** X18.  When the resized image is narrower than desired, the slice
    [d:d+width] has a negative start, which numpy counts from the right
    edge: [process_im] returns the right-most columns only, fewer than
    desired, and never pads. *)
Theorem process_im_too_narrow (env : Env) (im : image) (dh dw : nat) (w : Z) :
  resize_ok env -> 1 <= rows im -> 1 <= cols im -> 1 <= dh ->
  scaled_width im (dh, dw) = Some w -> (1 <= w < Z.of_nat dw)%Z ->
  exists im1 out,
    cv2_resize env im (w, dh) = Returned im1 /\
    process_im env im (dh, dw) = Returned out /\
    rows out = dh /\ cols out < dw /\
    Z.of_nat (cols out)
    = (if (Z.of_nat dw - w =? 1)%Z then w else Z.min w ((Z.of_nat dw - w) / 2))%Z /\
    forall y x c, px out y x c = px im1 y (cols im1 - cols out + x) c.
Proof.
  intros Hres Hr Hc Hdh Hsw Hnarrow.
  destruct (@process_im_resized env im dh dw w Hres Hr Hc Hdh ltac:(lia) Hsw)
    as (im1 & E1 & R1 & C1 & Hrun).
  eexists im1, _. split; [exact E1|]. split; [exact Hrun|].
  rewrite quot2_neg by lia.
  replace (- (w - Z.of_nat dw))%Z with (Z.of_nat dw - w)%Z by lia.
  set (k := ((Z.of_nat dw - w) / 2)%Z).
  assert (Hk : (0 <= 2 * k <= Z.of_nat dw - w /\ Z.of_nat dw - w <= 2 * k + 1)%Z).
  { unfold k. pose proof (Z.div_mod (Z.of_nat dw - w) 2 ltac:(lia)).
    pose proof (Z.mod_pos_bound (Z.of_nat dw - w) 2 ltac:(lia)). lia. }
  assert (Eb : slice_bound (Z.of_nat (cols im1)) (- k + Z.of_nat dw) = w).
  { unfold slice_bound.
    destruct (- k + Z.of_nat dw <? 0)%Z eqn:E; [apply Z.ltb_lt in E; lia|]. lia. }
  assert (Ea : slice_bound (Z.of_nat (cols im1)) (- k)
               = (if (Z.of_nat dw - w =? 1)%Z then 0 else Z.max (w - k) 0)%Z).
  { unfold slice_bound.
    destruct (Z.of_nat dw - w =? 1)%Z eqn:E1'.
    - apply Z.eqb_eq in E1'. assert (k = 0)%Z as -> by lia.
      simpl. lia.
    - apply Z.eqb_neq in E1'.
      destruct (- k <? 0)%Z eqn:E; [|apply Z.ltb_ge in E; lia].
      now rewrite C1, Z.add_comm. }
  unfold slice_cols. cbn [rows cols px]. rewrite Ea, Eb.
  split; [exact R1|].
  destruct (Z.of_nat dw - w =? 1)%Z eqn:E1'.
  - split; [lia|]. split; [lia|].
    intros y x c. f_equal. lia.
  - split; [lia|]. split; [lia|].
    intros y x c. f_equal. lia.
Qed.

Lemma process_im_too_narrow_witness :
  exists im1 out,
    cv2_resize demo_env (demo_image 375 300) (102%Z, 128) = Returned im1 /\
    process_im demo_env (demo_image 375 300) (128, 160) = Returned out /\
    rows out = 128 /\ cols out = 29.
Proof.
  destruct (@process_im_too_narrow demo_env (demo_image 375 300) 128 160 102%Z
              demo_resize_ok)
    as (im1 & out & E1 & E2 & R & _ & C & _);
    [simpl; lia | simpl; lia | lia | vm_compute; reflexivity | lia |].
  exists im1, out. split; [exact E1|]. split; [exact E2|]. split; [exact R|].
  apply Nat2Z.inj. rewrite C. reflexivity.
Defined.

(** ** process_data: the splits *)

Lemma rec_eqb_eq (a b : recording) : rec_eqb a b = true <-> a = b.
Proof.
  destruct a as [a1 a2], b as [b1 b2]. unfold rec_eqb. cbn [fst snd].
  rewrite andb_true_iff, !String.eqb_eq. split.
  - now intros [-> ->].
  - intros [= -> ->]. now split.
Qed.

Lemma rec_in_In (r : recording) (l : list recording) : rec_in r l = true <-> In r l.
Proof.
  unfold rec_in. rewrite existsb_exists. split.
  - intros (x & Hx & E). apply rec_eqb_eq in E. now subst.
  - intros H. exists r. split; [exact H | now apply rec_eqb_eq].
Qed.

Lemma rec_in_false (r : recording) (l : list recording) : rec_in r l = false <-> ~ In r l.
Proof.
  rewrite <- rec_in_In. destruct (rec_in r l); split; congruence.
Qed.

(** The recordings of category [c] on disk that are not in [not_train]. *)
Lemma in_new_train (not_train : list recording) (c : string) (folders : list string)
      (r : recording) :
  In r (map (pair c) (filter (fun f => negb (rec_in (c, f) not_train)) folders)) <->
  fst r = c /\ In (snd r) folders /\ ~ In r not_train.
Proof.
  rewrite in_map_iff. split.
  - intros (f & <- & Hf). apply filter_In in Hf as [Hf Hn].
    apply negb_true_iff, rec_in_false in Hn. now repeat split.
  - intros (<- & Hf & Hn). exists (snd r). split; [now destruct r|].
    apply filter_In. split; [exact Hf|].
    apply negb_true_iff, rec_in_false. now destruct r.
Qed.

Lemma assign_train_spec (env : Env) (not_train : list recording) (cs : list string) :
  forall acc train,
    assign_train env not_train cs acc = Returned train ->
    (forall c, In c cs -> walk_last env (category_dir env c) <> None) /\
    forall r, In r train <->
              In r acc \/
              (In (fst r) cs /\
               exists folders files,
                 walk_last env (category_dir env (fst r)) = Some (folders, files) /\
                 In (snd r) folders /\ ~ In r not_train).
Proof.
  induction cs as [|c cs IH]; intros acc train Hrun.
  - injection Hrun as <-. split; [intros c []|].
    intros r. split; [auto | intros [H | [[] _]]; exact H].
  - cbn [assign_train] in Hrun. fold (category_dir env c) in Hrun.
    destruct (walk_last env (category_dir env c)) as [[folders files]|] eqn:Ew;
      [|discriminate].
    destruct (IH _ _ Hrun) as [Hall Hin]. split.
    + intros c' [<- | Hc']; [congruence | now apply Hall].
    + intros r. rewrite Hin, in_app_iff, in_new_train. split.
      * intros [[Ha | (Hc & Hf & Hn)] | (Hc & fo & fi & E & Hf & Hn)].
        -- now left.
        -- right. split; [now left|]. exists folders, files. rewrite Hc. auto.
        -- right. split; [now right|]. exists fo, fi. auto.
      * intros [Ha | ([<- | Hc] & fo & fi & E & Hf & Hn)].
        -- left. now left.
        -- left. right. rewrite Ew in E. injection E as <- <-. auto.
        -- right. split; [exact Hc|]. exists fo, fi. auto.
Qed.

Lemma assign_train_missing (env : Env) (not_train : list recording) (cs : list string) :
  forall acc,
    (exists c, In c cs /\ walk_last env (category_dir env c) = None) ->
    assign_train env not_train cs acc = Raised IndexError.
Proof.
  induction cs as [|c cs IH]; intros acc (c' & Hc & E); [destruct Hc|].
  cbn [assign_train]. fold (category_dir env c).
  destruct Hc as [-> | Hc].
  - now rewrite E.
  - destruct (walk_last env (category_dir env c)) as [[folders files]|]; [|reflexivity].
    apply IH. now exists c'.
Qed.

(** X19.  A recording is a training recording exactly when its folder is on
    disk, in the directory of one of the three categories, and it is neither
    a validation nor a test recording: the splits do not overlap. *)
Theorem train_split_excludes_val_and_test (env : Env) (train : list recording) :
  assign_train env (val_recordings ++ test_recordings) categories [] = Returned train ->
  forall c f,
    In (c, f) train <->
    In c categories /\
    (exists folders files,
        walk_last env (category_dir env c) = Some (folders, files) /\ In f folders) /\
    ~ In (c, f) val_recordings /\ ~ In (c, f) test_recordings.
Proof.
  intros Hrun c f.
  destruct (assign_train_spec _ _ _ _ Hrun) as [_ Hin].
  rewrite Hin. cbn [fst snd]. split.
  - intros [[] | (Hc & fo & fi & E & Hf & Hn)].
    rewrite in_app_iff in Hn.
    split; [exact Hc|]. split; [now exists fo, fi|]. tauto.
  - intros (Hc & (fo & fi & E & Hf) & Hv & Ht).
    right. split; [exact Hc|]. exists fo, fi.
    rewrite in_app_iff. tauto.
Qed.

Lemma train_split_excludes_val_and_test_witness :
  assign_train demo_env (val_recordings ++ test_recordings) categories []
  = Returned [demo_recording] /\
  ~ In demo_recording val_recordings /\ ~ In demo_recording test_recordings.
Proof.
  assert (E : assign_train demo_env (val_recordings ++ test_recordings) categories []
              = Returned [demo_recording]) by reflexivity.
  split; [exact E|].
  apply (proj1 (@train_split_excludes_val_and_test demo_env [demo_recording] E
                  "city" "2011_09_26_drive_0001_sync")%string).
  now left.
Defined.

(** X20.  When the directory of a category is missing, the index [-1] into the
    empty walk raises IndexError outside any [try]: [process_data] ends
    before it has written a file. *)
Theorem missing_category_writes_nothing (env : Env) (c : string) :
  In c categories -> walk_last env (category_dir env c) = None ->
  process_data env = ([], Some IndexError).
Proof.
  intros Hc E. unfold process_data.
  rewrite assign_train_missing; [reflexivity|]. now exists c.
Qed.

Lemma missing_category_writes_nothing_witness :
  process_data empty_env = ([], Some IndexError).
Proof.
  apply (@missing_category_writes_nothing empty_env "city"%string);
    [now left | reflexivity].
Defined.

(** ** process_data: the array and its sources *)

Lemma prefix_append (a b : string) : String.prefix a (a ++ b) = true.
Proof.
  induction a as [|c a IH]; simpl; [now destruct b|].
  destruct (ascii_dec c c); [exact IH | contradiction].
Qed.

Lemma length_insert_sorted (x : string) (l : list string) :
  length (insert_sorted x l) = S (length l).
Proof.
  induction l as [|y l IH]; simpl; [reflexivity|].
  destruct (String.leb x y); simpl; [reflexivity | now rewrite IH].
Qed.

Lemma length_sorted (l : list string) : length (sorted l) = length l.
Proof.
  induction l as [|x l IH]; simpl; [reflexivity|].
  unfold sorted in *. simpl. now rewrite length_insert_sorted, IH.
Qed.

Lemma files_of_recording (env : Env) (all : list recording) (r : recording)
      (l : list string) :
  In r all ->
  Forall2 (from_recording env all) (map (String.append (im_dir_of env r)) l)
          (repeat (source_of r) (length l)).
Proof.
  intros Hr. induction l as [|f l IH]; simpl; constructor; [|exact IH].
  exists r. split; [exact Hr|]. split; [reflexivity | apply prefix_append].
Qed.

(** The two lists of the first loop grow in step. *)
Lemma list_images_aligned (env : Env) (all : list recording) (recs : list recording) :
  forall il sl il' sl',
    (forall r, In r recs -> In r all) ->
    Forall2 (from_recording env all) il sl ->
    list_images env recs il sl = (il', sl') ->
    Forall2 (from_recording env all) il' sl'.
Proof.
  induction recs as [|r recs IH]; intros il sl il' sl' Hsub HF Hrun.
  - injection Hrun as <- <-. exact HF.
  - cbn [list_images] in Hrun.
    assert (Hsub' : forall r', In r' recs -> In r' all)
      by (intros r' Hr'; apply Hsub; now right).
    destruct (walk_last env (im_dir_of env r)) as [[dirs files]|];
      [|exact (IH _ _ _ _ Hsub' HF Hrun)].
    refine (IH _ _ _ _ Hsub' _ Hrun).
    apply Forall2_app; [exact HF|].
    rewrite <- (length_sorted files).
    apply files_of_recording, Hsub. now left.
Qed.

Lemma set_nth_length (A : Type) (i : nat) (x : A) (l : list A) :
  length (set_nth i x l) = length l.
Proof.
  revert i. induction l as [|y l IH]; intros [|i]; simpl; auto.
Qed.

Lemma nth_set_nth_same (A : Type) (i : nat) (x d : A) (l : list A) :
  i < length l -> nth i (set_nth i x l) d = x.
Proof.
  revert i. induction l as [|y l IH]; intros [|i] H; simpl in *; try lia; auto.
  apply IH. lia.
Qed.

Lemma nth_set_nth_other (A : Type) (i j : nat) (x d : A) (l : list A) :
  i <> j -> nth j (set_nth i x l) d = nth j l d.
Proof.
  revert i j. induction l as [|y l IH]; intros [|i] [|j] H; simpl; auto; try lia.
Qed.

Lemma skipn_cons (A : Type) (i : nat) (l : list A) (x d : A) (rest : list A) :
  skipn i l = x :: rest ->
  nth i l d = x /\ skipn (S i) l = rest /\ i < length l.
Proof.
  revert l. induction i as [|i IH]; intros [|y l] H; simpl in *; try discriminate.
  - injection H as -> ->. repeat split. lia.
  - destruct (IH l H) as (H1 & H2 & H3). repeat split; auto. lia.
Qed.

Lemma fill_invariant (env : Env) (all : list string) (files : list string) :
  forall i X indices X' indices',
    skipn i all = files -> i <= length all ->
    filled env all i X indices ->
    fill env i files X indices = Returned (X', indices') ->
    filled env all (length all) X' indices'.
Proof.
  induction files as [|f files IH]; intros i X indices X' indices' Hall Hle HI Hrun.
  - injection Hrun as <- <-. destruct HI as [HL HF]. split; [exact HL|].
    eapply Forall_impl; [|exact HF]. intros j [Hj Hr]. split; [lia | exact Hr].
  - destruct (skipn_cons i all ""%string Hall) as (Hf & Hall' & Hi).
    assert (Hskip : filled env all (S i) X indices).
    { destruct HI as [HL HF]. split; [exact HL|].
      eapply Forall_impl; [|exact HF]. intros j [Hj Hr]. split; [lia | exact Hr]. }
    cbn [fill] in Hrun.
    destruct (imread env f) as [im|e] eqn:Eim.
    2:{ destruct e; try discriminate. now apply (IH (S i) X indices). }
    destruct (process_im env im desired_im_sz) as [v|e] eqn:Ev.
    2:{ destruct e; try discriminate. now apply (IH (S i) X indices). }
    destruct (as_row v) as [row|] eqn:Er.
    2:{ now apply (IH (S i) X indices). }
    apply (IH (S i) (set_nth i row X) (indices ++ [i])%list); auto.
    destruct HI as [HL HF]. split; [now rewrite set_nth_length|].
    apply Forall_app. split.
    + eapply Forall_impl; [|exact HF]. intros j [Hj Hr]. split; [lia|].
      rewrite nth_set_nth_other by lia. exact Hr.
    + constructor; [|constructor]. split; [lia|].
      rewrite nth_set_nth_same by lia. rewrite Hf. now exists im, v.
Qed.

Lemma Forall2_nth (A B : Type) (R : A -> B -> Prop) (l : list A) (l' : list B)
      (da : A) (db : B) (j : nat) :
  Forall2 R l l' -> j < length l -> R (nth j l da) (nth j l' db).
Proof.
  intros H. revert j. induction H as [|x y l l' Hxy _ IH]; intros [|j] Hj;
    simpl in *; try lia; auto.
  apply IH. lia.
Qed.

(** X21.  Row [k] of the array that is written for a split is the processed
    image of file [k] of the files kept, that file lies in the image
    directory of one of the recordings of the split, and entry [k] of the
    sources written names that recording. *)
Theorem collect_aligned (env : Env) (recs : list recording)
        (X : list image) (files sources : list string) :
  collect env recs = Returned (X, files, sources) ->
  length X = length files /\ length sources = length files /\
  forall k, k < length files ->
    from_recording env recs (nth k files ""%string) (nth k sources ""%string) /\
    row_of env (nth k files ""%string) (nth k X zero_row).
Proof.
  unfold collect. intros Hrun.
  destruct (list_images env recs [] []) as [im_list source_list] eqn:El.
  pose proof (@list_images_aligned env recs recs [] [] im_list source_list
                (fun r H => H) (Forall2_nil _) El) as Hal.
  destruct (fill env 0 im_list (repeat zero_row (length im_list)) [])
    as [[X0 indices]|e] eqn:Ef; [|discriminate].
  injection Hrun as <- <- <-.
  assert (HI0 : filled env im_list 0 (repeat zero_row (length im_list)) []).
  { split; [apply repeat_length | constructor]. }
  destruct (@fill_invariant env im_list im_list 0 _ [] X0 indices eq_refl
              (Nat.le_0_l _) HI0 Ef) as [HL HF].
  rewrite !length_map. split; [reflexivity|]. split; [reflexivity|].
  intros k Hk.
  rewrite (nth_indep _ ""%string (nth (length im_list) im_list ""%string))
    by (now rewrite length_map).
  rewrite (nth_indep (map _ indices) ""%string
                     (nth (length im_list) source_list ""%string))
    by (now rewrite length_map).
  rewrite (nth_indep (map _ indices) zero_row (nth (length im_list) X0 zero_row))
    by (now rewrite length_map).
  rewrite (map_nth (fun i => nth i im_list ""%string)),
          (map_nth (fun i => nth i source_list ""%string)),
          (map_nth (fun i => nth i X0 zero_row)).
  assert (Hj : In (nth k indices (length im_list)) indices) by now apply nth_In.
  rewrite Forall_forall in HF. destruct (HF _ Hj) as [Hlt Hrow].
  split; [now apply Forall2_nth | exact Hrow].
Qed.

Lemma collect_aligned_witness :
  exists X files sources,
    collect demo_env [demo_recording] = Returned (X, files, sources) /\
    length files = 2 /\ length X = 2 /\ length sources = 2 /\
    from_recording demo_env [demo_recording]
                   (nth 0 files ""%string) (nth 0 sources ""%string).
Proof.
  destruct (collect demo_env [demo_recording]) as [[[X files] sources]|e] eqn:E.
  - exists X, files, sources. split; [reflexivity|].
    destruct (collect_aligned _ _ E) as (H1 & H2 & Hk).
    assert (Hf : length files = 2).
    { vm_compute in E. injection E as _ <- _. reflexivity. }
    rewrite H1, H2, Hf. repeat split. apply Hk. lia.
  - vm_compute in E. discriminate.
Defined.

(** ** process_data: what is written *)

Lemma dump_splits_pairs (env : Env) (splits : list (string * list recording)) :
  forall dumps e,
    dump_splits env splits = (dumps, e) ->
    exists written,
      dumps = flat_map (split_files env) written /\
      map fst written = firstn (length written) (map fst splits) /\
      Forall (fun w => length (fst (snd w)) = length (snd (snd w))) written /\
      (e = None <-> length written = length splits).
Proof.
  induction splits as [|[split recs] splits IH]; intros dumps e Hrun.
  - injection Hrun as <- <-. exists []. repeat split; constructor.
  - cbn [dump_splits] in Hrun.
    destruct (collect env recs) as [[[X files] sources]|e0] eqn:Ec.
    + destruct (dump_splits env splits) as [dumps' e'] eqn:Ed.
      injection Hrun as <- <-.
      destruct (IH _ _ eq_refl) as (written & -> & Hn & Hal & He).
      exists ((split, (X, sources)) :: written).
      split; [reflexivity|]. split; [simpl; now rewrite Hn|].
      split.
      * constructor; [|exact Hal]. cbn [fst snd].
        destruct (collect_aligned _ _ Ec) as (H1 & H2 & _). congruence.
      * simpl. rewrite He. split; intros H; lia.
    + injection Hrun as <- <-. exists [].
      split; [reflexivity|]. split; [reflexivity|]. split; [constructor|].
      simpl. split; intros H; discriminate.
Qed.

(** X22.  [process_data] writes the splits in the order train, test, val, for
    each split the array first and then the sources, the two always of the
    same length; an exception that is not caught while a split is
    collected ends it before either file of that split is written. *)
Theorem process_data_writes_pairs (env : Env) (dumps : list dump) (e : option pyexn) :
  process_data env = (dumps, e) ->
  exists written,
    dumps = flat_map (split_files env) written /\
    map fst written = firstn (length written) ["train"; "test"; "val"]%string /\
    Forall (fun w => length (fst (snd w)) = length (snd (snd w))) written /\
    (e = None <-> length written = 3).
Proof.
  unfold process_data. intros Hrun.
  destruct (assign_train env (val_recordings ++ test_recordings) categories [])
    as [train|e0].
  - apply dump_splits_pairs in Hrun. exact Hrun.
  - injection Hrun as <- <-. exists [].
    split; [reflexivity|]. split; [reflexivity|]. split; [constructor|].
    simpl. split; intros H; discriminate.
Qed.

Lemma process_data_writes_pairs_witness :
  exists dumps written,
    process_data demo_env = (dumps, None) /\
    dumps = flat_map (split_files demo_env) written /\
    map fst written = ["train"; "test"; "val"]%string.
Proof.
  destruct (process_data demo_env) as [dumps e] eqn:E.
  assert (He : e = None) by (vm_compute in E; now injection E as _ <-).
  subst e.
  destruct (process_data_writes_pairs _ E) as (written & Hd & Hn & _ & Hl).
  exists dumps, written. split; [reflexivity|]. split; [exact Hd|].
  rewrite Hn, (proj1 Hl eq_refl). reflexivity.
Defined.
